(** * mklndir: the directory hardlinking engine ([mklndir/core.py]) and its
    command line ([mklndir/cli.py])

    A shallow embedding of [DirectoryHardlinker] and of [main] over an
    explicit model of the file system they run against, and the properties
    of the walk: the per-file policy table, statistics accounting, exclusion,
    dry-run, idempotence and error handling; then what a run keeps, what it
    leaves behind, what it prints, and the exit code of the command. *)

From Stdlib Require Import ZArith Lia Ascii String.
From stdpp Require Import base option list strings pretty.

(** ** Paths

    A [pathlib.Path] is modelled as an absolute, normalised path: the list of
    its components, innermost first.  [/a/b/c] is [["c"; "b"; "a"]] and the
    root is [[]].  With this orientation [p / name] is a cons, [p.parent] is
    the tail, and "q lies below p" is [p `suffix_of` q]. *)

Abbreviation path := (list string).

(** [self / name] *)
Definition joinpath (p : path) (name : string) : path := name :: p.
Infix "//" := joinpath (at level 40, left associativity).

(** [self.name] *)
Definition name (p : path) : string :=
  match p with
  | n :: _ => n
  | [] => ""
  end.

(** [self.parent]; the root is its own parent. *)
Definition parent (p : path) : path := tail p.

(** [str(self)] *)
Definition str (p : path) : string :=
  match p with
  | [] => "/"
  | _ => foldr (fun n acc => acc +:+ "/" +:+ n) "" p
  end.

(** ** The file system

    The engine sees the file system through [pathlib] and [os]: existence and
    type checks, directory listing, [samefile], [mkdir], [link] and [unlink].
    The model keeps what these calls depend on.

    What [os.stat] reports for an entry: the kind of the entry, its identity
    (device and inode number, compared by [samefile]), and whether a
    directory may be listed and written to.  [Other] stands for every entry
    for which both [is_file()] and [is_dir()] answer [False] (FIFOs, sockets,
    devices, dangling links); links that resolve to a file or a directory are
    not modelled apart from what they resolve to, and search permission on
    the directories of a path is not modelled. *)

Inductive kind := Reg | Directory | Other.

Global Instance kind_eq_dec : EqDecision kind.
Proof. solve_decision. Defined.

Record stat_result := Stat {
  st_kind : kind;
  st_dev : Z;
  st_ino : Z;
  st_readable : bool;
  st_writable : bool
}.

Global Instance stat_result_eq_dec : EqDecision stat_result.
Proof. solve_decision. Defined.

(** The directory table: every entry with its path, in the order in which
    the file system yields them when a directory is listed (any order can be
    written down; a new entry goes last).  Hardlinked files are distinct
    paths with the same [(st_dev, st_ino)]. *)
Abbreviation FS := (list (path * stat_result)).

Fixpoint os_stat (fs : FS) (p : path) : option stat_result :=
  match fs with
  | [] => None
  | (q, s) :: fs' => if decide (q = p) then Some s else os_stat fs' p
  end.

(** [os.listdir]: the names of the entries directly inside [p]. *)
Fixpoint listdir (fs : FS) (p : path) : list string :=
  match fs with
  | [] => []
  | (n :: q, _) :: fs' =>
      if decide (q = p) then n :: listdir fs' p else listdir fs' p
  | ([], _) :: fs' => listdir fs' p
  end.

Definition add_entry (fs : FS) (p : path) (s : stat_result) : FS :=
  fs ++ [(p, s)].

Definition remove_entry (fs : FS) (p : path) : FS :=
  filter (fun e => e.1 ≠ p) fs.

(** An inode number that no entry carries yet. *)
Definition fresh_ino (fs : FS) : Z :=
  (1 + foldr Z.max 0 ((fun e => st_ino e.2) <$> fs))%Z.

(** [Path.exists], [Path.is_file], [Path.is_dir] *)
Definition path_exists (fs : FS) (p : path) : bool :=
  match os_stat fs p with Some _ => true | None => false end.

Definition is_file (fs : FS) (p : path) : bool :=
  match os_stat fs p with
  | Some s => bool_decide (st_kind s = Reg)
  | None => false
  end.

Definition is_dir (fs : FS) (p : path) : bool :=
  match os_stat fs p with
  | Some s => bool_decide (st_kind s = Directory)
  | None => false
  end.

(** A well-formed table: no path twice, the root is a directory, and every
    other entry sits in a directory that is itself in the table. *)
Definition wf_fs (fs : FS) : bool :=
  bool_decide (NoDup fs.*1)
  && is_dir fs []
  && forallb (fun e => match e.1 with
                       | [] => true
                       | _ :: q => is_dir fs q
                       end) fs.

(** ** Exceptions *)

Definition EPERM : Z := 1.
Definition ENOENT : Z := 2.
Definition EACCES : Z := 13.
Definition EEXIST : Z := 17.
Definition EXDEV : Z := 18.
Definition ENOTDIR : Z := 20.
Definition EISDIR : Z := 21.

(** [OSError] with its [errno] and file names, and [RecursionError]; the
    subclasses of [OSError] are determined by the error number. *)
Inductive exn :=
| OSError (errno : Z) (filename : path) (filename2 : option path)
| RecursionError.

Definition is_PermissionError (e : exn) : bool :=
  match e with
  | OSError n _ _ => bool_decide (n = EPERM) || bool_decide (n = EACCES)
  | RecursionError => false
  end.

Definition is_FileNotFoundError (e : exn) : bool :=
  match e with
  | OSError n _ _ => bool_decide (n = ENOENT)
  | RecursionError => false
  end.

Definition strerror (n : Z) : string :=
  if bool_decide (n = EPERM) then "Operation not permitted"
  else if bool_decide (n = ENOENT) then "No such file or directory"
  else if bool_decide (n = EACCES) then "Permission denied"
  else if bool_decide (n = EEXIST) then "File exists"
  else if bool_decide (n = EXDEV) then "Invalid cross-device link"
  else if bool_decide (n = ENOTDIR) then "Not a directory"
  else if bool_decide (n = EISDIR) then "Is a directory"
  else "Unknown error".

(** [str(e)] *)
Definition str_exn (e : exn) : string :=
  match e with
  | OSError n f f2 =>
      "[Errno " +:+ pretty n +:+ "] " +:+ strerror n +:+ ": '" +:+ str f +:+ "'"
      +:+ match f2 with
          | Some g => " -> '" +:+ str g +:+ "'"
          | None => ""
          end
  | RecursionError => "maximum recursion depth exceeded"
  end.

Inductive outcome (A : Type) :=
| Return (a : A)
| Raise (e : exn).
Arguments Return {A} a.
Arguments Raise {A} e.

(** ** The system calls *)

(** [os.mkdir(p)] *)
Definition os_mkdir (fs : FS) (p : path) : outcome FS :=
  match p with
  | [] => Raise (OSError (if path_exists fs [] then EEXIST else ENOENT) [] None)
  | _ :: q =>
      match os_stat fs q with
      | None => Raise (OSError ENOENT p None)
      | Some d =>
          if negb (bool_decide (st_kind d = Directory)) then
            Raise (OSError ENOTDIR p None)
          else if path_exists fs p then Raise (OSError EEXIST p None)
          else if negb (st_writable d) then Raise (OSError EACCES p None)
          else Return (add_entry fs p (Stat Directory (st_dev d) (fresh_ino fs) true true))
      end
  end.

(** [Path.mkdir(parents=False, exist_ok=True)]: a missing parent is an error,
    any other failure is forgiven when the path is a directory already. *)
Definition mkdir_exist_ok (fs : FS) (p : path) : outcome FS :=
  match os_mkdir fs p with
  | Return fs' => Return fs'
  | Raise e =>
      if is_FileNotFoundError e then Raise e
      else if is_dir fs p then Return fs
      else Raise e
  end.

(** [Path.mkdir(parents=True, exist_ok=True)] *)
Fixpoint mkdir_parents (fs : FS) (p : path) : outcome FS :=
  match os_mkdir fs p with
  | Return fs' => Return fs'
  | Raise e =>
      if is_FileNotFoundError e then
        match p with
        | [] => Raise e
        | _ :: q =>
            match mkdir_parents fs q with
            | Return fs1 => mkdir_exist_ok fs1 p
            | Raise e' => Raise e'
            end
        end
      else if is_dir fs p then Return fs
      else Raise e
  end.

(** [os.link(src, dst)]: a second name for the file [src]. *)
Definition os_link (fs : FS) (src dst : path) : outcome FS :=
  match os_stat fs src with
  | None => Raise (OSError ENOENT src (Some dst))
  | Some s =>
      match dst with
      | [] => Raise (OSError EEXIST src (Some dst))
      | _ :: q =>
          match os_stat fs q with
          | None => Raise (OSError ENOENT src (Some dst))
          | Some d =>
              if negb (bool_decide (st_kind d = Directory)) then
                Raise (OSError ENOTDIR src (Some dst))
              else if path_exists fs dst then Raise (OSError EEXIST src (Some dst))
              else if negb (bool_decide (st_dev s = st_dev d)) then
                Raise (OSError EXDEV src (Some dst))
              else if negb (st_writable d) then Raise (OSError EACCES src (Some dst))
              else if bool_decide (st_kind s = Directory) then
                Raise (OSError EPERM src (Some dst))
              else Return (add_entry fs dst s)
          end
      end
  end.

(** [Path.unlink()] *)
Definition os_unlink (fs : FS) (p : path) : outcome FS :=
  match os_stat fs p with
  | None => Raise (OSError ENOENT p None)
  | Some s =>
      if negb (match os_stat fs (parent p) with
               | Some d => st_writable d
               | None => true
               end) then Raise (OSError EACCES p None)
      else if bool_decide (st_kind s = Directory) then Raise (OSError EISDIR p None)
      else Return (remove_entry fs p)
  end.

(** [Path.iterdir()] *)
Definition os_iterdir (fs : FS) (p : path) : outcome (list string) :=
  match os_stat fs p with
  | None => Raise (OSError ENOENT p None)
  | Some d =>
      if negb (bool_decide (st_kind d = Directory)) then Raise (OSError ENOTDIR p None)
      else if negb (st_readable d) then Raise (OSError EACCES p None)
      else Return (listdir fs p)
  end.

(** [Path.samefile(other)]: both are stat'ed and their identities compared. *)
Definition os_samefile (fs : FS) (p other : path) : outcome bool :=
  match os_stat fs p with
  | None => Raise (OSError ENOENT p None)
  | Some s =>
      match os_stat fs other with
      | None => Raise (OSError ENOENT other None)
      | Some s' =>
          Return (bool_decide (st_dev s = st_dev s') && bool_decide (st_ino s = st_ino s'))
      end
  end.

(** ** The engine's state

    [self.verbose] and [self.dry_run] are fixed when the object is built;
    [self.stats], the file system and the standard output change as the run
    proceeds.  The world also keeps a record of every call made into [mkdir],
    [link] and [unlink], whether it succeeded or not; the program has no such
    list, it is there for the properties to speak about. *)

Record DirectoryHardlinker := Hardlinker {
  verbose : bool;
  dry_run : bool
}.

Record Stats := MkStats {
  files_linked : nat;
  dirs_created : nat;
  errors : nat;
  skipped : nat
}.

Global Instance Stats_eq_dec : EqDecision Stats.
Proof. solve_decision. Defined.

(** A call into one of the primitives that change the file system. *)
Inductive fs_call :=
| Mkdir (p : path)
| Link (src dst : path)
| Unlink (p : path).

Record World := MkWorld {
  stats : Stats;
  disk : FS;
  stdout : list string;
  calls : list fs_call
}.

(** [{"files_linked": 0, "dirs_created": 0, "errors": 0, "skipped": 0}] *)
Definition stats0 : Stats := MkStats 0 0 0 0.

(** A freshly constructed hardlinker in front of the file system [fs]. *)
Definition init (fs : FS) : World := MkWorld stats0 fs [] [].

Definition set_stats (f : Stats → Stats) (w : World) : World :=
  MkWorld (f (stats w)) (disk w) (stdout w) (calls w).
Definition set_disk (fs : FS) (w : World) : World :=
  MkWorld (stats w) fs (stdout w) (calls w).
Definition print (line : string) (w : World) : World :=
  MkWorld (stats w) (disk w) (stdout w ++ [line]) (calls w).
Definition note_call (c : fs_call) (w : World) : World :=
  MkWorld (stats w) (disk w) (stdout w) (calls w ++ [c]).

Definition incr_files_linked (s : Stats) : Stats :=
  MkStats (S (files_linked s)) (dirs_created s) (errors s) (skipped s).
Definition incr_dirs_created (s : Stats) : Stats :=
  MkStats (files_linked s) (S (dirs_created s)) (errors s) (skipped s).
Definition incr_errors (s : Stats) : Stats :=
  MkStats (files_linked s) (dirs_created s) (S (errors s)) (skipped s).
Definition incr_skipped (s : Stats) : Stats :=
  MkStats (files_linked s) (dirs_created s) (errors s) (S (skipped s)).

(** ** Computations: state passing with exceptions

    A raised exception keeps the state reached so far, as in Python. *)

Definition M (A : Type) : Type := World → outcome A * World.

Global Instance M_ret : MRet M := fun A a w => (Return a, w).
Global Instance M_bind : MBind M := fun A B f m w =>
  match m w with
  | (Return a, w') => f a w'
  | (Raise e, w') => (Raise e, w')
  end.

(** [try: m  except Exception as e: handler e] *)
Definition try_except {A} (m : M A) (handler : exn → M A) : M A := fun w =>
  match m w with
  | (Return a, w') => (Return a, w')
  | (Raise e, w') => handler e w'
  end.

Definition raise {A} (e : exn) : M A := fun w => (Raise e, w).

(** Reading the file system. *)
Definition query {A} (f : FS → A) : M A := fun w => (Return (f (disk w)), w).

(** A system call that reads the file system and may raise. *)
Definition call {A} (f : FS → outcome A) : M A := fun w =>
  match f (disk w) with
  | Return a => (Return a, w)
  | Raise e => (Raise e, w)
  end.

(** The system call [c], which changes the file system or raises. *)
Definition syscall (c : fs_call) (f : FS → outcome FS) : M unit := fun w =>
  match f (disk w) with
  | Return fs' => (Return (), set_disk fs' (note_call c w))
  | Raise e => (Raise e, note_call c w)
  end.

Definition modify_stats (f : Stats → Stats) : M unit := fun w =>
  (Return (), set_stats f w).

Definition when (b : bool) (m : M unit) : M unit :=
  if b then m else mret ().

(** ** A glob matcher

    The fragment of [fnmatch] without bracket expressions: [*] matches any
    run of characters, [?] any single character, every other character
    itself.  The engine is parametric in the matcher; this one runs the
    examples. *)

Fixpoint glob_chars (pat s : list ascii) : bool :=
  match pat with
  | [] => match s with [] => true | _ :: _ => false end
  | c :: pat' =>
      if bool_decide (c = "*"%char) then
        (fix star (s : list ascii) : bool :=
           glob_chars pat' s
           || match s with [] => false | _ :: s' => star s' end) s
      else
        match s with
        | [] => false
        | d :: s' =>
            (bool_decide (c = "?"%char) || bool_decide (c = d)) && glob_chars pat' s'
        end
  end.

Definition glob_match (s pat : string) : bool :=
  glob_chars (list_ascii_of_string pat) (list_ascii_of_string s).

(** ** [DirectoryHardlinker] *)

Section Engine.

(** [fnmatch.fnmatch(name, pattern)], the shell-glob matcher of the Python
    standard library. *)
Variable fnmatch : string → string → bool.

Variable self : DirectoryHardlinker.

(** [self.log(message, level)] *)
Definition log (message level : string) : M unit := fun w =>
  (Return (), if verbose self then print ("[" +:+ level +:+ "] " +:+ message) w else w).

(** The [for pattern in exclude_patterns] loop of [_should_exclude]. *)
Fixpoint exclude_loop (p : path) (path_str : string) (patterns : list string) : bool :=
  match patterns with
  | [] => false
  | pattern :: rest =>
      if fnmatch path_str pattern || fnmatch (name p) pattern then true
      else exclude_loop p path_str rest
  end.

Definition _should_exclude (p : path) (exclude_patterns : option (list string)) : bool :=
  match exclude_patterns with
  | None => false
  | Some [] => false
  | Some patterns => exclude_loop p (str p) patterns
  end.

(** The tail of [_hardlink_file]'s [try] block, from [# Create the hardlink]. *)
Definition create_hardlink (source_file target_file : path) : M bool :=
  when (negb (dry_run self)) (syscall (Link source_file target_file)
                (fun fs => os_link fs source_file target_file));;
  log ("Hardlinked: " +:+ str source_file +:+ " -> " +:+ str target_file) "INFO";;
  modify_stats incr_files_linked;;
  mret true.

(** The [try] block of [_hardlink_file]. *)
Definition hardlink_file_body (source_file target_file : path) (overwrite : bool) : M bool :=
  target_exists ← query (fun fs => path_exists fs target_file);
  if (target_exists : bool) then
    if negb overwrite then
      log ("Target exists, skipping: " +:+ str target_file) "WARN";;
      modify_stats incr_skipped;;
      mret true
    else
      same ← call (fun fs => os_samefile fs source_file target_file);
      if (same : bool) then
        log ("Already hardlinked: " +:+ str target_file) "INFO";;
        modify_stats incr_skipped;;
        mret true
      else
        when (negb (dry_run self)) (syscall (Unlink target_file) (fun fs => os_unlink fs target_file));;
        log ("Removed existing file: " +:+ str target_file) "INFO";;
        create_hardlink source_file target_file
  else create_hardlink source_file target_file.

Definition _hardlink_file (source_file target_file : path) (overwrite : bool) : M bool :=
  try_except (hardlink_file_body source_file target_file overwrite)
    (fun e =>
       match e with
       | OSError errno _ _ =>
           (if bool_decide (errno = 18%Z) then
              log ("Cannot hardlink across filesystems: " +:+ str source_file
                   +:+ " -> " +:+ str target_file) "ERROR"
            else
              log ("Error hardlinking " +:+ str source_file +:+ ": " +:+ str_exn e) "ERROR");;
           modify_stats incr_errors;;
           mret false
       | _ =>
           log ("Unexpected error hardlinking " +:+ str source_file +:+ ": " +:+ str_exn e)
               "ERROR";;
           modify_stats incr_errors;;
           mret false
       end).

(** The [if not target.exists():] block, which [hardlink_directory] runs for
    the target root ("Created target directory: ") and the loop of
    [_hardlink_recursive] for every subdirectory ("Created directory: "). *)
Definition ensure_dir (created : string) (target : path) : M unit :=
  target_exists ← query (fun fs => path_exists fs target);
  when (negb (target_exists : bool))
    (when (negb (dry_run self)) (syscall (Mkdir target) (fun fs => mkdir_parents fs target));;
     log (created +:+ str target) "INFO";;
     modify_stats incr_dirs_created).

Section Walk.

Variables (overwrite : bool) (exclude_patterns : option (list string)).

(** The [for item in source.iterdir()] loop of [_hardlink_recursive];
    [recurse] is the recursive call and [success] the local variable. *)
Fixpoint walk_items (recurse : path → path → M bool) (source target : path)
    (items : list string) (success : bool) : M bool :=
  match items with
  | [] => mret success
  | item_name :: rest =>
      let item := source // item_name in
      if _should_exclude item exclude_patterns then
        log ("Excluding: " +:+ str item) "INFO";;
        modify_stats incr_skipped;;
        walk_items recurse source target rest success
      else
        let target_item := target // name item in
        item_is_file ← query (fun fs => is_file fs item);
        if (item_is_file : bool) then
          ok ← _hardlink_file item target_item overwrite;
          walk_items recurse source target rest (success && ok)
        else
          item_is_dir ← query (fun fs => is_dir fs item);
          if (item_is_dir : bool) then
            ensure_dir "Created directory: " target_item;;
            ok ← recurse item target_item;
            walk_items recurse source target rest (success && ok)
          else
            log ("Skipping special file: " +:+ str item) "WARN";;
            modify_stats incr_skipped;;
            walk_items recurse source target rest success
  end.

(** [_hardlink_recursive].  [depth] is what is left of the interpreter's
    recursion limit: a call that would nest deeper raises [RecursionError]
    at the call site, inside the caller's [try]. *)
Fixpoint _hardlink_recursive (depth : nat) (source target : path) : M bool :=
  match depth with
  | 0 => raise RecursionError
  | S depth' =>
      try_except
        (items ← call (fun fs => os_iterdir fs source);
         walk_items (_hardlink_recursive depth') source target items true)
        (fun e =>
           (if is_PermissionError e then log ("Permission denied: " +:+ str_exn e) "ERROR"
            else log ("Unexpected error: " +:+ str_exn e) "ERROR");;
           modify_stats incr_errors;;
           mret false)
  end.

(** [hardlink_directory] *)
Definition hardlink_directory (depth : nat) (source target : path) : M bool :=
  source_exists ← query (fun fs => path_exists fs source);
  if negb (source_exists : bool) then
    log ("Source directory does not exist: " +:+ str source) "ERROR";;
    mret false
  else
    source_is_dir ← query (fun fs => is_dir fs source);
    if negb (source_is_dir : bool) then
      log ("Source is not a directory: " +:+ str source) "ERROR";;
      mret false
    else
      ensure_dir "Created target directory: " target;;
      try_except (_hardlink_recursive depth source target)
        (fun e =>
           log ("Error during hardlinking: " +:+ str_exn e) "ERROR";;
           mret false).

End Walk.
End Engine.

(** [__init__]: the flags are kept and the four counters start at zero. *)
Definition __init__ (verbose dry_run : bool) : M DirectoryHardlinker := fun w =>
  (Return (Hardlinker verbose dry_run), set_stats (fun _ => stats0) w).

(** [print(line)] *)
Definition print_line (line : string) : M unit := fun w => (Return (), print line w).

(** Reading [self.stats]. *)
Definition get_stats : M Stats := fun w => (Return (stats w), w).

(** The line feed of ["\nOperation Summary:"]. *)
Definition newline : string := String "010"%char EmptyString.

(** [print_stats] *)
Definition print_stats : M unit :=
  s ← get_stats;
  print_line (newline +:+ "Operation Summary:");;
  print_line ("  Files hardlinked: " +:+ pretty (files_linked s));;
  print_line ("  Directories created: " +:+ pretty (dirs_created s));;
  print_line ("  Files skipped: " +:+ pretty (skipped s));;
  print_line ("  Errors: " +:+ pretty (errors s)).

(** ** The command line ([mklndir/cli.py])

    [main] is modelled from the parsed arguments on: [create_parser] and
    [parse_args] are [argparse], and what they return is the [Namespace]
    below.  The process has the world of the engine and the lines written
    to the standard error stream. *)

Module Namespace.
Record t := Args {
  source : path;
  target : path;
  verbose : bool;
  dry_run : bool;
  overwrite : bool;
  exclude : option (list string);
  stats : bool
}.
End Namespace.

Record Process := MkProcess {
  world : World;
  stderr : list string
}.

Definition P (A : Type) : Type := Process → outcome A * Process.

Global Instance P_ret : MRet P := fun A a p => (Return a, p).
Global Instance P_bind : MBind P := fun A B f m p =>
  match m p with
  | (Return a, p') => f a p'
  | (Raise e, p') => (Raise e, p')
  end.

(** A computation of the engine, run inside the process. *)
Definition lift {A} (m : M A) : P A := fun p =>
  ((m (world p)).1, MkProcess (m (world p)).2 (stderr p)).

(** [print(line, file=sys.stderr)] *)
Definition eprint (line : string) : P unit := fun p =>
  (Return (), MkProcess (world p) (stderr p ++ [line])).

(** [try: m  except ...: handler e] *)
Definition catch {A} (m : P A) (handler : exn → P A) : P A := fun p =>
  match m p with
  | (Return a, p') => (Return a, p')
  | (Raise e, p') => handler e p'
  end.

(** [validate_arguments] *)
Definition validate_arguments (args : Namespace.t) : M (option string) :=
  source_exists ← query (fun fs => path_exists fs (Namespace.source args));
  if negb (source_exists : bool) then
    mret (Some ("Source directory does not exist: " +:+ str (Namespace.source args)))
  else
    source_is_dir ← query (fun fs => is_dir fs (Namespace.source args));
    if negb (source_is_dir : bool) then
      mret (Some ("Source is not a directory: " +:+ str (Namespace.source args)))
    else
      target_exists ← query (fun fs => path_exists fs (Namespace.target args));
      if (target_exists : bool) then
        target_is_dir ← query (fun fs => is_dir fs (Namespace.target args));
        if negb (target_is_dir : bool) then
          mret (Some ("Target exists but is not a directory: "
                      +:+ str (Namespace.target args)))
        else mret None
      else mret None.

(** [Path.stat()] *)
Definition path_stat (fs : FS) (p : path) : outcome stat_result :=
  match os_stat fs p with
  | Some s => Return s
  | None => Raise (OSError ENOENT p None)
  end.

(** The two lines that [check_filesystem_compatibility] prints in either
    branch. *)
Definition warn_different_filesystems : P unit :=
  eprint "Warning: Source and target appear to be on different filesystems.";;
  eprint "Hardlinks cannot be created across filesystems.".

(** [check_filesystem_compatibility]; of the two exceptions it swallows,
    [AttributeError] cannot arise here. *)
Definition check_filesystem_compatibility (source target : path) : P unit :=
  catch
    (source_stat ← lift (call (fun fs => path_stat fs source));
     target_exists ← lift (query (fun fs => path_exists fs target));
     if (target_exists : bool) then
       target_stat ← lift (call (fun fs => path_stat fs target));
       if negb (bool_decide (st_dev source_stat = st_dev target_stat)) then
         warn_different_filesystems
       else mret ()
     else
       parent_stat ← lift (call (fun fs => path_stat fs (parent target)));
       if negb (bool_decide (st_dev source_stat = st_dev parent_stat)) then
         warn_different_filesystems
       else mret ())
    (fun e =>
       match e with
       | OSError _ _ _ => mret ()
       | _ => fun p => (Raise e, p)
       end).

Section Main.

Variable fnmatch : string → string → bool.

(** [main], from [# Validate arguments] on; the result is the exit code.
    [if error_msg:] holds for a message that is not empty. *)
Definition main (depth : nat) (args : Namespace.t) : P Z :=
  error_msg ← lift (validate_arguments args);
  match error_msg with
  | Some (String _ _ as msg) =>
      eprint ("Error: " +:+ msg);;
      mret 1%Z
  | _ =>
      check_filesystem_compatibility (Namespace.source args) (Namespace.target args);;
      hardlinker ← lift (__init__ (Namespace.verbose args) (Namespace.dry_run args));
      (if Namespace.dry_run args then
         lift (print_line ("DRY RUN MODE - No actual changes will be made" +:+ newline))
       else mret ());;
      success ← lift (hardlink_directory fnmatch hardlinker (Namespace.overwrite args)
                        (Namespace.exclude args) depth
                        (Namespace.source args) (Namespace.target args));
      (if Namespace.stats args || Namespace.verbose args then lift print_stats else mret ());;
      if negb (success : bool) then
        eprint "Operation completed with errors.";;
        mret 1%Z
      else
        s ← lift get_stats;
        if bool_decide (0 < errors s) then
          eprint "Operation completed but some errors occurred.";;
          mret 1%Z
        else
          (if negb (Namespace.dry_run args) then
             lift (print_line "Directory hardlinking completed successfully!")
           else mret ());;
          mret 0%Z
  end.

End Main.

(** * Specification vocabulary *)

(** What [self.log] does to the world. *)
Definition log_world (self : DirectoryHardlinker) (message level : string) (w : World) : World :=
  if verbose self then print ("[" +:+ level +:+ "] " +:+ message) w else w.
Global Arguments log_world : simpl never.
Global Arguments str : simpl never.
Global Arguments mkdir_parents : simpl never.
Global Arguments os_link : simpl never.
Global Arguments os_unlink : simpl never.
Global Arguments os_samefile : simpl never.
Global Arguments os_iterdir : simpl never.

(** [wp m Q w]: running [m] from [w] ends in an outcome and a world that
    satisfy [Q]. *)
Definition wp {A} (m : M A) (Q : outcome A → World → Prop) (w : World) : Prop :=
  Q (m w).1 (m w).2.

(** The four counters grew from [w] to [w'] by exactly these amounts. *)
Definition counted (w w' : World) (linked created failed skip : nat) : Prop :=
  files_linked (stats w') = files_linked (stats w) + linked ∧
  dirs_created (stats w') = dirs_created (stats w) + created ∧
  errors (stats w') = errors (stats w) + failed ∧
  skipped (stats w') = skipped (stats w) + skip.

(** ** The policy table of the single-file operation, as the specification
    words it: the state of the target, and what is to happen to it. *)

Inductive target_state := Absent | SameIdentity | DifferentIdentity.
Inductive file_outcome := Linked | Skipped.

Definition policy (t : target_state) (overwrite : bool) : file_outcome :=
  match t, overwrite with
  | Absent, _ => Linked
  | SameIdentity, _ => Skipped
  | DifferentIdentity, false => Skipped
  | DifferentIdentity, true => Linked
  end.

(** The state of the target of a source file, read off the file system. *)
Definition classify (fs : FS) (source_file target_file : path) : option target_state :=
  match os_stat fs target_file with
  | None => Some Absent
  | Some t =>
      match os_stat fs source_file with
      | None => None
      | Some s =>
          Some (if bool_decide (st_dev s = st_dev t) && bool_decide (st_ino s = st_ino t)
                then SameIdentity else DifferentIdentity)
      end
  end.

(** The calls the policy table asks of a real run. *)
Definition policy_calls (t : target_state) (overwrite : bool)
    (source_file target_file : path) : list fs_call :=
  match policy t overwrite with
  | Skipped => []
  | Linked =>
      match t with
      | DifferentIdentity => [Unlink target_file; Link source_file target_file]
      | _ => [Link source_file target_file]
      end
  end.

(** The file system on which a real run calls [os.link]: the given one when
    the target is absent, the one left by [unlink] when an existing target of
    another identity is overwritten; none when the file is skipped or the
    call is never reached. *)
Definition link_attempt (fs : FS) (source_file target_file : path) (overwrite : bool)
    : option FS :=
  if path_exists fs target_file then
    if overwrite then
      match os_samefile fs source_file target_file with
      | Return false =>
          match os_unlink fs target_file with
          | Return fs1 => Some fs1
          | Raise _ => None
          end
      | _ => None
      end
    else None
  else Some fs.

(** A computation that leaves the file system alone: it changes nothing
    and calls none of the primitives that could. *)
Definition leaves_alone {A} (m : M A) : Prop :=
  ∀ w, wp m (fun _ w' => disk w' = disk w ∧ calls w' = calls w) w.

(** ** What one call of [_hardlink_file] comes to

    The decision of the [try] block and its effect on the file system, without
    the bookkeeping: the file is linked, skipped, or an exception is caught. *)

Inductive file_event :=
| FileLinked
| FileSkipped
| FileFailed (e : exn).

Definition file_step (dry : bool) (fs : FS) (source_file target_file : path)
    (overwrite : bool) : file_event * FS :=
  let link fs0 :=
    if dry then (FileLinked, fs0)
    else match os_link fs0 source_file target_file with
         | Return fs2 => (FileLinked, fs2)
         | Raise e => (FileFailed e, fs0)
         end in
  if path_exists fs target_file then
    if overwrite then
      match os_samefile fs source_file target_file with
      | Return true => (FileSkipped, fs)
      | Return false =>
          if dry then link fs
          else match os_unlink fs target_file with
               | Return fs1 => link fs1
               | Raise e => (FileFailed e, fs)
               end
      | Raise e => (FileFailed e, fs)
      end
    else (FileSkipped, fs)
  else link fs.

(** The calls [_hardlink_file] makes into [unlink] and [link]. *)
Definition file_calls (dry : bool) (fs : FS) (source_file target_file : path)
    (overwrite : bool) : list fs_call :=
  if dry then []
  else if path_exists fs target_file then
    if overwrite then
      match os_samefile fs source_file target_file with
      | Return false =>
          Unlink target_file ::
          match os_unlink fs target_file with
          | Return _ => [Link source_file target_file]
          | Raise _ => []
          end
      | _ => []
      end
    else []
  else [Link source_file target_file].

Definition event_ok (ev : file_event) : bool :=
  match ev with
  | FileFailed _ => false
  | _ => true
  end.

Definition event_stats (ev : file_event) : Stats → Stats :=
  match ev with
  | FileLinked => incr_files_linked
  | FileSkipped => incr_skipped
  | FileFailed _ => incr_errors
  end.

Definition event_of (o : file_outcome) : file_event :=
  match o with
  | Linked => FileLinked
  | Skipped => FileSkipped
  end.

(** The outcome of a walk step keeps the error counter and the result in
    step: [errors] never decreases, and the step returns [True] exactly when
    [success] was [True] on entry and no error was recorded. *)
Definition tracks_errors (w : World) (success : bool) (o : outcome bool) (w' : World) : Prop :=
  errors (stats w) ≤ errors (stats w') ∧
  match o with
  | Return ok => ok = true ↔ success = true ∧ errors (stats w') = errors (stats w)
  | Raise _ => True
  end.

(** ** Regions of the file system *)

(** [q] lies strictly below [p]. *)
Definition under (p q : path) : Prop := p `suffix_of` q ∧ q ≠ p.

(** Neither path contains the other. *)
Definition disjoint_paths (s t : path) : Prop :=
  ¬ s `suffix_of` t ∧ ¬ t `suffix_of` s.

(** [fs'] differs from [fs] at most in the entries whose path satisfies [P]:
    every other path has the same [stat], and every directory none of whose
    entries satisfies [P] lists the same names in the same order. *)
Definition agrees_outside (P : path → Prop) (fs fs' : FS) : Prop :=
  (∀ q, ¬ P q → os_stat fs' q = os_stat fs q) ∧
  (∀ p, (∀ n, ¬ P (n :: p)) → listdir fs' p = listdir fs p).

(** What the loop over [items] of a walk from [source] into [target] can
    see of the file system: the source tree, and the targets of the items.
    [same_view_items source target items fs fs'] says [fs] and [fs'] look
    the same there. *)
Definition same_view_items (source target : path) (items : list string) (fs fs' : FS) : Prop :=
  (∀ q, source `suffix_of` q → os_stat fs' q = os_stat fs q) ∧
  (∀ p, source `suffix_of` p → listdir fs' p = listdir fs p) ∧
  (∀ n q, n ∈ items → (target // n) `suffix_of` q → os_stat fs' q = os_stat fs q).

(** The same for a whole walk: the source tree and everything below the
    target. *)
Definition same_view (source target : path) (fs fs' : FS) : Prop :=
  (∀ q, source `suffix_of` q → os_stat fs' q = os_stat fs q) ∧
  (∀ p, source `suffix_of` p → listdir fs' p = listdir fs p) ∧
  (∀ q, under target q → os_stat fs' q = os_stat fs q).

(** Two runs, from [w1] to [w1'] and from [w2] to [w2'], added the same
    amounts to each of the four counters. *)
Definition same_counts (w1 w1' w2 w2' : World) : Prop :=
  files_linked (stats w1') + files_linked (stats w2)
    = files_linked (stats w2') + files_linked (stats w1) ∧
  dirs_created (stats w1') + dirs_created (stats w2)
    = dirs_created (stats w2') + dirs_created (stats w1) ∧
  errors (stats w1') + errors (stats w2) = errors (stats w2') + errors (stats w1) ∧
  skipped (stats w1') + skipped (stats w2) = skipped (stats w2') + skipped (stats w1).

(** [q] lies at or below the target of one of the [items]. *)
Definition below_items (target : path) (items : list string) (q : path) : Prop :=
  ∃ m, m ∈ items ∧ (target // m) `suffix_of` q.

(** The listings of the source tree have no name twice. *)
Definition source_listings_nodup (source : path) (fs : FS) : Prop :=
  ∀ p, source `suffix_of` p → NoDup (listdir fs p).

(** A second run, from [w2] to [w2'], after a first from [w1] to [w1']:
    it links nothing, creates nothing, fails nowhere, skips what the first
    run linked or skipped, and calls none of [mkdir], [link] and [unlink]. *)
Definition second_counts (w1 w1' w2 w2' : World) : Prop :=
  files_linked (stats w2') = files_linked (stats w2) ∧
  dirs_created (stats w2') = dirs_created (stats w2) ∧
  errors (stats w2') = errors (stats w2) ∧
  skipped (stats w2') + files_linked (stats w1) + skipped (stats w1)
    = skipped (stats w2) + files_linked (stats w1') + skipped (stats w1') ∧
  calls w2' = calls w2.

(** ** Further vocabulary *)

(** No counter is smaller in [s'] than in [s]. *)
Definition stats_le (s s' : Stats) : Prop :=
  files_linked s ≤ files_linked s' ∧ dirs_created s ≤ dirs_created s' ∧
  errors s ≤ errors s' ∧ skipped s ≤ skipped s'.

(** The computation ended with an exception. *)
Definition raised {A} (o : outcome A) : bool :=
  match o with
  | Raise _ => true
  | Return _ => false
  end.

(** Every entry of [fs] that is a directory, and every entry whatsoever
    when [overwrite] is off, is in [fs'] with the same [stat]. *)
Definition kept (overwrite : bool) (fs fs' : FS) : Prop :=
  ∀ q s, os_stat fs q = Some s → overwrite = false ∨ st_kind s = Directory →
         os_stat fs' q = Some s.

Definition is_link (c : fs_call) : bool :=
  match c with Link _ _ => true | _ => false end.
Definition is_unlink (c : fs_call) : bool :=
  match c with Unlink _ => true | _ => false end.
Definition is_mkdir (c : fs_call) : bool :=
  match c with Mkdir _ => true | _ => false end.

(** How many of the calls recorded in [w] are of the kind [f]. *)
Definition count_calls (f : fs_call → bool) (w : World) : nat :=
  length (filter (fun c => f c = true) (calls w)).

(** The calls and the counters of a real run, from [w] to [w']: every file
    counted as linked was linked by a call of [link], every directory counted
    as created by a call of [mkdir], and a call beyond these is matched by a
    counted error or, for [mkdir], by the exception that ended the piece. *)
Definition calls_accounted (raised : bool) (w w' : World) : Prop :=
  files_linked (stats w') + count_calls is_link w
    ≤ count_calls is_link w' + files_linked (stats w) ∧
  count_calls is_link w' + files_linked (stats w) + errors (stats w)
    ≤ count_calls is_link w + files_linked (stats w') + errors (stats w') ∧
  dirs_created (stats w') + count_calls is_mkdir w
    ≤ count_calls is_mkdir w' + dirs_created (stats w) ∧
  count_calls is_mkdir w' + dirs_created (stats w) + errors (stats w)
    ≤ count_calls is_mkdir w + dirs_created (stats w') + errors (stats w')
      + (if raised then 1 else 0) ∧
  count_calls is_unlink w' + files_linked (stats w) + errors (stats w)
    ≤ count_calls is_unlink w + files_linked (stats w') + errors (stats w').

(** The world without what was printed. *)
Definition mute (w : World) : World := MkWorld (stats w) (disk w) [] (calls w).

(** [m2] does what [m1] does, printing aside. *)
Definition same_but_printing {A} (m1 m2 : M A) : Prop :=
  ∀ w, (m2 (mute w)).1 = (m1 w).1 ∧ (m2 (mute w)).2 = mute (m1 w).2.

(** The pairs of a source directory and its target directory that a walk
    from [source] into [target] enters: the pair it starts from, and below a
    pair it enters, every listed subdirectory that is not excluded. *)
Inductive walked (fnmatch : string → string → bool) (exclude_patterns : option (list string))
    (fs : FS) : path → path → path → path → Prop :=
| walked_here source target : walked fnmatch exclude_patterns fs source target source target
| walked_down source target n s t :
    n ∈ listdir fs source →
    _should_exclude fnmatch (source // n) exclude_patterns = false →
    is_dir fs (source // n) = true →
    walked fnmatch exclude_patterns fs (source // n) (target // n) s t →
    walked fnmatch exclude_patterns fs source target s t.

(** The target of a source file is in place: it exists, and when the run
    had [overwrite], or found no target there ([fresh]), it is the source
    file itself under a second name. *)
Definition mirrored (overwrite fresh : bool) (fs : FS) (src tgt : path) : Prop :=
  path_exists fs tgt = true ∧
  (overwrite = true ∨ fresh = true → os_samefile fs src tgt = Return true).

(** [fs'] holds a mirror of the tree that [fs] has at [source]: every
    directory a walk enters has its target, and every regular file listed in
    one, and not excluded, is mirrored. *)
Definition mirror_of (fnmatch : string → string → bool) (exclude_patterns : option (list string))
    (overwrite : bool) (source target : path) (fs fs' : FS) : Prop :=
  ∀ s t, walked fnmatch exclude_patterns fs source target s t →
    path_exists fs' t = true ∧
    ∀ n, n ∈ listdir fs s →
         _should_exclude fnmatch (s // n) exclude_patterns = false →
         is_file fs (s // n) = true →
         mirrored overwrite (negb (path_exists fs (t // n))) fs' (s // n) (t // n).

(** A piece of a run that made no call, changed nothing in the file system,
    linked no file and created no directory. *)
Definition untouched (w w' : World) : Prop :=
  disk w' = disk w ∧ calls w' = calls w ∧
  files_linked (stats w') = files_linked (stats w) ∧
  dirs_created (stats w') = dirs_created (stats w).

(** What [check_filesystem_compatibility] writes when it warns. *)
Definition different_filesystems_warning : list string :=
  ["Warning: Source and target appear to be on different filesystems.";
   "Hardlinks cannot be created across filesystems."].

(** The directory whose device is compared with the source's: the target,
    or its parent while the target is not there. *)
Definition compared_directory (fs : FS) (target : path) : path :=
  if path_exists fs target then target else parent target.

Definition devices_differ (fs : FS) (source target : path) : bool :=
  match os_stat fs source, os_stat fs (compared_directory fs target) with
  | Some s, Some d => negb (bool_decide (st_dev s = st_dev d))
  | _, _ => false
  end.

(** What a successful [_hardlink_file] logs, as message and level: the
    lines of the branch that the existence of the target, [overwrite] and
    [samefile] select. *)
Definition success_lines (fs : FS) (source_file target_file : path) (overwrite : bool)
    : list (string * string) :=
  let hardlinked :=
    ("Hardlinked: " +:+ str source_file +:+ " -> " +:+ str target_file, "INFO") in
  if path_exists fs target_file then
    if negb overwrite then [("Target exists, skipping: " +:+ str target_file, "WARN")]
    else
      match os_samefile fs source_file target_file with
      | Return true => [("Already hardlinked: " +:+ str target_file, "INFO")]
      | _ => [("Removed existing file: " +:+ str target_file, "INFO"); hardlinked]
      end
  else [hardlinked].

(** The lines as [self.log] prints them. *)
Definition logged (self : DirectoryHardlinker) (lines : list (string * string)) : list string :=
  if verbose self then (fun l => "[" +:+ l.2 +:+ "] " +:+ l.1) <$> lines else [].

(** Two runs, from [w1] to [w1'] and from [w2] to [w2'], printed the same
    lines. *)
Definition same_output (w1 w1' w2 w2' : World) : Prop :=
  ∃ lines, stdout w1' = stdout w1 ++ lines ∧ stdout w2' = stdout w2 ++ lines.

(** ** Example file systems *)

Definition dir_stat (dev ino : Z) : stat_result := Stat Directory dev ino true true.
Definition file_stat (dev ino : Z) : stat_result := Stat Reg dev ino true true.

(** A source tree [/s] with two files, a subdirectory and a FIFO; no
    target yet. *)
Definition fs_tree : FS :=
  [ ([], dir_stat 1 1);
    (["s"], dir_stat 1 2);
    (["a.txt"; "s"], file_stat 1 3);
    (["b.tmp"; "s"], file_stat 1 4);
    (["sub"; "s"], dir_stat 1 5);
    (["c.txt"; "sub"; "s"], file_stat 1 6);
    (["fifo"; "s"], Stat Other 1 7 true true) ].

(** The target directory [/t] is a mount point of another device. *)
Definition fs_two_devices : FS :=
  [ ([], dir_stat 1 1);
    (["s"], dir_stat 1 2);
    (["a"; "s"], file_stat 1 3);
    (["b"; "s"], file_stat 1 4);
    (["t"], dir_stat 2 1) ].

(** The target already holds another file under the name [a]. *)
Definition fs_conflict : FS :=
  [ ([], dir_stat 1 1);
    (["s"], dir_stat 1 2);
    (["a"; "s"], file_stat 1 3);
    (["t"], dir_stat 1 4);
    (["a"; "t"], file_stat 1 5) ].

(** [/s/d] holds a directory [e] and a FIFO [p], listed in this order, and
    the target has a regular file where the directory [d] should go. *)
Definition fs_blocked : FS :=
  [ ([], dir_stat 1 1);
    (["s"], dir_stat 1 2);
    (["d"; "s"], dir_stat 1 3);
    (["e"; "d"; "s"], dir_stat 1 4);
    (["p"; "d"; "s"], Stat Other 1 5 true true);
    (["t"], dir_stat 1 6);
    (["d"; "t"], file_stat 1 7) ].

(** The same, with [p] listed before [e]. *)
Definition fs_blocked_swapped : FS :=
  [ ([], dir_stat 1 1);
    (["s"], dir_stat 1 2);
    (["d"; "s"], dir_stat 1 3);
    (["p"; "d"; "s"], Stat Other 1 5 true true);
    (["e"; "d"; "s"], dir_stat 1 4);
    (["t"], dir_stat 1 6);
    (["d"; "t"], file_stat 1 7) ].

(** The target is to be created inside [/ro], which is not writable. *)
Definition fs_readonly : FS :=
  [ ([], dir_stat 1 1);
    (["s"], dir_stat 1 2);
    (["a"; "s"], file_stat 1 3);
    (["ro"], Stat Directory 1 4 true false) ].

(** The tree [/s] with its file [a] linked into [/t] already. *)
Definition fs_linked : FS :=
  [ ([], dir_stat 1 1);
    (["s"], dir_stat 1 2);
    (["a"; "s"], file_stat 1 3);
    (["t"], dir_stat 1 4);
    (["a"; "t"], file_stat 1 3) ].

(** [mklndir /s /t --verbose --stats --exclude "*.tmp"] *)
Definition args_tree : Namespace.t :=
  Namespace.Args ["s"] ["t"] true false false (Some ["*.tmp"]) true.

(** [mklndir /s /t --dry-run] *)
Definition args_dry : Namespace.t :=
  Namespace.Args ["s"] ["t"] false true false None false.

(** [mklndir /nowhere /t] *)
Definition args_nowhere : Namespace.t :=
  Namespace.Args ["nowhere"] ["t"] false false false None false.

(** [mklndir /s /ro/t] *)
Definition args_readonly : Namespace.t :=
  Namespace.Args ["s"] ["t"; "ro"] false false false None false.

Definition real_run : DirectoryHardlinker := Hardlinker true false.
Definition dry_run_only : DirectoryHardlinker := Hardlinker true true.
Definition quiet_run : DirectoryHardlinker := Hardlinker false false.

(** The world a real run leaves of [fs_tree]. *)
Definition tree_mirrored : World :=
  (hardlink_directory glob_match real_run false None 10 ["s"] ["t"] (init fs_tree)).2.

Global Instance disjoint_paths_dec s t : Decision (disjoint_paths s t).
Proof. unfold disjoint_paths. apply _. Defined.

(** * Properties *)

(** ** Rules for computations *)

Lemma stats_log_world self m l w : stats (log_world self m l w) = stats w.
Proof. unfold log_world. by destruct (verbose self). Qed.

Lemma disk_log_world self m l w : disk (log_world self m l w) = disk w.
Proof. unfold log_world. by destruct (verbose self). Qed.

Lemma calls_log_world self m l w : calls (log_world self m l w) = calls w.
Proof. unfold log_world. by destruct (verbose self). Qed.

Ltac world_simpl :=
  repeat (progress (simpl; rewrite ?stats_log_world, ?disk_log_world, ?calls_log_world));
  simpl.

Lemma wp_mono {A} (m : M A) (Q Q' : outcome A → World → Prop) w :
  wp m Q w → (∀ o w', Q o w' → Q' o w') → wp m Q' w.
Proof. unfold wp. auto. Qed.

Lemma wp_elim {A} (m : M A) Q w : wp m Q w → ∀ o w', m w = (o, w') → Q o w'.
Proof. unfold wp. intros H o w' E. by rewrite E in H. Qed.

Lemma wp_intro {A} (m : M A) (Q : outcome A → World → Prop) w :
  (∀ o w', m w = (o, w') → Q o w') → wp m Q w.
Proof. unfold wp. intros H. apply H. by destruct (m w). Qed.

Lemma wp_ret {A} (a : A) Q w : Q (Return a) w → wp (mret a) Q w.
Proof. done. Qed.

Lemma wp_bind {A B} (m : M A) (f : A → M B) Q w :
  wp m (fun o w' => match o with
                    | Return a => wp (f a) Q w'
                    | Raise e => Q (Raise e) w'
                    end) w →
  wp (m ≫= f) Q w.
Proof. unfold wp, mbind, M_bind. by destruct (m w) as [[a|e] w']. Qed.

Lemma wp_try_except {A} (m : M A) h Q w :
  wp m (fun o w' => match o with
                    | Return a => Q (Return a) w'
                    | Raise e => wp (h e) Q w'
                    end) w →
  wp (try_except m h) Q w.
Proof. unfold wp, try_except. by destruct (m w) as [[a|e] w']. Qed.

Lemma wp_raise {A} e (Q : outcome A → World → Prop) w : Q (Raise e) w → wp (raise e) Q w.
Proof. done. Qed.

Lemma wp_query {A} (f : FS → A) Q w : Q (Return (f (disk w))) w → wp (query f) Q w.
Proof. done. Qed.

Lemma wp_call {A} (f : FS → outcome A) Q w : Q (f (disk w)) w → wp (call f) Q w.
Proof. unfold wp, call. by destruct (f (disk w)). Qed.

Lemma wp_syscall c f (Q : outcome unit → World → Prop) w :
  match f (disk w) with
  | Return fs' => Q (Return ()) (set_disk fs' (note_call c w))
  | Raise e => Q (Raise e) (note_call c w)
  end →
  wp (syscall c f) Q w.
Proof. unfold wp, syscall. by destruct (f (disk w)). Qed.

Lemma wp_modify_stats f (Q : outcome unit → World → Prop) w :
  Q (Return ()) (set_stats f w) → wp (modify_stats f) Q w.
Proof. done. Qed.

Lemma wp_log self (m l : string) (Q : outcome unit → World → Prop) w :
  Q (Return ()) (log_world self m l w) → wp (log self m l) Q w.
Proof. done. Qed.

Lemma wp_when (b : bool) (m : M unit) (Q : outcome unit → World → Prop) w :
  (if b then wp m Q w else Q (Return ()) w) → wp (when b m) Q w.
Proof. by destruct b. Qed.

Ltac wp_step :=
  lazymatch goal with
  | |- wp (_ ≫= _) _ _ => apply wp_bind
  | |- wp (mret _) _ _ => apply wp_ret
  | |- wp (try_except _ _) _ _ => apply wp_try_except
  | |- wp (raise _) _ _ => apply wp_raise
  | |- wp (query _) _ _ => apply wp_query
  | |- wp (call _) _ _ => apply wp_call
  | |- wp (syscall _ _) _ _ => apply wp_syscall
  | |- wp (modify_stats _) _ _ => apply wp_modify_stats
  | |- wp (log _ _ _) _ _ => apply wp_log
  | |- wp (when _ _) _ _ => apply wp_when
  end.

Ltac wp_case :=
  match goal with
  | |- context [match ?x with _ => _ end] => destruct x eqn:?
  end.

Ltac wp_auto := repeat (first [wp_step | progress simpl | wp_case]).

(** From a [wp] to the equation of the run. *)
Lemma wp_returns {A} (m : M A) (R : A → World → Prop) w :
  wp m (fun o w' => ∃ a, o = Return a ∧ R a w') w →
  ∃ a w', m w = (Return a, w') ∧ R a w'.
Proof.
  unfold wp. destruct (m w) as [o w']. simpl. intros (a & -> & H). eauto.
Qed.

(** ** The single-file operation *)

(** Every call returns, and moves exactly one of [files_linked], [skipped]
    and [errors] by one. *)
Lemma hardlink_file_counted self src tgt ow w :
  ∃ ok w', _hardlink_file self src tgt ow w = (Return ok, w') ∧
    (ok = true ∧ (counted w w' 1 0 0 0 ∨ counted w w' 0 0 0 1)
     ∨ ok = false ∧ counted w w' 0 0 1 0).
Proof.
  apply wp_returns.
  unfold _hardlink_file, hardlink_file_body, create_hardlink.
  wp_auto.
  all: eexists; split; [reflexivity|].
  all: unfold counted; world_simpl.
  all: try (left; split; [done|]; first [left; lia | right; lia]).
  all: try (right; split; [done|lia]).
Qed.


Lemma hardlink_file_returns self src tgt ow w :
  ∃ ok w', _hardlink_file self src tgt ow w = (Return ok, w').
Proof. destruct (hardlink_file_counted self src tgt ow w) as (ok & w' & ? & _). eauto. Qed.


(** ** Exclusion *)

Lemma exclude_loop_spec fnmatch p s patterns :
  exclude_loop fnmatch p s patterns = true ↔
  ∃ pattern, pattern ∈ patterns ∧
    (fnmatch s pattern = true ∨ fnmatch (name p) pattern = true).
Proof.
  induction patterns as [|pat rest IH]; simpl.
  - split; [done|]. intros (? & H & _). by apply elem_of_nil in H.
  - destruct (fnmatch s pat || fnmatch (name p) pat) eqn:E.
    + split; [|done]. intros _. exists pat. split; [left|].
      by apply orb_true_iff in E.
    + rewrite IH. apply orb_false_iff in E as [E1 E2]. split.
      * intros (q & ? & ?). exists q. split; [by right|done].
      * intros (q & Hq & Hm). apply elem_of_cons in Hq as [->|Hq].
        -- destruct Hm; congruence.
        -- eauto.
Qed.


(** ** Dry run *)

Ltac leave_alone_finish :=
  world_simpl;
  repeat match goal with H : _ ∧ _ |- _ => destruct H end;
  try (split; congruence).

Lemma dry_hardlink_file_leaves_alone self src tgt ow :
  dry_run self = true → leaves_alone (_hardlink_file self src tgt ow).
Proof.
  intros Hdry w.
  unfold _hardlink_file, hardlink_file_body, create_hardlink. rewrite Hdry.
  wp_auto; leave_alone_finish.
Qed.

Lemma dry_ensure_dir_leaves_alone self created target :
  dry_run self = true → leaves_alone (ensure_dir self created target).
Proof.
  intros Hdry w. unfold ensure_dir. rewrite Hdry.
  wp_auto; leave_alone_finish.
Qed.

Lemma wp_leaves_alone {A} (m : M A) w0 w :
  leaves_alone m →
  disk w = disk w0 ∧ calls w = calls w0 →
  wp m (fun _ w' => disk w' = disk w0 ∧ calls w' = calls w0) w.
Proof. intros Hm [Hd Hc]. eapply wp_mono; [apply Hm|]. simpl. intros _ w' []. split; congruence. Qed.

Lemma dry_walk_items_leaves_alone fnmatch self ow pats recurse source target items success :
  dry_run self = true →
  (∀ s t, leaves_alone (recurse s t)) →
  leaves_alone (walk_items fnmatch self ow pats recurse source target items success).
Proof.
  intros Hdry Hrec. revert success.
  induction items as [|item_name rest IH]; intros success w; cbn [walk_items].
  - by apply wp_ret.
  - destruct (_should_exclude _ _ _).
    { wp_auto. apply wp_leaves_alone; [apply IH|]. leave_alone_finish. }
    apply wp_bind, wp_query. destruct (is_file _ _).
    { apply wp_bind. eapply wp_mono; [by apply dry_hardlink_file_leaves_alone|].
      intros [ok|e] w1 Hw1; [|done]. by apply wp_leaves_alone. }
    apply wp_bind, wp_query. destruct (is_dir _ _).
    + apply wp_bind. eapply wp_mono; [by apply dry_ensure_dir_leaves_alone|].
      intros [[]|e] w1 Hw1; [|done].
      apply wp_bind. eapply wp_mono; [by apply wp_leaves_alone|].
      intros [ok|e] w2 Hw2; [|done]. by apply wp_leaves_alone.
    + wp_auto. apply wp_leaves_alone; [apply IH|]. leave_alone_finish.
Qed.

Lemma dry_hardlink_recursive_leaves_alone fnmatch self ow pats depth source target :
  dry_run self = true →
  leaves_alone (_hardlink_recursive fnmatch self ow pats depth source target).
Proof.
  intros Hdry. revert source target.
  induction depth as [|depth IH]; intros source target w; cbn [_hardlink_recursive].
  - by apply wp_raise.
  - apply wp_try_except, wp_bind, wp_call.
    destruct (os_iterdir _ _) as [items|e].
    + eapply wp_mono; [by apply dry_walk_items_leaves_alone|].
      intros [ok|e] w1 Hw1; [done|]. wp_auto; leave_alone_finish.
    + wp_auto; leave_alone_finish.
Qed.

Lemma dry_hardlink_directory_leaves_alone fnmatch self ow pats depth source target :
  dry_run self = true →
  leaves_alone (hardlink_directory fnmatch self ow pats depth source target).
Proof.
  intros Hdry w. unfold hardlink_directory.
  apply wp_bind, wp_query. destruct (path_exists _ _); simpl; [|wp_auto; leave_alone_finish].
  apply wp_bind, wp_query. destruct (is_dir _ _); simpl; [|wp_auto; leave_alone_finish].
  apply wp_bind. eapply wp_mono; [by apply dry_ensure_dir_leaves_alone|].
  intros [[]|e] w1 Hw1; [|done].
  apply wp_try_except.
  eapply wp_mono;
    [by apply wp_leaves_alone; [apply dry_hardlink_recursive_leaves_alone|]|].
  intros [ok|e] w2 Hw2; [done|]. wp_auto; leave_alone_finish.
Qed.

(** C8: with the dry-run flag set, whatever the tree and the other flags,
    the run makes no call to [mkdir], [link] or [unlink]: no directory is
    created, no link made, no file removed, and the file system after the run
    is the one before it. *)
Theorem dry_run_no_mutation fnmatch self ow pats depth source target w :
  dry_run self = true →
  calls (hardlink_directory fnmatch self ow pats depth source target w).2 = calls w
  ∧ disk (hardlink_directory fnmatch self ow pats depth source target w).2 = disk w.
Proof.
  intros Hdry.
  destruct (dry_hardlink_directory_leaves_alone fnmatch self ow pats depth source target
              Hdry w).
  by split.
Qed.

(** ** The directory table *)

Lemma os_stat_app fs fs' q :
  os_stat (fs ++ fs') q =
  match os_stat fs q with Some s => Some s | None => os_stat fs' q end.
Proof.
  induction fs as [|[p s] fs IH]; simpl; [done|]. by destruct (decide (p = q)).
Qed.

Lemma os_stat_add_entry fs p s q :
  os_stat (add_entry fs p s) q =
  match os_stat fs q with
  | Some x => Some x
  | None => if decide (p = q) then Some s else None
  end.
Proof. unfold add_entry. by rewrite os_stat_app. Qed.

Lemma os_stat_remove_entry fs p q :
  os_stat (remove_entry fs p) q = if decide (q = p) then None else os_stat fs q.
Proof.
  unfold remove_entry. induction fs as [|[r s] fs IH]; simpl.
  - by destruct (decide (q = p)).
  - rewrite filter_cons. simpl. destruct (decide (r ≠ p)) as [Hr|Hr]; simpl.
    + destruct (decide (r = q)) as [->|]; [|done]. by rewrite decide_False.
    + apply dec_stable in Hr as ->. rewrite IH.
      destruct (decide (q = p)) as [->|]; [done|]. by rewrite decide_False.
Qed.

Lemma os_link_Return fs src dst fs' :
  os_link fs src dst = Return fs' →
  ∃ s, os_stat fs src = Some s ∧ os_stat fs dst = None ∧ fs' = add_entry fs dst s.
Proof.
  unfold os_link, path_exists. intros H.
  destruct (os_stat fs src) as [s|]; [|done]. destruct dst as [|n q]; [done|].
  destruct (os_stat fs q) as [d|]; [|done].
  repeat (match type of H with (if ?b then _ else _) = _ => destruct b eqn:? end; try done).
  destruct (os_stat fs (n :: q)); [done|]. exists s. by simplify_eq.
Qed.

Lemma os_unlink_Return fs p fs' :
  os_unlink fs p = Return fs' → fs' = remove_entry fs p.
Proof.
  unfold os_unlink. intros H. destruct (os_stat fs p); [|done].
  repeat (match type of H with (if ?b then _ else _) = _ => destruct b eqn:? end; try done).
  by simplify_eq.
Qed.

(** ** The policy table *)

Lemma wp_returns_value {A} (m : M A) (a : A) (R : World → Prop) w :
  wp m (fun o w' => o = Return a ∧ R w') w →
  ∃ w', m w = (Return a, w') ∧ R w'.
Proof.
  unfold wp. destruct (m w) as [o w']. simpl. intros [-> H]. eauto.
Qed.

Lemma os_samefile_after_link fs src tgt fs' :
  os_link fs src tgt = Return fs' → os_samefile fs' src tgt = Return true.
Proof.
  intros (s & Hs & Hn & ->)%os_link_Return. unfold os_samefile.
  rewrite !os_stat_add_entry, Hs, Hn. rewrite decide_True by done.
  by rewrite !bool_decide_eq_true_2.
Qed.

Lemma hardlink_file_step self src tgt ow w :
  ∃ w', _hardlink_file self src tgt ow w
        = (Return (event_ok (file_step (dry_run self) (disk w) src tgt ow).1), w')
    ∧ disk w' = (file_step (dry_run self) (disk w) src tgt ow).2
    ∧ stats w' = event_stats (file_step (dry_run self) (disk w) src tgt ow).1 (stats w).
Proof.
  apply wp_returns_value.
  unfold _hardlink_file, hardlink_file_body, create_hardlink.
  remember (file_step (dry_run self) (disk w) src tgt ow) as r eqn:Hr.
  destruct ow, (dry_run self); simpl.
  all: wp_auto.
  all: subst r; unfold file_step.
  all: repeat match goal with
       | H : context [disk (log_world _ _ _ _)] |- _ => rewrite disk_log_world in H; simpl in H
       end.
  all: repeat match goal with
       | H : _ = _ |- _ => rewrite H; clear H
       end; world_simpl.
  all: try done.
Qed.

Lemma hardlink_file_calls self src tgt ow w :
  wp (_hardlink_file self src tgt ow)
     (fun _ w' => calls w' = calls w ++ file_calls (dry_run self) (disk w) src tgt ow) w.
Proof.
  unfold _hardlink_file, hardlink_file_body, create_hardlink.
  remember (file_calls (dry_run self) (disk w) src tgt ow) as r eqn:Hr.
  destruct ow, (dry_run self); simpl.
  all: wp_auto.
  all: subst r; unfold file_calls.
  all: repeat match goal with
       | H : context [disk (log_world _ _ _ _)] |- _ => rewrite disk_log_world in H; simpl in H
       end.
  all: repeat match goal with
       | H : _ = _ |- _ => rewrite H; clear H
       end; world_simpl.
  all: rewrite <-?app_assoc, ?app_nil_r; try done.
Qed.

Lemma counted_event ev w w' :
  stats w' = event_stats ev (stats w) →
  match ev with
  | FileLinked => counted w w' 1 0 0 0
  | FileSkipped => counted w w' 0 0 0 1
  | FileFailed _ => counted w w' 0 0 1 0
  end.
Proof. intros H. unfold counted. rewrite H. destruct ev; simpl; lia. Qed.

Lemma file_step_policy dry fs src tgt ow t :
  classify fs src tgt = Some t →
  (dry = false → policy t ow = Linked →
   ∃ fs1 fs2, link_attempt fs src tgt ow = Some fs1 ∧ os_link fs1 src tgt = Return fs2) →
  ∃ fs', file_step dry fs src tgt ow = (event_of (policy t ow), fs') ∧
    match policy t ow with
    | Linked => if dry then fs' = fs else os_samefile fs' src tgt = Return true
    | Skipped => fs' = fs
    end.
Proof.
  unfold classify, file_step, link_attempt, os_samefile, path_exists.
  intros Hc Hok.
  destruct (os_stat fs tgt) as [st|] eqn:Ht.
  - destruct (os_stat fs src) as [ss|] eqn:Hs; [|done]. simplify_eq.
    destruct ow; [|destruct (_ && _); simpl; eauto].
    destruct (bool_decide (st_dev ss = st_dev st) && bool_decide (st_ino ss = st_ino st));
      simpl in *; [eauto|].
    destruct dry; [eauto|].
    destruct Hok as (fs1 & fs2 & Hu & Hl); [done..|].
    destruct (os_unlink fs tgt) as [fs1'|]; [|done]. simplify_eq. rewrite Hl.
    eauto using os_samefile_after_link.
  - simplify_eq. assert (policy Absent ow = Linked) as Hp by by destruct ow.
    rewrite Hp in *. simpl. destruct dry; [eauto|].
    destruct Hok as (fs1 & fs2 & Hu & Hl); [done..|]. simplify_eq. rewrite Hl.
    eauto using os_samefile_after_link.
Qed.

Lemma file_calls_policy dry fs src tgt ow t :
  classify fs src tgt = Some t →
  (dry = false → policy t ow = Linked →
   ∃ fs1 fs2, link_attempt fs src tgt ow = Some fs1 ∧ os_link fs1 src tgt = Return fs2) →
  file_calls dry fs src tgt ow = if dry then [] else policy_calls t ow src tgt.
Proof.
  unfold classify, file_calls, policy_calls, link_attempt, os_samefile, path_exists.
  intros Hc Hok. destruct dry; [done|].
  destruct (os_stat fs tgt) as [st|] eqn:Ht.
  - destruct (os_stat fs src) as [ss|] eqn:Hs; [|done]. simplify_eq.
    destruct ow; [|by destruct (_ && _)].
    destruct (bool_decide (st_dev ss = st_dev st) && bool_decide (st_ino ss = st_ino st));
      simpl in *; [done|].
    destruct Hok as (fs1 & fs2 & Hu & Hl); [done..|].
    by destruct (os_unlink fs tgt).
  - simplify_eq. by destruct ow.
Qed.


(** ** Failing links *)

Lemma bind_run {A B} (m : M A) (f : A → M B) w :
  (m ≫= f) w = match m w with
               | (Return a, w') => f a w'
               | (Raise e, w') => (Raise e, w')
               end.
Proof. done. Qed.

Lemma walk_items_file fnmatch self ow pats recurse source target item_name rest success w ok w' :
  _should_exclude fnmatch (source // item_name) pats = false →
  is_file (disk w) (source // item_name) = true →
  _hardlink_file self (source // item_name) (target // item_name) ow w = (Return ok, w') →
  walk_items fnmatch self ow pats recurse source target (item_name :: rest) success w
  = walk_items fnmatch self ow pats recurse source target rest (success && ok) w'.
Proof.
  intros Hex Hfile Hrun. cbn [walk_items]. rewrite Hex.
  rewrite bind_run. unfold query at 1. rewrite Hfile.
  rewrite bind_run. simpl name. by rewrite Hrun.
Qed.


(** ** The aggregate result *)

Lemma hardlink_file_tracks_errors self src tgt ow w :
  wp (_hardlink_file self src tgt ow) (tracks_errors w true) w.
Proof.
  apply wp_intro. intros o w' Hrun.
  destruct (hardlink_file_counted self src tgt ow w) as (ok & w1 & Hrun' & H).
  rewrite Hrun in Hrun'. simplify_eq. unfold tracks_errors, counted in *.
  destruct H as [(-> & [H|H])|(-> & H)]; split; try lia; split; try done; intros; lia.
Qed.

Lemma ensure_dir_errors self created target w :
  wp (ensure_dir self created target)
     (fun _ w' => errors (stats w') = errors (stats w)) w.
Proof. unfold ensure_dir. wp_auto; world_simpl; done. Qed.

Lemma tracks_errors_trans w w1 w2 s ok o :
  tracks_errors w true (Return ok) w1 →
  tracks_errors w1 (s && ok) o w2 →
  tracks_errors w s o w2.
Proof.
  unfold tracks_errors. intros [H1 H1'] [H2 H2']. split; [lia|].
  destruct o as [b|]; [|done]. rewrite H2', andb_true_iff, H1'. intuition lia.
Qed.

Lemma tracks_errors_same w w1 s o w2 :
  errors (stats w1) = errors (stats w) →
  tracks_errors w1 s o w2 → tracks_errors w s o w2.
Proof. unfold tracks_errors. intros ->. done. Qed.

Lemma walk_items_tracks_errors fnmatch self ow pats recurse source target items success w :
  (∀ s t w0, wp (recurse s t) (tracks_errors w0 true) w0) →
  wp (walk_items fnmatch self ow pats recurse source target items success)
     (tracks_errors w success) w.
Proof.
  intros Hrec. revert success w.
  induction items as [|item_name rest IH]; intros success w; cbn [walk_items].
  - apply wp_ret. split; [done|]. intuition.
  - destruct (_should_exclude _ _ _).
    { wp_auto. eapply wp_mono; [apply IH|]. intros o w'.
      apply tracks_errors_same. by world_simpl. }
    apply wp_bind, wp_query. destruct (is_file _ _).
    { apply wp_bind. eapply wp_mono; [apply hardlink_file_tracks_errors|].
      intros [ok|e] w1 H1; [|by destruct H1].
      eapply wp_mono; [apply IH|]. intros o w2. by apply tracks_errors_trans. }
    apply wp_bind, wp_query. destruct (is_dir _ _).
    + apply wp_bind. eapply wp_mono; [apply ensure_dir_errors|].
      intros [[]|e] w1 H1; [|split; [lia|done]].
      apply wp_bind. eapply wp_mono; [apply Hrec|].
      intros [ok|e] w2 H2; [|destruct H2; split; [lia|done]].
      eapply wp_mono; [apply IH|]. intros o w3 H3.
      eapply tracks_errors_same; [exact H1|]. by eapply tracks_errors_trans.
    + wp_auto. eapply wp_mono; [apply IH|]. intros o w'.
      apply tracks_errors_same. by world_simpl.
Qed.

Lemma hardlink_recursive_tracks_errors fnmatch self ow pats depth source target w :
  wp (_hardlink_recursive fnmatch self ow pats depth source target)
     (tracks_errors w true) w.
Proof.
  revert source target w.
  induction depth as [|depth IH]; intros source target w; cbn [_hardlink_recursive].
  - apply wp_raise. by split.
  - apply wp_try_except, wp_bind, wp_call.
    destruct (os_iterdir _ _) as [items|e].
    + eapply wp_mono; [by apply walk_items_tracks_errors|].
      intros [ok|e] w1 [H1 H1']; [done|].
      wp_auto; unfold tracks_errors; world_simpl; (split; [lia|]);
        (split; [done|intros [_ ?]; lia]).
    + wp_auto; unfold tracks_errors; world_simpl; (split; [lia|]);
        (split; [done|intros [_ ?]; lia]).
Qed.

Lemma hardlink_recursive_returns fnmatch self ow pats depth source target w :
  ∃ ok w', _hardlink_recursive fnmatch self ow pats (S depth) source target w = (Return ok, w')
    ∧ errors (stats w) ≤ errors (stats w')
    ∧ (ok = true ↔ errors (stats w') = errors (stats w)).
Proof.
  apply wp_returns. cbn [_hardlink_recursive].
  apply wp_try_except, wp_bind, wp_call.
  destruct (os_iterdir _ _) as [items|e].
  - eapply wp_mono;
      [by apply walk_items_tracks_errors, hardlink_recursive_tracks_errors|].
    intros [ok|e] w1 [H1 H1'].
    + exists ok. split; [done|]. split; [done|]. rewrite H1'. intuition.
    + wp_auto; eexists; (split; [done|]); world_simpl; (split; [lia|]);
        (split; [done|lia]).
  - wp_auto; eexists; (split; [done|]); world_simpl; (split; [lia|]);
      (split; [done|lia]).
Qed.

Lemma walk_items_dir fnmatch self ow pats recurse source target item_name rest success
    w w1 ok w2 :
  _should_exclude fnmatch (source // item_name) pats = false →
  is_file (disk w) (source // item_name) = false →
  is_dir (disk w) (source // item_name) = true →
  ensure_dir self "Created directory: " (target // item_name) w = (Return (), w1) →
  recurse (source // item_name) (target // item_name) w1 = (Return ok, w2) →
  walk_items fnmatch self ow pats recurse source target (item_name :: rest) success w
  = walk_items fnmatch self ow pats recurse source target rest (success && ok) w2.
Proof.
  intros Hex Hfile Hdir Hens Hrec. cbn [walk_items]. rewrite Hex.
  rewrite bind_run. unfold query at 1. rewrite Hfile.
  rewrite bind_run. unfold query at 1. rewrite Hdir.
  rewrite bind_run. simpl name. rewrite Hens.
  rewrite bind_run. by rewrite Hrec.
Qed.

Lemma walk_items_dir_raise fnmatch self ow pats recurse source target item_name rest success
    w e w1 :
  _should_exclude fnmatch (source // item_name) pats = false →
  is_file (disk w) (source // item_name) = false →
  is_dir (disk w) (source // item_name) = true →
  ensure_dir self "Created directory: " (target // item_name) w = (Raise e, w1) →
  walk_items fnmatch self ow pats recurse source target (item_name :: rest) success w
  = (Raise e, w1).
Proof.
  intros Hex Hfile Hdir Hens. cbn [walk_items]. rewrite Hex.
  rewrite bind_run. unfold query at 1. rewrite Hfile.
  rewrite bind_run. unfold query at 1. rewrite Hdir.
  rewrite bind_run. simpl name. by rewrite Hens.
Qed.

Lemma walk_items_skip fnmatch self ow pats recurse source target item_name rest success w :
  _should_exclude fnmatch (source // item_name) pats = false →
  is_file (disk w) (source // item_name) = false →
  is_dir (disk w) (source // item_name) = false →
  walk_items fnmatch self ow pats recurse source target (item_name :: rest) success w
  = walk_items fnmatch self ow pats recurse source target rest success
      (set_stats incr_skipped
         (log_world self ("Skipping special file: " +:+ str (source // item_name)) "WARN" w)).
Proof.
  intros Hex Hfile Hdir. cbn [walk_items]. rewrite Hex.
  rewrite bind_run. unfold query at 1. rewrite Hfile.
  rewrite bind_run. unfold query at 1. by rewrite Hdir.
Qed.


(** ** Frames: what a run can change *)

Lemma listdir_app fs fs' p : listdir (fs ++ fs') p = listdir fs p ++ listdir fs' p.
Proof.
  induction fs as [|[[|n q] s] fs IH]; simpl; [done..|].
  destruct (decide (q = p)); simpl; by rewrite IH.
Qed.

Lemma listdir_remove_entry fs k p :
  (∀ n, k ≠ n :: p) → listdir (remove_entry fs k) p = listdir fs p.
Proof.
  intros Hk. unfold remove_entry.
  induction fs as [|[q s] fs IH]; [done|].
  rewrite filter_cons. simpl. destruct (decide (q ≠ k)) as [Hq|Hq].
  - destruct q as [|n q]; simpl; [done|]. destruct (decide (q = p)); by rewrite IH.
  - apply dec_stable in Hq as ->. rewrite IH.
    destruct k as [|n q]; simpl; [done|]. destruct (decide (q = p)) as [->|]; [|done].
    by destruct (Hk n).
Qed.

Lemma agrees_outside_refl P fs : agrees_outside P fs fs.
Proof. by split. Qed.

Lemma agrees_outside_trans P fs1 fs2 fs3 :
  agrees_outside P fs1 fs2 → agrees_outside P fs2 fs3 → agrees_outside P fs1 fs3.
Proof.
  intros [H1 H1'] [H2 H2']. split.
  - intros q Hq. by rewrite H2, H1.
  - intros p Hp. by rewrite H2', H1'.
Qed.

Lemma agrees_outside_weaken (P Q : path → Prop) fs fs' :
  (∀ q, P q → Q q) → agrees_outside P fs fs' → agrees_outside Q fs fs'.
Proof.
  intros HPQ [H1 H2]. split.
  - intros q Hq. apply H1. naive_solver.
  - intros p Hp. apply H2. naive_solver.
Qed.

Lemma agrees_outside_add_entry fs k s :
  agrees_outside (fun q => q = k) fs (add_entry fs k s).
Proof.
  split.
  - intros q Hq. rewrite os_stat_add_entry. destruct (os_stat fs q); [done|].
    by rewrite decide_False.
  - intros p Hp. unfold add_entry. rewrite listdir_app. simpl.
    destruct k as [|n q]; simpl; [by rewrite app_nil_r|].
    destruct (decide (q = p)) as [->|]; [by destruct (Hp n)|by rewrite app_nil_r].
Qed.

Lemma agrees_outside_remove_entry fs k :
  agrees_outside (fun q => q = k) fs (remove_entry fs k).
Proof.
  split.
  - intros q Hq. rewrite os_stat_remove_entry. by rewrite decide_False.
  - intros p Hp. apply listdir_remove_entry. intros n ->. by apply (Hp n).
Qed.

Lemma os_link_frame fs src dst fs' :
  os_link fs src dst = Return fs' → agrees_outside (fun q => q = dst) fs fs'.
Proof. intros (s & _ & _ & ->)%os_link_Return. apply agrees_outside_add_entry. Qed.

Lemma os_unlink_frame fs p fs' :
  os_unlink fs p = Return fs' → agrees_outside (fun q => q = p) fs fs'.
Proof. intros ->%os_unlink_Return. apply agrees_outside_remove_entry. Qed.

Lemma file_step_frame dry fs src tgt ow :
  agrees_outside (fun q => q = tgt) fs (file_step dry fs src tgt ow).2.
Proof.
  unfold file_step.
  repeat (case_match; simpl; try apply agrees_outside_refl);
    eauto using agrees_outside_trans, os_link_frame, os_unlink_frame.
Qed.

Lemma os_mkdir_Return fs p fs' :
  os_mkdir fs p = Return fs' →
  ∃ s, os_stat fs p = None ∧ st_kind s = Directory ∧ fs' = add_entry fs p s.
Proof.
  unfold os_mkdir, path_exists. destruct p as [|n q]; [done|].
  destruct (os_stat fs q) as [d|]; [|done].
  repeat (case_match; try done). intros; simplify_eq.
  eexists. split_and!; [done| |reflexivity]. done.
Qed.

Lemma is_dir_add_entry fs p s :
  os_stat fs p = None → st_kind s = Directory → is_dir (add_entry fs p s) p = true.
Proof.
  intros Hn Hs. unfold is_dir. rewrite os_stat_add_entry, Hn, decide_True by done.
  by rewrite bool_decide_eq_true_2.
Qed.

Lemma mkdir_exist_ok_Return fs p fs' :
  mkdir_exist_ok fs p = Return fs' →
  is_dir fs' p = true ∧ agrees_outside (fun q => q = p) fs fs'.
Proof.
  unfold mkdir_exist_ok. destruct (os_mkdir fs p) as [fs1|e] eqn:Hm.
  - intros; simplify_eq. apply os_mkdir_Return in Hm as (s & Hn & Hs & ->).
    split; [by apply is_dir_add_entry|apply agrees_outside_add_entry].
  - destruct (is_FileNotFoundError e); [done|].
    destruct (is_dir fs p) eqn:Hd; [|done]. intros; simplify_eq.
    split; [done|apply agrees_outside_refl].
Qed.

Lemma mkdir_parents_unfold fs p :
  mkdir_parents fs p =
  match os_mkdir fs p with
  | Return fs' => Return fs'
  | Raise e =>
      if is_FileNotFoundError e then
        match p with
        | [] => Raise e
        | _ :: q =>
            match mkdir_parents fs q with
            | Return fs1 => mkdir_exist_ok fs1 p
            | Raise e' => Raise e'
            end
        end
      else if is_dir fs p then Return fs
      else Raise e
  end.
Proof. by destruct p. Qed.

(** [mkdir(parents=True)] only adds the path and missing ancestors. *)
Lemma mkdir_parents_Return fs p fs' :
  mkdir_parents fs p = Return fs' →
  is_dir fs' p = true ∧ agrees_outside (fun q => q `suffix_of` p) fs fs'.
Proof.
  revert fs'. induction p as [|n q IH]; intros fs'; rewrite mkdir_parents_unfold.
  - destruct (os_mkdir fs []) as [fs1|e] eqn:Hm; [by simpl in Hm|].
    + destruct (is_FileNotFoundError e); [done|].
      destruct (is_dir fs []) eqn:Hd; [|done]. intros; simplify_eq.
      split; [done|apply agrees_outside_refl].
  - destruct (os_mkdir fs (n :: q)) as [fs1|e] eqn:Hm.
    + intros; simplify_eq. apply os_mkdir_Return in Hm as (s & Hn & Hs & ->).
      split; [by apply is_dir_add_entry|].
      eapply agrees_outside_weaken; [|apply agrees_outside_add_entry].
      by intros ? ->.
    + destruct (is_FileNotFoundError e).
      * destruct (mkdir_parents fs q) as [fs1|e'] eqn:Hq; [|done].
        destruct (IH _ eq_refl) as [_ Hfr]. intros [Hd Hfr']%mkdir_exist_ok_Return.
        split; [done|]. eapply agrees_outside_trans.
        -- eapply agrees_outside_weaken; [|exact Hfr]. intros k Hk. by apply suffix_cons_r.
        -- eapply agrees_outside_weaken; [|exact Hfr']. by intros ? ->.
      * destruct (is_dir fs (n :: q)) eqn:Hd; [|done]. intros; simplify_eq.
        split; [done|apply agrees_outside_refl].
Qed.

(** When the parent is there, only the path itself is added. *)
Lemma mkdir_parents_child fs n p fs' :
  path_exists fs p = true →
  mkdir_parents fs (n :: p) = Return fs' →
  is_dir fs' (n :: p) = true ∧ agrees_outside (fun q => q = n :: p) fs fs'.
Proof.
  intros Hp. rewrite mkdir_parents_unfold.
  destruct (os_mkdir fs (n :: p)) as [fs1|e] eqn:Hm.
  - intros; simplify_eq. apply os_mkdir_Return in Hm as (s & Hn & Hs & ->).
    split; [by apply is_dir_add_entry|apply agrees_outside_add_entry].
  - assert (is_FileNotFoundError e = false) as ->.
    { unfold os_mkdir, path_exists in *. destruct (os_stat fs p); [|done].
      repeat case_match; by simplify_eq. }
    destruct (is_dir fs (n :: p)) eqn:Hd; [|done]. intros; simplify_eq.
    split; [done|apply agrees_outside_refl].
Qed.

Lemma under_child p n : under p (n :: p).
Proof.
  split; [by apply suffix_cons_r|]. intros H.
  apply (f_equal length) in H. simpl in H. lia.
Qed.

Lemma under_below p n q : (n :: p) `suffix_of` q → under p q.
Proof.
  intros H. split; [by eapply suffix_cons_l|]. intros ->.
  by apply suffix_cons_not in H.
Qed.

Lemma under_trans p n q : under (n :: p) q → under p q.
Proof. intros [H _]. by eapply under_below. Qed.

Lemma not_under_self p : ¬ under p p.
Proof. by intros [_ ?]. Qed.

Lemma path_exists_agrees P fs fs' q :
  agrees_outside P fs fs' → ¬ P q → path_exists fs' q = path_exists fs q.
Proof. intros [H _] Hq. unfold path_exists. by rewrite H. Qed.

Lemma hardlink_file_frame self src tgt ow w :
  wp (_hardlink_file self src tgt ow)
     (fun _ w' => agrees_outside (fun q => q = tgt) (disk w) (disk w')) w.
Proof.
  apply wp_intro. intros o w' Hrun.
  destruct (hardlink_file_step self src tgt ow w) as (w1 & Hrun' & Hdisk & _).
  rewrite Hrun in Hrun'. simplify_eq. rewrite Hdisk. apply file_step_frame.
Qed.

Lemma real_ensure_dir_child self created n p w :
  dry_run self = false →
  path_exists (disk w) p = true →
  wp (ensure_dir self created (n :: p))
     (fun o w' => agrees_outside (fun q => q = n :: p) (disk w) (disk w') ∧
                  (o = Return () → path_exists (disk w') (n :: p) = true)) w.
Proof.
  intros Hdry Hp. unfold ensure_dir. rewrite Hdry.
  apply wp_bind, wp_query.
  destruct (path_exists (disk w) (n :: p)) eqn:Hex; apply wp_when; cbn [negb].
  { split; [apply agrees_outside_refl|done]. }
  apply wp_bind, wp_when, wp_syscall.
  destruct (mkdir_parents (disk w) (n :: p)) as [fs'|e] eqn:Hm.
  - apply mkdir_parents_child in Hm as [Hd Hfr]; [|done].
    wp_auto. world_simpl. split; [done|]. intros _.
    unfold is_dir, path_exists in *. by destruct (os_stat fs' (n :: p)).
  - split; [apply agrees_outside_refl|done].
Qed.

Lemma real_walk_items_frame fnmatch self ow pats recurse source target items success w :
  dry_run self = false →
  (∀ s t w0, path_exists (disk w0) t = true →
     wp (recurse s t) (fun _ w' => agrees_outside (under t) (disk w0) (disk w')) w0) →
  path_exists (disk w) target = true →
  wp (walk_items fnmatch self ow pats recurse source target items success)
     (fun _ w' => agrees_outside (under target) (disk w) (disk w')) w.
Proof.
  intros Hdry Hrec. revert success w.
  induction items as [|item_name rest IH]; intros success w Hex; cbn [walk_items].
  { apply wp_ret, agrees_outside_refl. }
  assert (∀ success w1,
    agrees_outside (under target) (disk w) (disk w1) →
    wp (walk_items fnmatch self ow pats recurse source target rest success)
       (fun _ w' => agrees_outside (under target) (disk w) (disk w')) w1) as Hnext.
  { intros s w1 H1. eapply wp_mono.
    - apply IH. erewrite path_exists_agrees; [done..|]. apply not_under_self.
    - intros o w2 H2. by eapply agrees_outside_trans. }
  destruct (_should_exclude _ _ _).
  { wp_auto. apply Hnext. world_simpl. apply agrees_outside_refl. }
  apply wp_bind, wp_query. destruct (is_file _ _).
  { apply wp_bind. eapply wp_mono; [apply hardlink_file_frame|].
    intros o w1 H1.
    assert (agrees_outside (under target) (disk w) (disk w1)) as H1'.
    { eapply agrees_outside_weaken; [|exact H1]. intros ? ->. apply under_child. }
    destruct o; [by apply Hnext|done]. }
  apply wp_bind, wp_query. destruct (is_dir _ _).
  - apply wp_bind. eapply wp_mono; [by apply real_ensure_dir_child|].
    intros o w1 [H1 Hex1].
    assert (agrees_outside (under target) (disk w) (disk w1)) as H1'.
    { eapply agrees_outside_weaken; [|exact H1]. intros ? ->. apply under_child. }
    destruct o as [[]|e]; [|done].
    apply wp_bind. eapply wp_mono; [apply Hrec; by apply Hex1|].
    intros o w2 H2.
    assert (agrees_outside (under target) (disk w) (disk w2)) as H2'.
    { eapply agrees_outside_trans; [exact H1'|].
      eapply agrees_outside_weaken; [|exact H2]. intros ?. apply under_trans. }
    destruct o; [by apply Hnext|done].
  - wp_auto. apply Hnext. world_simpl. apply agrees_outside_refl.
Qed.

Lemma real_hardlink_recursive_frame fnmatch self ow pats depth source target w :
  dry_run self = false →
  path_exists (disk w) target = true →
  wp (_hardlink_recursive fnmatch self ow pats depth source target)
     (fun _ w' => agrees_outside (under target) (disk w) (disk w')) w.
Proof.
  intros Hdry. revert source target w.
  induction depth as [|depth IH]; intros source target w Hex; cbn [_hardlink_recursive].
  - apply wp_raise, agrees_outside_refl.
  - apply wp_try_except, wp_bind, wp_call.
    destruct (os_iterdir _ _) as [items|e].
    + eapply wp_mono; [by apply real_walk_items_frame|].
      intros [ok|e] w1 H1; [done|]. wp_auto; by world_simpl.
    + wp_auto; world_simpl; apply agrees_outside_refl.
Qed.

(** ** Paths and views *)

Lemma disjoint_paths_child s t n m :
  disjoint_paths s t → disjoint_paths (s // n) (t // m).
Proof.
  intros [Hst Hts]. unfold joinpath. split; intros H.
  - apply suffix_cons_inv in H as [H|H]; [simplify_eq; by apply Hst|].
    apply Hst. by eapply suffix_cons_l.
  - apply suffix_cons_inv in H as [H|H]; [simplify_eq; by apply Hts|].
    apply Hts. by eapply suffix_cons_l.
Qed.

Lemma disjoint_paths_below s t q :
  disjoint_paths s t → s `suffix_of` q → ¬ t `suffix_of` q.
Proof.
  intros [Hst Hts] Hs Ht. by destruct (suffix_weak_total s t q Hs Ht).
Qed.

Lemma siblings_apart (t : path) (n m : string) q :
  n ≠ m → (n :: t) `suffix_of` q → ¬ (m :: t) `suffix_of` q.
Proof.
  intros Hnm Hn Hm.
  destruct (suffix_weak_total _ _ _ Hn Hm) as [H|H];
    apply suffix_cons_inv in H as [H|H]; simplify_eq;
    by apply suffix_cons_not in H.
Qed.

Lemma same_view_to_items source target items fs fs' :
  same_view source target fs fs' → same_view_items source target items fs fs'.
Proof.
  intros (Ha & Hl & Hb). split_and!; [done..|].
  intros n q _ Hq. apply Hb. by eapply under_below.
Qed.

Lemma same_view_items_next source target n rest fs fs1 fs' :
  disjoint_paths source target →
  n ∉ rest →
  same_view_items source target (n :: rest) fs fs' →
  agrees_outside (fun q => (target // n) `suffix_of` q) fs fs1 →
  same_view_items source target rest fs1 fs'.
Proof.
  intros Hdis Hn (Ha & Hl & Hb) [Hs Hd].
  assert (∀ q, source `suffix_of` q → ¬ (target // n) `suffix_of` q) as Hout.
  { intros q Hq Hq'. eapply disjoint_paths_below; [done..|]. by eapply suffix_cons_l. }
  split_and!.
  - intros q Hq. rewrite Hs by by apply Hout. by apply Ha.
  - intros p Hp. rewrite Hd; [by apply Hl|].
    intros m. apply Hout. by apply suffix_cons_r.
  - intros m q Hm Hq. rewrite Hs; [apply (Hb m); [by right|done]|].
    apply siblings_apart with m; [|done]. intros ->. done.
Qed.

Lemma same_view_items_enter source target n rest fs fs1 fs' :
  disjoint_paths source target →
  same_view_items source target (n :: rest) fs fs' →
  agrees_outside (fun q => q = target // n) fs fs1 →
  same_view (source // n) (target // n) fs1 fs'.
Proof.
  intros Hdis (Ha & Hl & Hb) [Hs Hd].
  assert (∀ q, source `suffix_of` q → q ≠ target // n) as Hout.
  { intros q Hq ->. eapply disjoint_paths_below; [done..|]. by apply suffix_cons_r. }
  split_and!.
  - intros q Hq%suffix_cons_l. rewrite Hs by by apply Hout. by apply Ha.
  - intros p Hp%suffix_cons_l. rewrite Hd; [by apply Hl|].
    intros m. apply Hout. by apply suffix_cons_r.
  - intros q [Hq Hne]. rewrite Hs by done. apply (Hb n); [by left|done].
Qed.

(** ** Running the pieces *)

Lemma ensure_dir_run self created target w :
  ensure_dir self created target w =
  if path_exists (disk w) target then (Return (), w)
  else if dry_run self then
    (Return (), set_stats incr_dirs_created (log_world self (created +:+ str target) "INFO" w))
  else match mkdir_parents (disk w) target with
       | Return fs' =>
           (Return (), set_stats incr_dirs_created
                         (log_world self (created +:+ str target) "INFO"
                            (set_disk fs' (note_call (Mkdir target) w))))
       | Raise e => (Raise e, note_call (Mkdir target) w)
       end.
Proof.
  unfold ensure_dir. rewrite bind_run. unfold query at 1.
  destruct (path_exists (disk w) target); cbn [negb when]; [reflexivity|].
  destruct (dry_run self); cbn [negb]; [reflexivity|].
  rewrite !bind_run. unfold when, syscall. cbn beta iota.
  destruct (mkdir_parents (disk w) target); reflexivity.
Qed.

Lemma file_step_dry_disk fs src tgt ow : (file_step true fs src tgt ow).2 = fs.
Proof. unfold file_step. by repeat case_match. Qed.

Lemma file_step_dry_real fs_r fs_d src tgt ow :
  os_stat fs_d src = os_stat fs_r src →
  os_stat fs_d tgt = os_stat fs_r tgt →
  event_ok (file_step false fs_r src tgt ow).1 = true →
  (file_step true fs_d src tgt ow).1 = (file_step false fs_r src tgt ow).1.
Proof.
  intros Hs Ht. unfold file_step, path_exists, os_samefile. rewrite Hs, Ht.
  repeat (case_match; simpl; try done).
Qed.

Lemma walk_items_success fnmatch self ow pats recurse source target items success w w' :
  walk_items fnmatch self ow pats recurse source target items success w = (Return true, w') →
  success = true.
Proof.
  revert success w. induction items as [|n rest IH]; intros success w; cbn [walk_items].
  { intros [= -> _]. done. }
  destruct (_should_exclude _ _ _).
  { rewrite !bind_run. simpl. apply IH. }
  rewrite bind_run. unfold query at 1. destruct (is_file _ _).
  { rewrite bind_run. destruct (_hardlink_file _ _ _ _ _) as [[ok|e] w1]; [|done].
    intros H%IH. by apply andb_true_iff in H as [-> _]. }
  rewrite bind_run. unfold query at 1. destruct (is_dir _ _).
  - rewrite bind_run. destruct (ensure_dir _ _ _ _) as [[[]|e] w1]; [|done].
    rewrite bind_run. destruct (recurse _ _ _) as [[ok|e] w2]; [|done].
    intros H%IH. by apply andb_true_iff in H as [-> _].
  - rewrite !bind_run. simpl. apply IH.
Qed.

Lemma walk_items_excluded fnmatch self ow pats recurse source target item_name rest success w :
  _should_exclude fnmatch (source // item_name) pats = true →
  walk_items fnmatch self ow pats recurse source target (item_name :: rest) success w
  = walk_items fnmatch self ow pats recurse source target rest success
      (set_stats incr_skipped
         (log_world self ("Excluding: " +:+ str (source // item_name)) "INFO" w)).
Proof. intros H. cbn [walk_items]. by rewrite H. Qed.

Lemma same_counts_refl w1 w2 : same_counts w1 w1 w2 w2.
Proof. unfold same_counts. lia. Qed.

Lemma same_counts_trans w1 w1' w1'' w2 w2' w2'' :
  same_counts w1 w1' w2 w2' → same_counts w1' w1'' w2' w2'' →
  same_counts w1 w1'' w2 w2''.
Proof. unfold same_counts. lia. Qed.

Lemma same_counts_stats f w1 w2 (w1' w2' : World) :
  (f = incr_files_linked ∨ f = incr_dirs_created ∨ f = incr_errors ∨ f = incr_skipped) →
  stats w1' = f (stats w1) → stats w2' = f (stats w2) →
  same_counts w1 w1' w2 w2'.
Proof.
  unfold same_counts. intros Hf -> ->.
  destruct Hf as [-> | [-> | [-> | ->]]]; simpl; lia.
Qed.

Lemma same_counts_event ev w1 w2 (w1' w2' : World) :
  stats w1' = event_stats ev (stats w1) → stats w2' = event_stats ev (stats w2) →
  same_counts w1 w1' w2 w2'.
Proof. intros. eapply same_counts_stats; [|done..]. destruct ev; simpl; auto. Qed.

(** ** Dry run against real run *)

Section DryReal.

Context (fnmatch : string → string → bool) (real dry : DirectoryHardlinker).
Context (overwrite : bool) (exclude_patterns : option (list string)).
Hypothesis Hreal : dry_run real = false.
Hypothesis Hdry : dry_run dry = true.

Lemma ensure_dir_dry_real created n target w_r w1 w_d :
  path_exists (disk w_r) target = true →
  os_stat (disk w_d) (target // n) = os_stat (disk w_r) (target // n) →
  ensure_dir real created (target // n) w_r = (Return (), w1) →
  ∃ wd1,
    ensure_dir dry created (target // n) w_d = (Return (), wd1)
    ∧ disk wd1 = disk w_d
    ∧ same_counts w_r w1 w_d wd1
    ∧ agrees_outside (fun q => q = target // n) (disk w_r) (disk w1)
    ∧ path_exists (disk w1) (target // n) = true.
Proof.
  intros Hex Hst Hens.
  pose proof (real_ensure_dir_child real created n target w_r Hreal Hex) as Hfr.
  eapply wp_elim in Hfr as [Hfr Hex1]; [|exact Hens].
  rewrite ensure_dir_run in Hens. rewrite ensure_dir_run.
  unfold path_exists in Hens |- *. rewrite Hst, Hdry. rewrite Hreal in Hens.
  destruct (os_stat (disk w_r) (target // n)).
  - simplify_eq. eexists. split_and!; eauto using same_counts_refl.
  - destruct (mkdir_parents (disk w_r) (target // n)); simplify_eq.
    eexists. split_and!; eauto.
    + by world_simpl.
    + eapply same_counts_stats; [|by world_simpl..]. auto.
Qed.

Section Items.

Context (recurse_r recurse_d : path → path → M bool).
Hypothesis Hframe : ∀ s t w0,
  path_exists (disk w0) t = true →
  wp (recurse_r s t) (fun _ w' => agrees_outside (under t) (disk w0) (disk w')) w0.
Hypothesis Hkeep : ∀ s t, leaves_alone (recurse_d s t).
Hypothesis Hsim : ∀ s t w_r w_r' w_d,
  disjoint_paths s t →
  path_exists (disk w_r) t = true →
  (∀ p, NoDup (listdir (disk w_d) p)) →
  same_view s t (disk w_r) (disk w_d) →
  recurse_r s t w_r = (Return true, w_r') →
  ∃ w_d', recurse_d s t w_d = (Return true, w_d') ∧ same_counts w_r w_r' w_d w_d'.

Lemma dry_matches_real_items source target items success w_r w_r' w_d :
  disjoint_paths source target →
  NoDup items →
  path_exists (disk w_r) target = true →
  (∀ p, NoDup (listdir (disk w_d) p)) →
  same_view_items source target items (disk w_r) (disk w_d) →
  walk_items fnmatch real overwrite exclude_patterns recurse_r source target items success w_r
    = (Return true, w_r') →
  ∃ w_d',
    walk_items fnmatch dry overwrite exclude_patterns recurse_d source target items success w_d
      = (Return true, w_d')
    ∧ same_counts w_r w_r' w_d w_d'.
Proof.
  intros Hdis. revert success w_r w_d.
  induction items as [|n rest IH]; intros success w_r w_d Hnd Hex Hls Hview Hrun.
  { cbn [walk_items] in *. injection Hrun as -> ->.
    eexists. split; [reflexivity|apply same_counts_refl]. }
  apply NoDup_cons in Hnd as [Hn Hnd].
  pose proof Hview as (Ha & Hl & Hb).
  assert (∀ w1 wd1 s,
    agrees_outside (fun q => (target // n) `suffix_of` q) (disk w_r) (disk w1) →
    disk wd1 = disk w_d →
    same_counts w_r w1 w_d wd1 →
    walk_items fnmatch real overwrite exclude_patterns recurse_r source target rest s w1
      = (Return true, w_r') →
    ∃ w_d',
      walk_items fnmatch dry overwrite exclude_patterns recurse_d source target rest s wd1
        = (Return true, w_d')
      ∧ same_counts w_r w_r' w_d w_d') as Hnext.
  { intros w1 wd1 s Hfr Hd1 Hc1 Hrun1.
    edestruct (IH s w1 wd1) as (w_d' & Hrun_d & Hc); [done| |by rewrite Hd1| |done|].
    - erewrite path_exists_agrees; [done..|]. apply suffix_cons_not.
    - rewrite Hd1. by eapply same_view_items_next.
    - eauto using same_counts_trans. }
  destruct (_should_exclude fnmatch (source // n) exclude_patterns) eqn:Hexcl.
  { rewrite walk_items_excluded in Hrun |- * by done.
    eapply Hnext; [| |  |exact Hrun].
    - world_simpl. apply agrees_outside_refl.
    - by world_simpl.
    - eapply same_counts_stats; [|by world_simpl..]. auto. }
  assert (is_file (disk w_d) (source // n) = is_file (disk w_r) (source // n)) as Hf.
  { unfold is_file. rewrite Ha; [done|]. by apply suffix_cons_r. }
  assert (is_dir (disk w_d) (source // n) = is_dir (disk w_r) (source // n)) as Hd.
  { unfold is_dir. rewrite Ha; [done|]. by apply suffix_cons_r. }
  destruct (is_file (disk w_r) (source // n)) eqn:Hfile.
  { destruct (hardlink_file_step real (source // n) (target // n) overwrite w_r)
      as (w1 & Hrun1 & Hdisk1 & Hstats1).
    destruct (hardlink_file_step dry (source // n) (target // n) overwrite w_d)
      as (wd1 & Hrund1 & Hdiskd1 & Hstatsd1).
    rewrite Hreal in *. rewrite Hdry in *.
    erewrite walk_items_file in Hrun by done.
    pose proof (walk_items_success _ _ _ _ _ _ _ _ _ _ _ Hrun) as Hok.
    apply andb_true_iff in Hok as [-> Hok].
    rewrite file_step_dry_disk in Hdiskd1.
    assert ((file_step true (disk w_d) (source // n) (target // n) overwrite).1
            = (file_step false (disk w_r) (source // n) (target // n) overwrite).1) as Hev.
    { apply file_step_dry_real; [| |done].
      - apply Ha. by apply suffix_cons_r.
      - by apply (Hb n); [left|]. }
    rewrite Hev in Hrund1, Hstatsd1.
    erewrite walk_items_file by done.
    eapply Hnext; [|done| |exact Hrun].
    - rewrite Hdisk1. eapply agrees_outside_weaken; [|apply file_step_frame].
      by intros ? ->.
    - by eapply same_counts_event. }
  destruct (is_dir (disk w_r) (source // n)) eqn:Hdir.
  - cbn [walk_items] in Hrun. rewrite Hexcl, bind_run in Hrun.
    unfold query at 1 in Hrun. rewrite Hfile, bind_run in Hrun.
    unfold query at 1 in Hrun. rewrite Hdir, bind_run in Hrun. simpl name in Hrun.
    destruct (ensure_dir real _ _ w_r) as [[[]|e] w1] eqn:Hens; [|done].
    rewrite bind_run in Hrun.
    destruct (recurse_r _ _ w1) as [[ok|e] w2] eqn:Hrec; [|done].
    pose proof (walk_items_success _ _ _ _ _ _ _ _ _ _ _ Hrun) as Hok.
    apply andb_true_iff in Hok as [-> ->].
    destruct (ensure_dir_dry_real "Created directory: " n target w_r w1 w_d Hex) as
      (wd1 & Hensd & Hdiskd1 & Hc1 & Hfr1 & Hex1); [apply (Hb n); [by left|done]|done|].
    edestruct (Hsim (source // n) (target // n) w1 w2 wd1) as (wd2 & Hrecd & Hc2);
      [by apply disjoint_paths_child|done|by rewrite Hdiskd1| |done|].
    { rewrite Hdiskd1. by eapply same_view_items_enter. }
    pose proof (Hframe (source // n) (target // n) w1 Hex1) as Hfr2. eapply wp_elim in Hfr2; [|exact Hrec].
    pose proof (Hkeep (source // n) (target // n) wd1) as Hk.
    eapply wp_elim in Hk; [|exact Hrecd]. simpl in Hk. destruct Hk as [Hk _].
    erewrite walk_items_dir; [|done|congruence|congruence|done..].
    eapply Hnext; [|congruence| |exact Hrun].
    + eapply agrees_outside_trans.
      * eapply agrees_outside_weaken; [|exact Hfr1]. by intros ? ->.
      * eapply agrees_outside_weaken; [|exact Hfr2]. by intros ? [? _].
    + eauto using same_counts_trans.
  - rewrite walk_items_skip in Hrun by done.
    rewrite walk_items_skip by congruence.
    eapply Hnext; [| |  |exact Hrun].
    + world_simpl. apply agrees_outside_refl.
    + by world_simpl.
    + eapply same_counts_stats; [|by world_simpl..]. auto.
Qed.

End Items.

Lemma os_iterdir_same_view source target fs fs' :
  same_view source target fs fs' → os_iterdir fs' source = os_iterdir fs source.
Proof.
  intros (Ha & Hl & _). unfold os_iterdir. by rewrite Ha, Hl.
Qed.

Lemma dry_matches_real_rec depth source target w_r w_r' w_d :
  disjoint_paths source target →
  path_exists (disk w_r) target = true →
  (∀ p, NoDup (listdir (disk w_d) p)) →
  same_view source target (disk w_r) (disk w_d) →
  _hardlink_recursive fnmatch real overwrite exclude_patterns depth source target w_r
    = (Return true, w_r') →
  ∃ w_d',
    _hardlink_recursive fnmatch dry overwrite exclude_patterns depth source target w_d
      = (Return true, w_d')
    ∧ same_counts w_r w_r' w_d w_d'.
Proof.
  revert source target w_r w_r' w_d.
  induction depth as [|depth IH]; intros source target w_r w_r' w_d Hdis Hex Hls Hview Hrun;
    cbn [_hardlink_recursive] in *; [done|].
  unfold try_except in *. rewrite bind_run in *. unfold call at 1 in Hrun. unfold call at 1.
  rewrite (os_iterdir_same_view _ _ _ _ Hview).
  destruct (os_iterdir (disk w_r) source) as [items|e] eqn:Hit;
    [|by destruct (is_PermissionError e)].
  destruct (walk_items fnmatch real _ _ _ _ _ items true w_r) as [[ok|e] w1] eqn:Hwalk;
    [|by destruct (is_PermissionError e)].
  simplify_eq.
  edestruct (dry_matches_real_items
               (_hardlink_recursive fnmatch real overwrite exclude_patterns depth)
               (_hardlink_recursive fnmatch dry overwrite exclude_patterns depth))
    as (w_d' & Hrun_d & Hc); [..|exact Hwalk|].
  - intros. by apply real_hardlink_recursive_frame.
  - intros. by apply dry_hardlink_recursive_leaves_alone.
  - intros. by eapply IH.
  - done.
  - unfold os_iterdir in Hit. repeat case_match; simplify_eq.
    destruct Hview as (_ & Hl & _). rewrite <-Hl by done. apply Hls.
  - done.
  - done.
  - by apply same_view_to_items.
  - rewrite Hrun_d. eauto.
Qed.

End DryReal.

Lemma elem_of_listdir fs p n : n ∈ listdir fs p → (n :: p) ∈ fs.*1.
Proof.
  induction fs as [|[[|m q] s] fs IH]; simpl.
  - by intros ?%elem_of_nil.
  - intros H. right. by apply IH.
  - destruct (decide (q = p)) as [->|].
    + intros [->|H]%elem_of_cons; [by left|right; by apply IH].
    + intros H. right. by apply IH.
Qed.

Lemma NoDup_listdir fs p : NoDup fs.*1 → NoDup (listdir fs p).
Proof.
  induction fs as [|[[|m q] s] fs IH]; simpl.
  - intros _. apply NoDup_nil_2.
  - intros [_ H]%NoDup_cons. by apply IH.
  - intros [Hm H]%NoDup_cons. destruct (decide (q = p)) as [->|]; [|by apply IH].
    apply NoDup_cons. split; [|by apply IH]. intros Hin. by apply Hm, elem_of_listdir.
Qed.

Lemma wf_fs_NoDup fs : wf_fs fs = true → NoDup fs.*1.
Proof.
  unfold wf_fs. intros H. apply andb_true_iff in H as [H _].
  apply andb_true_iff in H as [H _]. by apply bool_decide_eq_true_1 in H.
Qed.

Lemma same_view_after_mkdir source target fs fs' :
  disjoint_paths source target →
  agrees_outside (fun q => q `suffix_of` target) fs fs' →
  same_view source target fs' fs.
Proof.
  intros [Hst Hts] [Hs Hl]. split_and!.
  - intros q Hq. symmetry. apply Hs. intros Hq'. apply Hst. by etrans.
  - intros p Hp. symmetry. apply Hl. intros n Hn. apply Hst.
    etrans; [exact Hp|]. by eapply suffix_cons_l.
  - intros q [Hq Hne]. symmetry. apply Hs. intros Hq'. apply Hne.
    by apply (anti_symm suffix).
Qed.

Lemma same_view_refl source target fs : same_view source target fs fs.
Proof. by split_and!. Qed.

Lemma stats_eq (s1 s2 : Stats) :
  files_linked s1 = files_linked s2 → dirs_created s1 = dirs_created s2 →
  errors s1 = errors s2 → skipped s1 = skipped s2 → s1 = s2.
Proof. destruct s1, s2; simpl; congruence. Qed.


(** ** Running twice *)

Lemma below_items_under target items q : below_items target items q → under target q.
Proof. intros (m & _ & H). by eapply under_below. Qed.

Lemma below_items_cons target n rest q :
  below_items target rest q → below_items target (n :: rest) q.
Proof. intros (m & Hm & H). exists m. split; [by right|done]. Qed.

Lemma below_items_head target n rest q :
  (target // n) `suffix_of` q → below_items target (n :: rest) q.
Proof. intros H. exists n. split; [by left|done]. Qed.

Lemma not_below_items_source source target items q :
  disjoint_paths source target → source `suffix_of` q → ¬ below_items target items q.
Proof.
  intros Hdis Hq (m & _ & H). eapply disjoint_paths_below; [done..|].
  by eapply suffix_cons_l.
Qed.

Lemma not_below_items_sibling target n rest q :
  n ∉ rest → (target // n) `suffix_of` q → ¬ below_items target rest q.
Proof.
  intros Hn Hq (m & Hm & H). eapply siblings_apart; [|exact Hq|exact H].
  by intros ->.
Qed.

(** The loop only touches the targets of its own items. *)
Lemma real_walk_items_frame_items fnmatch self ow pats recurse source target items success w :
  dry_run self = false →
  (∀ s t w0, path_exists (disk w0) t = true →
     wp (recurse s t) (fun _ w' => agrees_outside (under t) (disk w0) (disk w')) w0) →
  path_exists (disk w) target = true →
  wp (walk_items fnmatch self ow pats recurse source target items success)
     (fun _ w' => agrees_outside (below_items target items) (disk w) (disk w')) w.
Proof.
  intros Hdry Hrec. revert success w.
  induction items as [|item_name rest IH]; intros success w Hex; cbn [walk_items].
  { apply wp_ret, agrees_outside_refl. }
  assert (∀ success w1,
    agrees_outside (fun q => (target // item_name) `suffix_of` q) (disk w) (disk w1) →
    wp (walk_items fnmatch self ow pats recurse source target rest success)
       (fun _ w' => agrees_outside (below_items target (item_name :: rest)) (disk w) (disk w'))
       w1) as Hnext.
  { intros s w1 H1. eapply wp_mono.
    - apply IH. erewrite path_exists_agrees; [done..|]. apply suffix_cons_not.
    - intros o w2 H2. eapply agrees_outside_trans.
      + eapply agrees_outside_weaken; [|exact H1]. apply below_items_head.
      + eapply agrees_outside_weaken; [|exact H2]. apply below_items_cons. }
  destruct (_should_exclude _ _ _).
  { wp_auto. apply Hnext. world_simpl. apply agrees_outside_refl. }
  apply wp_bind, wp_query. destruct (is_file _ _).
  { apply wp_bind. eapply wp_mono; [apply hardlink_file_frame|].
    intros o w1 H1.
    assert (agrees_outside (fun q => (target // item_name) `suffix_of` q) (disk w) (disk w1))
      as H1' by (eapply agrees_outside_weaken; [|exact H1]; by intros ? ->).
    destruct o; [by apply Hnext|].
    eapply agrees_outside_weaken; [|exact H1']. apply below_items_head. }
  apply wp_bind, wp_query. destruct (is_dir _ _).
  - apply wp_bind. eapply wp_mono; [by apply real_ensure_dir_child|].
    intros o w1 [H1 Hex1].
    assert (agrees_outside (fun q => (target // item_name) `suffix_of` q) (disk w) (disk w1))
      as H1' by (eapply agrees_outside_weaken; [|exact H1]; by intros ? ->).
    destruct o as [[]|e];
      [|eapply agrees_outside_weaken; [|exact H1']; apply below_items_head].
    apply wp_bind. eapply wp_mono; [apply Hrec; by apply Hex1|].
    intros o w2 H2.
    assert (agrees_outside (fun q => (target // item_name) `suffix_of` q) (disk w) (disk w2))
      as H2'.
    { eapply agrees_outside_trans; [exact H1'|].
      eapply agrees_outside_weaken; [|exact H2]. by intros ? [? _]. }
    destruct o; [by apply Hnext|].
    eapply agrees_outside_weaken; [|exact H2']. apply below_items_head.
  - wp_auto. apply Hnext. world_simpl. apply agrees_outside_refl.
Qed.

Lemma os_samefile_ext fs fs' a b :
  os_stat fs' a = os_stat fs a → os_stat fs' b = os_stat fs b →
  os_samefile fs' a b = os_samefile fs a b.
Proof. intros Ha Hb. unfold os_samefile. by rewrite Ha, Hb. Qed.

Lemma path_exists_after_link fs src tgt fs' :
  os_link fs src tgt = Return fs' → path_exists fs' tgt = true.
Proof.
  intros (s & Hs & Hn & ->)%os_link_Return. unfold path_exists.
  by rewrite os_stat_add_entry, Hn, decide_True.
Qed.

(** After a successful real call with [overwrite], the target is the source. *)
Lemma file_step_real_done fs src tgt :
  event_ok (file_step false fs src tgt true).1 = true →
  path_exists (file_step false fs src tgt true).2 tgt = true ∧
  os_samefile (file_step false fs src tgt true).2 src tgt = Return true.
Proof.
  unfold file_step.
  destruct (path_exists fs tgt) eqn:Hex.
  - destruct (os_samefile fs src tgt) as [[]|e] eqn:Hsame; simpl; [done| |done].
    destruct (os_unlink fs tgt) as [fs1|e]; simpl; [|done].
    destruct (os_link fs1 src tgt) as [fs2|e] eqn:Hl; simpl; [|done].
    eauto using os_samefile_after_link, path_exists_after_link.
  - destruct (os_link fs src tgt) as [fs2|e] eqn:Hl; simpl; [|done].
    eauto using os_samefile_after_link, path_exists_after_link.
Qed.

Lemma file_step_same dry fs src tgt :
  path_exists fs tgt = true → os_samefile fs src tgt = Return true →
  file_step dry fs src tgt true = (FileSkipped, fs).
Proof. intros H1 H2. unfold file_step. by rewrite H1, H2. Qed.

Lemma agrees_source source target (P : path → Prop) fs fs' :
  disjoint_paths source target →
  (∀ q, P q → under target q) →
  agrees_outside P fs fs' →
  (∀ q, source `suffix_of` q → os_stat fs' q = os_stat fs q) ∧
  (∀ p, source `suffix_of` p → listdir fs' p = listdir fs p).
Proof.
  intros Hdis HP [Hs Hl].
  assert (∀ q, source `suffix_of` q → ¬ P q) as Hout.
  { intros q Hq [Hq' _]%HP. by eapply disjoint_paths_below. }
  split.
  - intros q Hq. by apply Hs, Hout.
  - intros p Hp. apply Hl. intros n. apply Hout. by apply suffix_cons_r.
Qed.

Lemma source_listings_nodup_agrees source fs fs' :
  (∀ p, source `suffix_of` p → listdir fs' p = listdir fs p) →
  source_listings_nodup source fs → source_listings_nodup source fs'.
Proof. intros Hl Hnd p Hp. rewrite Hl by done. by apply Hnd. Qed.

Lemma source_listings_nodup_child source n fs :
  source_listings_nodup source fs → source_listings_nodup (source // n) fs.
Proof. intros Hnd p Hp. apply Hnd. by eapply suffix_cons_l. Qed.

Lemma same_view_items_tail source target n rest fs fs' :
  same_view_items source target (n :: rest) fs fs' →
  same_view_items source target rest fs fs'.
Proof.
  intros (Ha & Hl & Hb). split_and!; [done..|].
  intros m q Hm. apply Hb. by right.
Qed.

Lemma second_counts_refl w1 w2 : second_counts w1 w1 w2 w2.
Proof. unfold second_counts. split_and!; [lia..|done]. Qed.

Lemma second_counts_trans w1 w1' w1'' w2 w2' w2'' :
  second_counts w1 w1' w2 w2' → second_counts w1' w1'' w2' w2'' →
  second_counts w1 w1'' w2 w2''.
Proof.
  unfold second_counts. intros (? & ? & ? & ? & ?) (? & ? & ? & ? & ?).
  split_and!; [lia..|congruence].
Qed.

Lemma second_counts_skip (w1 w1' w2 w2' : World) :
  stats w1' = incr_skipped (stats w1) ∨ stats w1' = incr_files_linked (stats w1) →
  stats w2' = incr_skipped (stats w2) →
  calls w2' = calls w2 →
  second_counts w1 w1' w2 w2'.
Proof.
  unfold second_counts. intros Hs1 Hs2 Hc. rewrite Hs2, Hc.
  destruct Hs1 as [-> | ->]; simpl; split_and!; (lia || done).
Qed.

Lemma second_counts_dir (w1 w1' w2 : World) :
  stats w1' = stats w1 ∨ stats w1' = incr_dirs_created (stats w1) →
  second_counts w1 w1' w2 w2.
Proof. unfold second_counts. intros [-> | ->]; simpl; split_and!; (lia || done). Qed.

Lemma file_calls_same dry fs src tgt :
  path_exists fs tgt = true → os_samefile fs src tgt = Return true →
  file_calls dry fs src tgt true = [].
Proof. intros H1 H2. unfold file_calls. rewrite H1, H2. by destruct dry. Qed.

Section Twice.

Context (fnmatch : string → string → bool) (first second : DirectoryHardlinker).
Context (exclude_patterns : option (list string)).
Hypothesis Hfirst : dry_run first = false.

Section Items.

Context (recurse1 recurse2 : path → path → M bool).
Hypothesis Hframe : ∀ s t w0,
  path_exists (disk w0) t = true →
  wp (recurse1 s t) (fun _ w' => agrees_outside (under t) (disk w0) (disk w')) w0.
Hypothesis Hsim : ∀ s t w1 w1' w2,
  disjoint_paths s t →
  path_exists (disk w1) t = true →
  source_listings_nodup s (disk w1) →
  recurse1 s t w1 = (Return true, w1') →
  same_view s t (disk w1') (disk w2) →
  ∃ w2', recurse2 s t w2 = (Return true, w2')
    ∧ disk w2' = disk w2 ∧ second_counts w1 w1' w2 w2'.

Lemma second_run_items source target items success w1 w1' w2 :
  disjoint_paths source target →
  NoDup items →
  path_exists (disk w1) target = true →
  source_listings_nodup source (disk w1) →
  walk_items fnmatch first true exclude_patterns recurse1 source target items success w1
    = (Return true, w1') →
  same_view_items source target items (disk w1') (disk w2) →
  ∃ w2',
    walk_items fnmatch second true exclude_patterns recurse2 source target items success w2
      = (Return true, w2')
    ∧ disk w2' = disk w2 ∧ second_counts w1 w1' w2 w2'.
Proof.
  intros Hdis. revert success w1 w2.
  induction items as [|n rest IH]; intros success w1 w2 Hnd Hex Hls Hrun Hview.
  { cbn [walk_items] in *. injection Hrun as -> ->.
    eexists. split_and!; [reflexivity|done|apply second_counts_refl]. }
  apply NoDup_cons in Hnd as [Hn Hnd].
  pose proof Hview as (Ha & Hl & Hb).
  (* the source tree is the same before and after the first run, and in the
     second *)
  pose proof (real_walk_items_frame fnmatch first true exclude_patterns recurse1
                source target (n :: rest) success w1 Hfirst Hframe Hex) as Hall.
  eapply wp_elim in Hall; [|exact Hrun].
  destruct (agrees_source source target _ _ _ Hdis (fun q H => H) Hall) as [Hsrc _].
  assert (∀ q, source `suffix_of` q → os_stat (disk w2) q = os_stat (disk w1) q) as Hsrc2.
  { intros q Hq. rewrite Ha by done. by apply Hsrc. }
  (* what is left of the loop *)
  assert (∀ w1a w2a s,
    agrees_outside (fun q => (target // n) `suffix_of` q) (disk w1) (disk w1a) →
    disk w2a = disk w2 →
    second_counts w1 w1a w2 w2a →
    walk_items fnmatch first true exclude_patterns recurse1 source target rest s w1a
      = (Return true, w1') →
    ∃ w2',
      walk_items fnmatch second true exclude_patterns recurse2 source target rest s w2a
        = (Return true, w2')
      ∧ disk w2' = disk w2 ∧ second_counts w1 w1' w2 w2') as Hnext.
  { intros w1a w2a s Hfr Hd2 Hc1 Hrun1.
    destruct (agrees_source source target _ _ _ Hdis (under_below target n) Hfr) as [_ Hl1].
    edestruct (IH s w1a w2a) as (w2' & Hrun2 & Hd2' & Hc); [done| | |done| |].
    - erewrite path_exists_agrees; [done..|]. apply suffix_cons_not.
    - by eapply source_listings_nodup_agrees.
    - rewrite Hd2. by eapply same_view_items_tail.
    - exists w2'. split_and!; [done|congruence|]. eauto using second_counts_trans. }
  destruct (_should_exclude fnmatch (source // n) exclude_patterns) eqn:Hexcl.
  { rewrite walk_items_excluded in Hrun |- * by done.
    eapply Hnext; [| | |exact Hrun].
    - world_simpl. apply agrees_outside_refl.
    - by world_simpl.
    - apply second_counts_skip; world_simpl; auto. }
  assert (is_file (disk w2) (source // n) = is_file (disk w1) (source // n)) as Hf.
  { unfold is_file. rewrite Hsrc2; [done|]. by apply suffix_cons_r. }
  assert (is_dir (disk w2) (source // n) = is_dir (disk w1) (source // n)) as Hd.
  { unfold is_dir. rewrite Hsrc2; [done|]. by apply suffix_cons_r. }
  destruct (is_file (disk w1) (source // n)) eqn:Hfile.
  { destruct (hardlink_file_step first (source // n) (target // n) true w1)
      as (w1a & Hrun1 & Hdisk1 & Hstats1).
    rewrite Hfirst in *.
    erewrite walk_items_file in Hrun by done.
    pose proof (walk_items_success _ _ _ _ _ _ _ _ _ _ _ Hrun) as Hok.
    apply andb_true_iff in Hok as [-> Hok]. rewrite Hok in *.
    destruct (file_step_real_done _ _ _ Hok) as [Hex1 Hsame1].
    rewrite <-Hdisk1 in Hex1, Hsame1.
    assert (agrees_outside (fun q => (target // n) `suffix_of` q) (disk w1) (disk w1a))
      as Hfr1.
    { rewrite Hdisk1. eapply agrees_outside_weaken; [|apply file_step_frame].
      by intros ? ->. }
    (* the rest of the first run leaves this file alone *)
    pose proof (real_walk_items_frame_items fnmatch first true exclude_patterns recurse1
                  source target rest true w1a Hfirst Hframe) as Hrest.
    eapply wp_elim in Hrest; [| |exact Hrun];
      [|erewrite path_exists_agrees; [done..|]; apply suffix_cons_not].
    destruct Hrest as [Hrest _].
    assert (os_stat (disk w2) (target // n) = os_stat (disk w1a) (target // n)) as Ht2.
    { rewrite (Hb n) by (by left || done). apply Hrest.
      by apply not_below_items_sibling with n. }
    assert (os_stat (disk w2) (source // n) = os_stat (disk w1a) (source // n)) as Hs2.
    { rewrite Ha by by apply suffix_cons_r. apply Hrest.
      eapply not_below_items_source; [done|]. by apply suffix_cons_r. }
    destruct (hardlink_file_step second (source // n) (target // n) true w2)
      as (w2a & Hrun2 & Hdisk2 & Hstats2).
    assert (file_step (dry_run second) (disk w2) (source // n) (target // n) true
            = (FileSkipped, disk w2)) as Hstep2.
    { apply file_step_same.
      - unfold path_exists in *. by rewrite Ht2.
      - erewrite os_samefile_ext; [exact Hsame1|done..]. }
    rewrite Hstep2 in Hrun2, Hdisk2, Hstats2. simpl in Hrun2, Hdisk2, Hstats2.
    erewrite walk_items_file by (done || congruence).
    eapply Hnext; [done|done| |exact Hrun].
    apply second_counts_skip; [|done|].
    - rewrite Hstats1. destruct (file_step false _ _ _ _).1; simpl in *; auto. done.
    - pose proof (hardlink_file_calls second (source // n) (target // n) true w2) as Hcalls.
      eapply wp_elim in Hcalls; [|exact Hrun2].
      rewrite file_calls_same, app_nil_r in Hcalls; [done| |].
      + unfold path_exists in *. by rewrite Ht2.
      + erewrite os_samefile_ext; [exact Hsame1|done..]. }
  destruct (is_dir (disk w1) (source // n)) eqn:Hdir.
  - cbn [walk_items] in Hrun. rewrite Hexcl, bind_run in Hrun.
    unfold query at 1 in Hrun. rewrite Hfile, bind_run in Hrun.
    unfold query at 1 in Hrun. rewrite Hdir, bind_run in Hrun. simpl name in Hrun.
    destruct (ensure_dir first _ _ w1) as [[[]|e] w1a] eqn:Hens; [|done].
    rewrite bind_run in Hrun.
    destruct (recurse1 _ _ w1a) as [[ok|e] w1b] eqn:Hrec; [|done].
    pose proof (walk_items_success _ _ _ _ _ _ _ _ _ _ _ Hrun) as Hok.
    apply andb_true_iff in Hok as [-> ->].
    pose proof (real_ensure_dir_child first "Created directory: " n target w1 Hfirst Hex)
      as Hfr1.
    eapply wp_elim in Hfr1 as [Hfr1 Hex1]; [|exact Hens]. specialize (Hex1 eq_refl).
    pose proof (Hframe (source // n) (target // n) w1a Hex1) as Hfr2.
    eapply wp_elim in Hfr2; [|exact Hrec].
    assert (agrees_outside (fun q => (target // n) `suffix_of` q) (disk w1) (disk w1b))
      as Hfr12.
    { eapply agrees_outside_trans.
      - eapply agrees_outside_weaken; [|exact Hfr1]. by intros ? ->.
      - eapply agrees_outside_weaken; [|exact Hfr2]. by intros ? [? _]. }
    pose proof (real_walk_items_frame_items fnmatch first true exclude_patterns recurse1
                  source target rest true w1b Hfirst Hframe) as Hrest.
    eapply wp_elim in Hrest; [| |exact Hrun];
      [|erewrite path_exists_agrees; [done..|]; apply suffix_cons_not].
    destruct (agrees_source source target _ _ _ Hdis (below_items_under target rest) Hrest)
      as [Hrs Hrl].
    destruct Hrest as [Hrest _].
    (* the target directory is there in the second run *)
    assert (path_exists (disk w2) (target // n) = true) as Hex2.
    { unfold path_exists in *. rewrite (Hb n) by (by left || done).
      rewrite Hrest by by apply not_below_items_sibling with n.
      destruct Hfr2 as [Hfr2 _]. rewrite Hfr2 by apply not_under_self. done. }
    edestruct (Hsim (source // n) (target // n) w1a w1b w2) as (w2b & Hrec2 & Hd2 & Hc2);
      [by apply disjoint_paths_child|done| |done| |].
    { apply source_listings_nodup_child.
      destruct (agrees_source source target _ _ _ Hdis
                  (fun q (H : q = target // n) => eq_ind_r _ (under_child target n) H) Hfr1)
        as [_ Hl1].
      by eapply source_listings_nodup_agrees. }
    { split_and!.
      - intros q Hq%suffix_cons_l. rewrite Ha by done. by apply Hrs.
      - intros p Hp%suffix_cons_l. rewrite Hl by done. by apply Hrl.
      - intros q [Hq Hne]. rewrite (Hb n) by (by left || done).
        apply Hrest. by apply not_below_items_sibling with n. }
    erewrite walk_items_dir; [|done|congruence|congruence| |exact Hrec2].
    2: { rewrite ensure_dir_run. by rewrite Hex2. }
    eapply Hnext; [done|done| |exact Hrun].
    eapply second_counts_trans; [|exact Hc2].
    apply second_counts_dir. rewrite ensure_dir_run in Hens. rewrite Hfirst in Hens.
    repeat case_match; simplify_eq; world_simpl; auto.
  - rewrite walk_items_skip in Hrun by done.
    rewrite walk_items_skip by congruence.
    eapply Hnext; [| | |exact Hrun].
    + world_simpl. apply agrees_outside_refl.
    + by world_simpl.
    + apply second_counts_skip; world_simpl; auto.
Qed.

End Items.

Lemma second_run_rec depth source target w1 w1' w2 :
  disjoint_paths source target →
  path_exists (disk w1) target = true →
  source_listings_nodup source (disk w1) →
  _hardlink_recursive fnmatch first true exclude_patterns depth source target w1
    = (Return true, w1') →
  same_view source target (disk w1') (disk w2) →
  ∃ w2',
    _hardlink_recursive fnmatch second true exclude_patterns depth source target w2
      = (Return true, w2')
    ∧ disk w2' = disk w2 ∧ second_counts w1 w1' w2 w2'.
Proof.
  revert source target w1 w1' w2.
  induction depth as [|depth IH]; intros source target w1 w1' w2 Hdis Hex Hls Hrun Hview;
    cbn [_hardlink_recursive] in *; [done|].
  unfold try_except in *. rewrite bind_run in *. unfold call at 1 in Hrun. unfold call at 1.
  destruct (os_iterdir (disk w1) source) as [items|e] eqn:Hit;
    [|by destruct (is_PermissionError e)].
  destruct (walk_items fnmatch first _ _ _ _ _ items true w1) as [[ok|e] w1a] eqn:Hwalk;
    [|by destruct (is_PermissionError e)].
  simplify_eq.
  assert (∀ s t w0, path_exists (disk w0) t = true →
    wp (_hardlink_recursive fnmatch first true exclude_patterns depth s t)
       (fun _ w' => agrees_outside (under t) (disk w0) (disk w')) w0) as Hframe.
  { intros. by apply real_hardlink_recursive_frame. }
  pose proof (real_walk_items_frame fnmatch first true exclude_patterns _
                source target items true w1 Hfirst Hframe Hex) as Hall.
  eapply wp_elim in Hall; [|exact Hwalk].
  destruct (agrees_source source target _ _ _ Hdis (fun q H => H) Hall) as [Hs Hl].
  destruct Hview as (Ha & Hl' & Hb).
  assert (os_iterdir (disk w2) source = Return items) as ->.
  { rewrite <-Hit. unfold os_iterdir. by rewrite Ha, Hl', Hs, Hl. }
  edestruct (second_run_items
               (_hardlink_recursive fnmatch first true exclude_patterns depth)
               (_hardlink_recursive fnmatch second true exclude_patterns depth))
    as (w2' & Hrun2 & Hd2 & Hc); [done| |done| |done|done|exact Hwalk| |].
  - intros. by eapply IH.
  - unfold os_iterdir in Hit. repeat case_match; simplify_eq. by apply Hls.
  - by apply same_view_to_items.
  - rewrite Hrun2. eauto.
Qed.

End Twice.

Lemma disk_init fs : disk (init fs) = fs.
Proof. done. Qed.


(** ** The claims at concrete inputs *)









(** C9: the code does not keep this promise.  The target root is created
    outside every [try]: when [/ro] is not writable, [PermissionError] leaves
    [hardlink_directory] as an exception instead of a [False] result, and no
    counter records it. *)
Theorem mkdir_error_escapes :
  wf_fs fs_readonly = true
  ∧ hardlink_directory glob_match real_run false None 10 ["s"] ["t"; "ro"] (init fs_readonly)
    = (Raise (OSError EACCES ["t"; "ro"] None),
       note_call (Mkdir ["t"; "ro"]) (init fs_readonly)).
Proof. split; vm_compute; reflexivity. Qed.



(** A dry run of a whole tree. *)
Lemma dry_run_no_mutation_witness :
  calls (hardlink_directory glob_match dry_run_only true None 10 ["s"] ["t"] (init fs_tree)).2
  = calls (init fs_tree)
  ∧ disk (hardlink_directory glob_match dry_run_only true None 10 ["s"] ["t"]
            (init fs_tree)).2
    = disk (init fs_tree).
Proof.
  apply (dry_run_no_mutation glob_match dry_run_only true None 10 ["s"] ["t"] (init fs_tree)).
  reflexivity.
Defined.


(** * Further properties *)

(** ** An invariant rule for the walk

    What the single-file operation and the creation of a directory keep,
    and the bookkeeping between them respects, the whole of
    [hardlink_directory] keeps. *)

Section Invariant.

Context (fnmatch : string → string → bool) (self : DirectoryHardlinker).
Context (overwrite : bool) (exclude_patterns : option (list string)).

(** [Q b w w']: what holds between the world [w] before and [w'] after a
    piece of the run; [b] tells whether the piece ended with an exception. *)
Context (Q : bool → World → World → Prop).

Hypothesis Q_refl : ∀ w, Q false w w.
Hypothesis Q_trans : ∀ b w1 w2 w3, Q false w1 w2 → Q b w2 w3 → Q b w1 w3.
Hypothesis Q_raise : ∀ w w', Q false w w' → Q true w w'.
Hypothesis Q_log : ∀ m l w, Q false w (log_world self m l w).
Hypothesis Q_skipped : ∀ w, Q false w (set_stats incr_skipped w).
Hypothesis Q_caught : ∀ m l w w',
  Q true w w' → Q false w (set_stats incr_errors (log_world self m l w')).
Hypothesis Q_file : ∀ src tgt w,
  wp (_hardlink_file self src tgt overwrite) (fun _ w' => Q false w w') w.
Hypothesis Q_ensure_dir : ∀ created t w,
  wp (ensure_dir self created t) (fun o w' => Q (raised o) w w') w.

Lemma walk_items_invariant recurse source target items success w :
  (∀ s t w0, wp (recurse s t)
     (fun o w' => if raised o then w' = w0 else Q false w0 w') w0) →
  wp (walk_items fnmatch self overwrite exclude_patterns recurse source target items success)
     (fun o w' => Q (raised o) w w') w.
Proof.
  intros Hrec.
  cut (∀ w0, Q false w0 w →
         wp (walk_items fnmatch self overwrite exclude_patterns recurse source target
               items success) (fun o w' => Q (raised o) w0 w') w); [by auto|].
  revert success w.
  induction items as [|item_name rest IH]; intros success w w0 H0; cbn [walk_items].
  - by apply wp_ret.
  - destruct (_should_exclude _ _ _).
    { wp_auto. apply IH. eauto. }
    apply wp_bind, wp_query. destruct (is_file _ _).
    { apply wp_bind. eapply wp_mono; [apply Q_file|].
      intros [ok|e] w1 Hw1.
      - apply IH. eauto.
      - simpl. eauto. }
    apply wp_bind, wp_query. destruct (is_dir _ _).
    + apply wp_bind. eapply wp_mono; [apply Q_ensure_dir|].
      intros [[]|e] w1 Hw1; simpl in *; [|by eauto].
      apply wp_bind. eapply wp_mono; [apply Hrec|].
      intros [ok|e] w2 Hw2; simpl in *.
      * apply IH. eauto.
      * subst w2. eauto.
    + wp_auto. apply IH. eauto.
Qed.

Lemma hardlink_recursive_invariant depth source target w :
  wp (_hardlink_recursive fnmatch self overwrite exclude_patterns depth source target)
     (fun o w' => if raised o then w' = w else Q false w w') w.
Proof.
  revert source target w.
  induction depth as [|depth IH]; intros source target w; cbn [_hardlink_recursive].
  - by apply wp_raise.
  - apply wp_try_except, wp_bind, wp_call.
    destruct (os_iterdir _ _) as [items|e].
    + eapply wp_mono; [by apply walk_items_invariant|].
      intros [ok|e] w1 Hw1; simpl in *; [done|]. wp_auto; simpl; eauto.
    + wp_auto; simpl; eauto.
Qed.

Lemma hardlink_directory_invariant depth source target w :
  wp (hardlink_directory fnmatch self overwrite exclude_patterns depth source target)
     (fun o w' => Q (raised o) w w') w.
Proof.
  unfold hardlink_directory.
  apply wp_bind, wp_query. destruct (path_exists _ _); simpl; [|by wp_auto].
  apply wp_bind, wp_query. destruct (is_dir _ _); simpl; [|by wp_auto].
  apply wp_bind. eapply wp_mono; [apply Q_ensure_dir|].
  intros [[]|e] w1 Hw1; simpl in *; [|done].
  apply wp_try_except.
  eapply wp_mono; [apply hardlink_recursive_invariant|].
  intros [ok|e] w2 Hw2; simpl in *; [by eauto|].
  subst w2. wp_auto. simpl. eauto.
Qed.

End Invariant.


(** ** Exceptions that leave [hardlink_directory] *)

Lemma try_except_run {A} (m : M A) h w :
  try_except m h w = match m w with
                     | (Return a, w') => (Return a, w')
                     | (Raise e, w') => h e w'
                     end.
Proof. done. Qed.

Lemma hardlink_directory_raise_inv fnmatch self ow pats depth source target w e w' :
  hardlink_directory fnmatch self ow pats depth source target w = (Raise e, w') ↔
  is_dir (disk w) source = true ∧ path_exists (disk w) target = false ∧
  dry_run self = false ∧ mkdir_parents (disk w) target = Raise e ∧
  w' = note_call (Mkdir target) w.
Proof.
  unfold hardlink_directory. rewrite bind_run. unfold query at 1.
  destruct (path_exists (disk w) source) eqn:Hex; cbn [negb].
  2:{ rewrite bind_run. split; [done|]. intros (Hd & _).
      unfold is_dir, path_exists in *. by destruct (os_stat _ _). }
  rewrite bind_run. unfold query at 1.
  destruct (is_dir (disk w) source) eqn:Hdir; cbn [negb].
  2:{ rewrite bind_run. split; [done|]. by intros (? & _). }
  rewrite bind_run, ensure_dir_run.
  assert (∀ w1, try_except (_hardlink_recursive fnmatch self ow pats depth source target)
            (λ e0, log self ("Error during hardlinking: " +:+ str_exn e0) "ERROR" ≫= λ _, mret false) w1
            ≠ (Raise e, w')) as Hno.
  { intros w1. rewrite try_except_run.
    destruct (_hardlink_recursive _ _ _ _ _ _ _ w1) as [[ok|e1] w2]; [done|].
    by rewrite bind_run. }
  destruct (path_exists (disk w) target).
  { split; [intros H; by apply Hno in H|]. by intros (_ & ? & _). }
  destruct (dry_run self).
  { split; [intros H; by apply Hno in H|]. by intros (_ & _ & ? & _). }
  destruct (mkdir_parents (disk w) target) as [fs'|e1].
  { split; [intros H; by apply Hno in H|]. by intros (_ & _ & _ & ? & _). }
  split.
  - intros [= -> <-]. done.
  - intros (_ & _ & _ & [= ->] & ->). done.
Qed.



(** ** The counters only grow *)

Lemma stats_le_refl s : stats_le s s.
Proof. unfold stats_le. lia. Qed.

(** X2: no counter ever decreases in a run of [hardlink_directory], however
    the run ends. *)
Theorem counters_never_decrease fnmatch self ow pats depth source target w :
  stats_le (stats w) (stats (hardlink_directory fnmatch self ow pats depth source target w).2).
Proof.
  apply (hardlink_directory_invariant fnmatch self ow pats
           (fun _ w w' => stats_le (stats w) (stats w'))).
  all: try (intros; unfold stats_le in *; world_simpl; lia).
  - intros src tgt w0. unfold _hardlink_file, hardlink_file_body, create_hardlink.
    wp_auto; unfold stats_le; world_simpl; lia.
  - intros created t w0. unfold ensure_dir. wp_auto; unfold stats_le; world_simpl; lia.
Qed.


(** ** What a run keeps *)

Lemma kept_refl ow fs : kept ow fs fs.
Proof. by intros q s. Qed.

Lemma kept_trans ow fs1 fs2 fs3 : kept ow fs1 fs2 → kept ow fs2 fs3 → kept ow fs1 fs3.
Proof. intros H1 H2 q s Hq Hc. eauto. Qed.

Lemma kept_add_entry ow fs p s : kept ow fs (add_entry fs p s).
Proof. intros q x Hq _. by rewrite os_stat_add_entry, Hq. Qed.

Lemma os_link_kept ow fs src dst fs' : os_link fs src dst = Return fs' → kept ow fs fs'.
Proof. intros (s & _ & _ & ->)%os_link_Return. apply kept_add_entry. Qed.

Lemma os_unlink_kept fs p fs' : os_unlink fs p = Return fs' → kept true fs fs'.
Proof.
  unfold os_unlink. intros H q x Hq [?|Hk]; [done|].
  destruct (os_stat fs p) as [s|] eqn:Hp; [|done].
  destruct (negb _); [done|].
  destruct (bool_decide (st_kind s = Directory)) eqn:Hd; [done|].
  apply bool_decide_eq_false in Hd. simplify_eq.
  rewrite os_stat_remove_entry. destruct (decide (q = p)) as [->|]; [|done].
  congruence.
Qed.

Lemma os_mkdir_kept ow fs p fs' : os_mkdir fs p = Return fs' → kept ow fs fs'.
Proof. intros (s & _ & _ & ->)%os_mkdir_Return. apply kept_add_entry. Qed.

Lemma mkdir_exist_ok_kept ow fs p fs' : mkdir_exist_ok fs p = Return fs' → kept ow fs fs'.
Proof.
  unfold mkdir_exist_ok. destruct (os_mkdir fs p) as [fs1|e] eqn:Hm.
  - intros [= <-]. by eapply os_mkdir_kept.
  - destruct (is_FileNotFoundError e); [done|]. destruct (is_dir fs p); [|done].
    intros [= <-]. apply kept_refl.
Qed.

Lemma mkdir_parents_kept ow fs p fs' : mkdir_parents fs p = Return fs' → kept ow fs fs'.
Proof.
  revert fs'. induction p as [|n q IH]; intros fs'; rewrite mkdir_parents_unfold.
  - destruct (os_mkdir fs []) as [fs1|e] eqn:Hm.
    + intros [= <-]. by eapply os_mkdir_kept.
    + destruct (is_FileNotFoundError e); [done|]. destruct (is_dir fs []); [|done].
      intros [= <-]. apply kept_refl.
  - destruct (os_mkdir fs (n :: q)) as [fs1|e] eqn:Hm.
    + intros [= <-]. by eapply os_mkdir_kept.
    + destruct (is_FileNotFoundError e).
      * destruct (mkdir_parents fs q) as [fs1|e1]; [|done].
        intros H. eapply kept_trans; [by apply IH|by eapply mkdir_exist_ok_kept].
      * destruct (is_dir fs (n :: q)); [|done]. intros [= <-]. apply kept_refl.
Qed.

Lemma file_step_kept dry fs src tgt ow : kept ow fs (file_step dry fs src tgt ow).2.
Proof.
  unfold file_step.
  destruct (path_exists fs tgt); [destruct ow|].
  - destruct (os_samefile fs src tgt) as [[]|]; simpl; try apply kept_refl.
    destruct dry; simpl; [apply kept_refl|].
    destruct (os_unlink fs tgt) as [fs1|] eqn:Hu; simpl; [|apply kept_refl].
    destruct (os_link fs1 src tgt) as [fs2|] eqn:Hl; simpl.
    + eapply kept_trans; [by eapply os_unlink_kept|by eapply os_link_kept].
    + by eapply os_unlink_kept.
  - apply kept_refl.
  - destruct dry; simpl; [apply kept_refl|].
    destruct (os_link fs src tgt) as [fs2|] eqn:Hl; simpl; [|apply kept_refl].
    by eapply os_link_kept.
Qed.

Lemma hardlink_directory_kept fnmatch self ow pats depth source target w :
  kept ow (disk w) (disk (hardlink_directory fnmatch self ow pats depth source target w).2).
Proof.
  apply (hardlink_directory_invariant fnmatch self ow pats
           (fun _ w w' => kept ow (disk w) (disk w'))).
  all: try (intros; world_simpl; by eauto using kept_refl, kept_trans).
  - intros src tgt w0. apply wp_intro. intros o w' Hrun.
    destruct (hardlink_file_step self src tgt ow w0) as (w1 & Hrun1 & Hd & _).
    rewrite Hrun in Hrun1. simplify_eq. rewrite Hd. apply file_step_kept.
  - intros created t w0. unfold wp. rewrite ensure_dir_run.
    destruct (path_exists _ _); [apply kept_refl|].
    destruct (dry_run self); [world_simpl; apply kept_refl|].
    destruct (mkdir_parents _ _) eqn:Hm; world_simpl; [|apply kept_refl].
    by eapply mkdir_parents_kept.
Qed.

Ltac count_finish :=
  unfold count_calls; world_simpl; rewrite ?filter_app, ?length_app; simpl; try lia.

Lemma hardlink_directory_no_unlink fnmatch self pats depth source target w :
  count_calls is_unlink (hardlink_directory fnmatch self false pats depth source target w).2
  = count_calls is_unlink w.
Proof.
  apply (hardlink_directory_invariant fnmatch self false pats
           (fun _ w w' => count_calls is_unlink w' = count_calls is_unlink w)).
  all: try (intros; unfold count_calls in *; world_simpl; congruence).
  - intros src tgt w0. eapply wp_mono; [apply hardlink_file_calls|]. simpl. intros _ w' Hc.
    unfold count_calls. rewrite Hc, filter_app, length_app.
    unfold file_calls. destruct (dry_run self); [simpl; lia|].
    destruct (path_exists _ _); simpl; lia.
  - intros created t w0. unfold wp. rewrite ensure_dir_run.
    destruct (path_exists _ _); [done|].
    destruct (dry_run self); [by count_finish|].
    destruct (mkdir_parents _ _) eqn:Hm; simpl; count_finish.
Qed.


(** X4: whatever the flags, a directory that exists before the run is the
    same directory after it. *)
Theorem directories_are_never_removed fnmatch self ow pats depth source target w q :
  is_dir (disk w) q = true →
  os_stat (disk (hardlink_directory fnmatch self ow pats depth source target w).2) q
  = os_stat (disk w) q.
Proof.
  unfold is_dir. destruct (os_stat (disk w) q) as [s|] eqn:Hq; [|done].
  intros Hk%bool_decide_eq_true.
  by apply (hardlink_directory_kept fnmatch self ow pats depth source target w q s Hq); right.
Qed.

(** ** Printing *)

Lemma stdout_log_quiet self m l w :
  verbose self = false → stdout (log_world self m l w) = stdout w.
Proof. unfold log_world. by intros ->. Qed.

Ltac quiet_finish Hq := repeat (progress (simpl; rewrite ?(stdout_log_quiet _ _ _ _ Hq))).

(** X5: a hardlinker that is not verbose prints nothing. *)
Theorem quiet_run_prints_nothing fnmatch self ow pats depth source target w :
  verbose self = false →
  stdout (hardlink_directory fnmatch self ow pats depth source target w).2 = stdout w.
Proof.
  intros Hq.
  apply (hardlink_directory_invariant fnmatch self ow pats
           (fun _ w w' => stdout w' = stdout w)).
  all: try (intros; quiet_finish Hq; congruence).
  - intros src tgt w0. unfold _hardlink_file, hardlink_file_body, create_hardlink.
    wp_auto; quiet_finish Hq; done.
  - intros created t w0. unfold ensure_dir. wp_auto; quiet_finish Hq; done.
Qed.

(** ** Calls and counters *)

Lemma hardlink_directory_accounted fnmatch self ow pats depth source target w :
  dry_run self = false →
  wp (hardlink_directory fnmatch self ow pats depth source target)
     (fun o w' => calls_accounted (raised o) w w') w.
Proof.
  intros Hreal.
  apply (hardlink_directory_invariant fnmatch self ow pats calls_accounted).
  all: try (intros; unfold calls_accounted, count_calls in *; world_simpl; lia).
  - intros src tgt w0. unfold _hardlink_file, hardlink_file_body, create_hardlink.
    rewrite Hreal. wp_auto; unfold calls_accounted; count_finish.
  - intros created t w0. unfold ensure_dir. rewrite Hreal.
    wp_auto; unfold calls_accounted; count_finish.
Qed.

Lemma hardlink_directory_true fnmatch self ow pats depth source target w w' :
  hardlink_directory fnmatch self ow pats depth source target w = (Return true, w') →
  errors (stats w') = errors (stats w).
Proof.
  intros Hrun.
  cut (wp (hardlink_directory fnmatch self ow pats depth source target)
         (fun o w' => o = Return true → errors (stats w') = errors (stats w)) w).
  { intros H. eapply wp_elim in H; [|exact Hrun]. auto. }
  unfold hardlink_directory.
  apply wp_bind, wp_query. destruct (path_exists _ _); simpl; [|by wp_auto].
  apply wp_bind, wp_query. destruct (is_dir _ _); simpl; [|by wp_auto].
  apply wp_bind. eapply wp_mono; [apply ensure_dir_errors|].
  intros [[]|e] w1 Hw1; [|done].
  apply wp_try_except.
  eapply wp_mono; [apply hardlink_recursive_tracks_errors|].
  intros [ok|e] w2 [Hle Hok]; [|by wp_auto].
  intros [= ->]. destruct Hok as [Hok _]. destruct Hok; [done|]. congruence.
Qed.

(** X6: the counters of a real run that returns tell what was done: every
    file counted in [files_linked] was linked by a call of [link] and every
    directory counted in [dirs_created] made by a call of [mkdir]; the calls
    beyond these, and the calls of [unlink] beyond the files linked, are
    matched by counted errors.  When the run returns [True] the two counters
    are exactly the numbers of [link] and [mkdir] calls. *)
Theorem statistics_match_calls fnmatch self ow pats depth source target fs ok w' :
  dry_run self = false →
  hardlink_directory fnmatch self ow pats depth source target (init fs) = (Return ok, w') →
  files_linked (stats w') ≤ count_calls is_link w'
  ∧ count_calls is_link w' ≤ files_linked (stats w') + errors (stats w')
  ∧ dirs_created (stats w') ≤ count_calls is_mkdir w'
  ∧ count_calls is_mkdir w' ≤ dirs_created (stats w') + errors (stats w')
  ∧ count_calls is_unlink w' ≤ files_linked (stats w') + errors (stats w')
  ∧ (ok = true →
     count_calls is_link w' = files_linked (stats w')
     ∧ count_calls is_mkdir w' = dirs_created (stats w')).
Proof.
  intros Hreal Hrun.
  pose proof (hardlink_directory_accounted fnmatch self ow pats depth source target
                (init fs) Hreal) as H.
  eapply wp_elim in H; [|exact Hrun]. unfold calls_accounted, count_calls in *.
  simpl in H. split_and!; try lia.
  intros ->. apply hardlink_directory_true in Hrun. simpl in Hrun. lia.
Qed.

(** ** The verbose flag *)

Lemma sim_ret {A} (a : A) : same_but_printing (mret a) (mret a).
Proof. done. Qed.

Lemma sim_bind {A B} (m1 m2 : M A) (f1 f2 : A → M B) :
  same_but_printing m1 m2 → (∀ a, same_but_printing (f1 a) (f2 a)) →
  same_but_printing (m1 ≫= f1) (m2 ≫= f2).
Proof.
  intros Hm Hf w. rewrite !bind_run. destruct (Hm w) as [H1 H2].
  destruct (m1 w) as [[a|e] w1], (m2 (mute w)) as [o2 w2]; simpl in *; subst.
  - apply Hf.
  - done.
Qed.

Lemma sim_try_except {A} (m1 m2 : M A) (h1 h2 : exn → M A) :
  same_but_printing m1 m2 → (∀ e, same_but_printing (h1 e) (h2 e)) →
  same_but_printing (try_except m1 h1) (try_except m2 h2).
Proof.
  intros Hm Hh w. unfold try_except. destruct (Hm w) as [H1 H2].
  destruct (m1 w) as [[a|e] w1], (m2 (mute w)) as [o2 w2]; simpl in *; subst.
  - done.
  - apply Hh.
Qed.

Lemma sim_raise {A} e : same_but_printing (raise (A:=A) e) (raise e).
Proof. done. Qed.

Lemma sim_query {A} (f : FS → A) : same_but_printing (query f) (query f).
Proof. done. Qed.

Lemma sim_call {A} (f : FS → outcome A) : same_but_printing (call f) (call f).
Proof. intros w. unfold call. simpl. by destruct (f (disk w)). Qed.

Lemma sim_syscall c f : same_but_printing (syscall c f) (syscall c f).
Proof. intros w. unfold syscall. simpl. by destruct (f (disk w)). Qed.

Lemma sim_modify_stats f : same_but_printing (modify_stats f) (modify_stats f).
Proof. done. Qed.

Lemma sim_when b m1 m2 :
  same_but_printing m1 m2 → same_but_printing (when b m1) (when b m2).
Proof. by destruct b. Qed.

Lemma sim_log self1 self2 m1 l1 m2 l2 :
  verbose self2 = false → same_but_printing (log self1 m1 l1) (log self2 m2 l2).
Proof.
  intros Hq w. unfold log. rewrite Hq. simpl. by destruct (verbose self1).
Qed.

Ltac sim_step Hq :=
  lazymatch goal with
  | |- same_but_printing (_ ≫= _) _ => apply sim_bind; [|intros ?]
  | |- same_but_printing (mret _) _ => apply sim_ret
  | |- same_but_printing (try_except _ _) _ => apply sim_try_except; [|intros ?]
  | |- same_but_printing (raise _) _ => apply sim_raise
  | |- same_but_printing (query _) _ => apply sim_query
  | |- same_but_printing (call _) _ => apply sim_call
  | |- same_but_printing (syscall _ _) _ => apply sim_syscall
  | |- same_but_printing (modify_stats _) _ => apply sim_modify_stats
  | |- same_but_printing (log _ _ _) _ => apply (sim_log _ _ _ _ _ _ Hq)
  | |- same_but_printing (when _ _) _ => apply sim_when
  | |- same_but_printing (if ?b then _ else _) _ => destruct b
  | |- same_but_printing (match ?e with _ => _ end) _ => destruct e
  end.

Section Printing.

Context (fnmatch : string → string → bool) (loud quiet : DirectoryHardlinker).
Context (overwrite : bool) (exclude_patterns : option (list string)).
Hypothesis Hdry : dry_run quiet = dry_run loud.
Hypothesis Hquiet : verbose quiet = false.

Lemma sim_hardlink_file src tgt :
  same_but_printing (_hardlink_file loud src tgt overwrite)
                    (_hardlink_file quiet src tgt overwrite).
Proof.
  unfold _hardlink_file, hardlink_file_body, create_hardlink. rewrite Hdry.
  repeat sim_step Hquiet.
Qed.

Lemma sim_ensure_dir created target :
  same_but_printing (ensure_dir loud created target) (ensure_dir quiet created target).
Proof. unfold ensure_dir. rewrite Hdry. repeat sim_step Hquiet. Qed.

Lemma sim_walk_items recurse1 recurse2 source target items success :
  (∀ s t, same_but_printing (recurse1 s t) (recurse2 s t)) →
  same_but_printing
    (walk_items fnmatch loud overwrite exclude_patterns recurse1 source target items success)
    (walk_items fnmatch quiet overwrite exclude_patterns recurse2 source target items success).
Proof.
  intros Hrec. revert success.
  induction items as [|item_name rest IH]; intros success; cbn [walk_items].
  - apply sim_ret.
  - destruct (_should_exclude _ _ _).
    { repeat sim_step Hquiet. apply IH. }
    apply sim_bind; [apply sim_query|]. intros [].
    { apply sim_bind; [apply sim_hardlink_file|]. intros ok. apply IH. }
    apply sim_bind; [apply sim_query|]. intros [].
    + apply sim_bind; [apply sim_ensure_dir|]. intros _.
      apply sim_bind; [apply Hrec|]. intros ok. apply IH.
    + repeat sim_step Hquiet. apply IH.
Qed.

Lemma sim_hardlink_recursive depth source target :
  same_but_printing
    (_hardlink_recursive fnmatch loud overwrite exclude_patterns depth source target)
    (_hardlink_recursive fnmatch quiet overwrite exclude_patterns depth source target).
Proof.
  revert source target. induction depth as [|depth IH]; intros source target;
    cbn [_hardlink_recursive].
  - apply sim_raise.
  - apply sim_try_except.
    + apply sim_bind; [apply sim_call|]. intros items. by apply sim_walk_items.
    + intros e. repeat sim_step Hquiet.
Qed.

Lemma sim_hardlink_directory depth source target :
  same_but_printing
    (hardlink_directory fnmatch loud overwrite exclude_patterns depth source target)
    (hardlink_directory fnmatch quiet overwrite exclude_patterns depth source target).
Proof.
  unfold hardlink_directory.
  apply sim_bind; [apply sim_query|]. intros [].
  2:{ simpl. repeat sim_step Hquiet. }
  apply sim_bind; [apply sim_query|]. intros [].
  2:{ simpl. repeat sim_step Hquiet. }
  simpl. apply sim_bind; [apply sim_ensure_dir|]. intros _.
  apply sim_try_except; [apply sim_hardlink_recursive|].
  intros e. repeat sim_step Hquiet.
Qed.

End Printing.


(** ** The frame of a whole run *)
Lemma hardlink_directory_frame fnmatch self ow pats depth source target w :
  wp (hardlink_directory fnmatch self ow pats depth source target)
     (fun _ w' => agrees_outside (fun q => q `suffix_of` target ∨ target `suffix_of` q)
                    (disk w) (disk w')) w.
Proof.
  destruct (dry_run self) eqn:Hdry.
  { eapply wp_mono; [by apply dry_hardlink_directory_leaves_alone|].
    simpl. intros _ w' [-> _]. apply agrees_outside_refl. }
  assert (∀ w1, path_exists (disk w1) target = true →
    wp (try_except (_hardlink_recursive fnmatch self ow pats depth source target)
          (λ e, log self ("Error during hardlinking: " +:+ str_exn e) "ERROR" ≫= λ _, mret false))
       (fun _ w' => agrees_outside (fun q => q `suffix_of` target ∨ target `suffix_of` q)
                      (disk w1) (disk w')) w1) as Hwalk.
  { intros w1 Hex. apply wp_try_except.
    eapply wp_mono; [by apply real_hardlink_recursive_frame|].
    assert (∀ fs fs', agrees_outside (under target) fs fs' →
              agrees_outside (fun q => q `suffix_of` target ∨ target `suffix_of` q) fs fs').
    { intros fs fs'. apply agrees_outside_weaken. intros q [? _]. by right. }
    intros [ok|e] w2 Hw2; [by auto|]. wp_auto. world_simpl. auto. }
  unfold hardlink_directory.
  apply wp_bind, wp_query.
  destruct (path_exists _ _); simpl; [|wp_auto; world_simpl; apply agrees_outside_refl].
  apply wp_bind, wp_query.
  destruct (is_dir _ _); simpl; [|wp_auto; world_simpl; apply agrees_outside_refl].
  apply wp_bind. unfold wp at 1. rewrite ensure_dir_run, Hdry.
  destruct (path_exists (disk w) target) eqn:Hex; simpl; [by apply Hwalk|].
  destruct (mkdir_parents (disk w) target) as [fs'|e] eqn:Hmk; simpl;
    [|apply agrees_outside_refl].
  apply mkdir_parents_Return in Hmk as [Hd Hfr].
  eapply wp_mono; [apply Hwalk|].
  - world_simpl. unfold is_dir, path_exists in *. by destruct (os_stat fs' target).
  - simpl. intros _ w'. world_simpl. intros H.
    eapply agrees_outside_trans; [|exact H].
    revert Hfr. apply agrees_outside_weaken. by left.
Qed.

Lemma apart_from_target source target q :
  disjoint_paths source target → source `suffix_of` q →
  ¬ (q `suffix_of` target ∨ target `suffix_of` q).
Proof.
  intros Hdis Hq [Hc|Hc].
  - destruct Hdis as [Hd _]. apply Hd. by etrans.
  - by eapply disjoint_paths_below.
Qed.

Lemma hardlink_directory_keeps_apart fnmatch self ow pats depth source target other w :
  disjoint_paths other target →
  let fs' := disk (hardlink_directory fnmatch self ow pats depth source target w).2 in
  (∀ q, other `suffix_of` q → os_stat fs' q = os_stat (disk w) q)
  ∧ (∀ p, other `suffix_of` p → listdir fs' p = listdir (disk w) p).
Proof.
  intros Hdis fs'.
  pose proof (hardlink_directory_frame fnmatch self ow pats depth source target w) as H.
  unfold wp in H. fold fs' in H. destruct H as [Hs Hl]. split.
  - intros q Hq. apply Hs. by apply (apart_from_target other).
  - intros p Hp. apply Hl. intros n. apply (apart_from_target other); [done|].
    by apply suffix_cons_r.
Qed.



(** ** Exclusion patterns together *)

Lemma should_exclude_loop fnmatch item patterns :
  _should_exclude fnmatch item (Some patterns) = exclude_loop fnmatch item (str item) patterns.
Proof. by destruct patterns. Qed.

(** X9: exclusion patterns add up: a path is excluded by two lists of
    patterns together exactly when one of the lists excludes it; the empty
    list excludes nothing. *)
Theorem should_exclude_app fnmatch item ps qs :
  _should_exclude fnmatch item None = false
  ∧ _should_exclude fnmatch item (Some []) = false
  ∧ _should_exclude fnmatch item (Some (ps ++ qs))
    = _should_exclude fnmatch item (Some ps) || _should_exclude fnmatch item (Some qs).
Proof.
  split_and!; [done..|]. rewrite !should_exclude_loop.
  induction ps as [|p ps IH]; simpl; [done|].
  by destruct (fnmatch (str item) p || fnmatch (name item) p).
Qed.


(** ** The mirror a successful run leaves *)

Lemma walked_below fnmatch pats fs source target s t :
  walked fnmatch pats fs source target s t → source `suffix_of` s ∧ target `suffix_of` t.
Proof.
  induction 1 as [|source target n s t _ _ _ _ [IH1 IH2]]; [done|].
  split; (etrans; [|done]); by apply suffix_cons_r.
Qed.

Lemma is_dir_agree fs fs' q : os_stat fs' q = os_stat fs q → is_dir fs' q = is_dir fs q.
Proof. unfold is_dir. by intros ->. Qed.

Lemma is_file_agree fs fs' q : os_stat fs' q = os_stat fs q → is_file fs' q = is_file fs q.
Proof. unfold is_file. by intros ->. Qed.

Lemma path_exists_agree fs fs' q :
  os_stat fs' q = os_stat fs q → path_exists fs' q = path_exists fs q.
Proof. unfold path_exists. by intros ->. Qed.

Lemma is_file_not_dir fs q : is_file fs q = true → is_dir fs q = false.
Proof.
  unfold is_file, is_dir. destruct (os_stat fs q) as [s|]; [|done].
  intros H%bool_decide_eq_true. rewrite H. done.
Qed.

Lemma walked_agree fnmatch pats fs fs' source target s t :
  (∀ q, source `suffix_of` q → os_stat fs' q = os_stat fs q) →
  (∀ p, source `suffix_of` p → listdir fs' p = listdir fs p) →
  walked fnmatch pats fs source target s t → walked fnmatch pats fs' source target s t.
Proof.
  intros Hs Hl Hw. induction Hw as [|source target n s t Hn Hex Hd Hw IH].
  - constructor.
  - eapply walked_down; [by rewrite Hl| done | |].
    + rewrite (is_dir_agree fs); [done|]. apply Hs. by apply suffix_cons_r.
    + apply IH.
      * intros q Hq. apply Hs. etrans; [|done]. by apply suffix_cons_r.
      * intros q Hq. apply Hl. etrans; [|done]. by apply suffix_cons_r.
Qed.

Lemma mirrored_agree ow fresh fs fs' src tgt :
  os_stat fs' src = os_stat fs src → os_stat fs' tgt = os_stat fs tgt →
  mirrored ow fresh fs src tgt → mirrored ow fresh fs' src tgt.
Proof.
  intros Hs Ht [Hex Hsame]. split.
  - by rewrite (path_exists_agree fs).
  - intros Ho. rewrite (os_samefile_ext fs); auto.
Qed.

Lemma under_inside (target t : path) n : target `suffix_of` t → under target (t // n).
Proof.
  intros Ht. split; [by apply suffix_cons_r|].
  intros <-. apply suffix_length in Ht. unfold joinpath in Ht. simpl in Ht. lia.
Qed.

(** The tree read from a file system that has the same source tree and
    the same entries below the target. *)
Lemma mirror_of_source fnmatch pats ow source target fs fs1 fs' :
  (∀ q, source `suffix_of` q → os_stat fs1 q = os_stat fs q) →
  (∀ p, source `suffix_of` p → listdir fs1 p = listdir fs p) →
  (∀ q, under target q → os_stat fs1 q = os_stat fs q) →
  mirror_of fnmatch pats ow source target fs1 fs' →
  mirror_of fnmatch pats ow source target fs fs'.
Proof.
  intros Hs Hl Ht Hm s t Hw.
  destruct (walked_below _ _ _ _ _ _ _ Hw) as [Hbs Hbt].
  destruct (Hm s t) as [Hex Hfiles]; [by apply walked_agree with fs|].
  split; [done|]. intros n Hn Hexcl Hfile.
  rewrite <-(path_exists_agree fs fs1 (t // n)).
  - apply Hfiles; [by rewrite Hl|done|].
    rewrite (is_file_agree fs); [done|]. apply Hs. by apply suffix_cons_r.
  - apply Ht. by apply under_inside.
Qed.

(** The mirror is still there in a file system that has the same source
    tree and the same entries at and below the target. *)
Lemma mirror_of_later fnmatch pats ow source target fs fs1' fs' :
  (∀ q, source `suffix_of` q → os_stat fs' q = os_stat fs1' q) →
  (∀ q, target `suffix_of` q → os_stat fs' q = os_stat fs1' q) →
  mirror_of fnmatch pats ow source target fs fs1' →
  mirror_of fnmatch pats ow source target fs fs'.
Proof.
  intros Hs Ht Hm s t Hw.
  destruct (walked_below _ _ _ _ _ _ _ Hw) as [Hbs Hbt].
  destruct (Hm s t Hw) as [Hex Hfiles]. split.
  - rewrite (path_exists_agree fs1'); auto.
  - intros n Hn Hexcl Hfile. eapply mirrored_agree; [| |by apply Hfiles].
    + apply Hs. by apply suffix_cons_r.
    + apply Ht. by apply suffix_cons_r.
Qed.

Lemma under_at p n q : q = p // n → under p q.
Proof. intros ->. apply under_child. Qed.

Lemma not_child (p : path) n : p ≠ p // n.
Proof. intros H. apply (f_equal length) in H. unfold joinpath in H. simpl in H. lia. Qed.

Lemma file_step_mirrored fs src tgt ow :
  event_ok (file_step false fs src tgt ow).1 = true →
  mirrored ow (negb (path_exists fs tgt)) (file_step false fs src tgt ow).2 src tgt.
Proof.
  destruct ow.
  - intros H. destruct (file_step_real_done fs src tgt H). by split.
  - unfold file_step.
    destruct (path_exists fs tgt) eqn:Hex; simpl.
    { intros _. split; [done|]. by intros [?|?]. }
    destruct (os_link fs src tgt) as [fs2|] eqn:Hl; simpl; [|done].
    intros _. split; [by eapply path_exists_after_link|].
    intros _. by eapply os_samefile_after_link.
Qed.

Lemma hardlink_recursive_true fnmatch self ow pats depth source target w w' :
  _hardlink_recursive fnmatch self ow pats (S depth) source target w = (Return true, w') →
  os_iterdir (disk w) source = Return (listdir (disk w) source)
  ∧ walk_items fnmatch self ow pats (_hardlink_recursive fnmatch self ow pats depth)
      source target (listdir (disk w) source) true w = (Return true, w').
Proof.
  cbn [_hardlink_recursive]. unfold try_except. rewrite bind_run. unfold call at 1.
  assert (∀ e w1,
    ((if is_PermissionError e then log self ("Permission denied: " +:+ str_exn e) "ERROR"
      else log self ("Unexpected error: " +:+ str_exn e) "ERROR")
     ≫= λ _, modify_stats incr_errors ≫= λ _, mret false) w1 ≠ (Return true, w')) as Hno.
  { intros e w1. by destruct (is_PermissionError e). }
  destruct (os_iterdir (disk w) source) as [items|e] eqn:Hiter.
  2:{ intros H. by apply Hno in H. }
  assert (items = listdir (disk w) source) as ->.
  { unfold os_iterdir in Hiter. destruct (os_stat _ _); [|done].
    repeat (destruct (negb _); [done|]). by simplify_eq. }
  destruct (walk_items _ _ _ _ _ _ _ _ _ w) as [[ok|e] w1] eqn:Hwalk.
  - by intros [= -> ->].
  - intros H. by apply Hno in H.
Qed.

Section Mirror.

Context (fnmatch : string → string → bool) (self : DirectoryHardlinker).
Context (overwrite : bool) (exclude_patterns : option (list string)).
Hypothesis Hreal : dry_run self = false.

Section Items.

Context (recurse : path → path → M bool).
Hypothesis Hframe : ∀ s t w0,
  path_exists (disk w0) t = true →
  wp (recurse s t) (fun _ w' => agrees_outside (under t) (disk w0) (disk w')) w0.
Hypothesis Hsub : ∀ s t w1 w1',
  disjoint_paths s t →
  path_exists (disk w1) t = true →
  source_listings_nodup s (disk w1) →
  recurse s t w1 = (Return true, w1') →
  mirror_of fnmatch exclude_patterns overwrite s t (disk w1) (disk w1').

Lemma mirror_items source target items success w w' :
  disjoint_paths source target →
  NoDup items →
  path_exists (disk w) target = true →
  source_listings_nodup source (disk w) →
  walk_items fnmatch self overwrite exclude_patterns recurse source target items success w
    = (Return true, w') →
  ∀ n, n ∈ items → _should_exclude fnmatch (source // n) exclude_patterns = false →
    (is_file (disk w) (source // n) = true →
     mirrored overwrite (negb (path_exists (disk w) (target // n))) (disk w')
       (source // n) (target // n))
    ∧ (is_dir (disk w) (source // n) = true →
       mirror_of fnmatch exclude_patterns overwrite (source // n) (target // n)
         (disk w) (disk w')).
Proof.
  intros Hdis. revert success w.
  induction items as [|item_name rest IH]; intros success w Hnd Hex Hlist Hrun n Hn Hexcl.
  { by apply elem_of_nil in Hn. }
  apply NoDup_cons in Hnd as [Hnotin Hnd].
  (* what the rest of the loop leaves alone *)
  assert (∀ w1, path_exists (disk w1) target = true →
    walk_items fnmatch self overwrite exclude_patterns recurse source target rest
      (success && true) w1 = (Return true, w') →
    (∀ q, source `suffix_of` q → os_stat (disk w') q = os_stat (disk w1) q) ∧
    (∀ q, (target // item_name) `suffix_of` q → os_stat (disk w') q = os_stat (disk w1) q))
    as Hlater.
  { intros w1 Hex1 Hrun1.
    pose proof (real_walk_items_frame_items fnmatch self overwrite exclude_patterns recurse
                  source target rest (success && true) w1 Hreal Hframe Hex1) as Hfr.
    eapply wp_elim in Hfr; [|exact Hrun1]. destruct Hfr as [Hfr _]. split.
    - intros q Hq. apply Hfr. by apply (not_below_items_source source).
    - intros q Hq. apply Hfr. by apply (not_below_items_sibling target item_name). }
  (* the entries of the rest, by induction *)
  assert (∀ w1 b, walk_items fnmatch self overwrite exclude_patterns recurse source target rest
                  b w1 = (Return true, w') →
    path_exists (disk w1) target = true →
    (∀ q, source `suffix_of` q → os_stat (disk w1) q = os_stat (disk w) q) →
    (∀ p, source `suffix_of` p → listdir (disk w1) p = listdir (disk w) p) →
    (∀ q, below_items target rest q → os_stat (disk w1) q = os_stat (disk w) q) →
    n ∈ rest →
    (is_file (disk w) (source // n) = true →
     mirrored overwrite (negb (path_exists (disk w) (target // n))) (disk w')
       (source // n) (target // n))
    ∧ (is_dir (disk w) (source // n) = true →
       mirror_of fnmatch exclude_patterns overwrite (source // n) (target // n)
         (disk w) (disk w'))) as Hrest.
  { intros w1 b Hrun1 Hex1 Hs Hl Ht Hin.
    destruct (IH b w1 Hnd Hex1) with (n := n) as [Hf Hd]; [| done | done | done |].
    { by apply source_listings_nodup_agrees with (disk w). }
    assert (source `suffix_of` source // n) as Hsn by by apply suffix_cons_r.
    split.
    - intros Hfile. rewrite <-(path_exists_agree (disk w) (disk w1) (target // n)).
      + apply Hf. by rewrite (is_file_agree (disk w)); auto.
      + apply Ht. by exists n.
    - intros Hdir. eapply mirror_of_source; [| | |apply Hd].
      + intros q Hq. apply Hs. by etrans.
      + intros q Hq. apply Hl. by etrans.
      + intros q [Hq _]. apply Ht. by exists n.
      + by rewrite (is_dir_agree (disk w)); auto. }
  assert (∀ fs1, agrees_outside (fun q => (target // item_name) `suffix_of` q) (disk w) fs1 →
            ∀ q, below_items target rest q → os_stat fs1 q = os_stat (disk w) q) as Hsib.
  { intros fs1 [Hfr _] q Hq. apply Hfr. intros Hc.
    by apply (not_below_items_sibling target item_name rest q). }
  destruct (_should_exclude fnmatch (source // item_name) exclude_patterns) eqn:Hex0.
  { rewrite walk_items_excluded in Hrun by done.
    apply elem_of_cons in Hn as [->|Hn]; [congruence|].
    eapply Hrest; [exact Hrun|by world_simpl|by world_simpl..|done]. }
  destruct (is_file (disk w) (source // item_name)) eqn:Hfile0.
  { destruct (hardlink_file_step self (source // item_name) (target // item_name) overwrite w)
      as (w1 & Hrun1 & Hd1 & _).
    rewrite (walk_items_file _ _ _ _ _ _ _ _ _ _ _ _ _ Hex0 Hfile0 Hrun1) in Hrun.
    rewrite Hreal in *.
    pose proof (file_step_frame false (disk w) (source // item_name) (target // item_name)
                  overwrite) as Hfr1.
    rewrite <-Hd1 in Hfr1.
    destruct (agrees_source source target _ _ _ Hdis (under_at target item_name) Hfr1)
      as [Hs1 Hl1].
    assert (path_exists (disk w1) target = true) as Hex1.
    { erewrite path_exists_agrees; [done|exact Hfr1|]. apply not_child. }
    apply elem_of_cons in Hn as [->|Hn].
    2:{ eapply Hrest; [exact Hrun|done..| |done]. apply Hsib.
        revert Hfr1. apply agrees_outside_weaken. by intros q ->. }
    split; [|by rewrite is_file_not_dir].
    intros _.
    assert (event_ok (file_step false (disk w) (source // item_name) (target // item_name)
                        overwrite).1 = true) as Hok.
    { apply walk_items_success in Hrun. by apply andb_true_iff in Hrun as [_ ?]. }
    rewrite Hok, andb_true_r in Hrun.
    rewrite <-(andb_true_r success) in Hrun.
    destruct (Hlater w1 Hex1 Hrun) as [Hls Hlt].
    apply (mirrored_agree overwrite _ (disk w1)).
    - apply Hls. by apply suffix_cons_r.
    - by apply Hlt.
    - rewrite Hd1. by apply file_step_mirrored. }
  destruct (is_dir (disk w) (source // item_name)) eqn:Hdir0.
  2:{ rewrite walk_items_skip in Hrun by done.
      apply elem_of_cons in Hn as [->|Hn]; [by rewrite Hfile0, Hdir0|].
      eapply Hrest; [exact Hrun|by world_simpl|by world_simpl..|done]. }
  pose proof (real_ensure_dir_child self "Created directory: " item_name target w Hreal Hex)
    as Hens.
  destruct (ensure_dir self "Created directory: " (target // item_name) w)
    as [[[]|e] w1] eqn:Hens1.
  2:{ by rewrite (walk_items_dir_raise _ _ _ _ _ _ _ _ _ _ _ _ _ Hex0 Hfile0 Hdir0 Hens1)
        in Hrun. }
  eapply wp_elim in Hens; [|exact Hens1]. destruct Hens as [Hfr1 Hex1]. specialize (Hex1 eq_refl).
  destruct (recurse (source // item_name) (target // item_name) w1) as [[ok|e] w2] eqn:Hrec.
  2:{ cbn [walk_items] in Hrun. rewrite Hex0, bind_run in Hrun. unfold query at 1 in Hrun.
      rewrite Hfile0, bind_run in Hrun. unfold query at 1 in Hrun.
      rewrite Hdir0, bind_run in Hrun. simpl name in Hrun. rewrite Hens1, bind_run in Hrun.
      by rewrite Hrec in Hrun. }
  rewrite (walk_items_dir _ _ _ _ _ _ _ _ _ _ _ _ _ _ Hex0 Hfile0 Hdir0 Hens1 Hrec) in Hrun.
  assert (ok = true) as ->.
  { apply walk_items_success in Hrun. by apply andb_true_iff in Hrun as [_ ?]. }
  pose proof (Hframe (source // item_name) (target // item_name) w1 Hex1) as Hfr2.
  eapply wp_elim in Hfr2; [|exact Hrec].
  destruct (agrees_source source target _ _ _ Hdis (under_at target item_name) Hfr1)
    as [Hs1 Hl1].
  destruct (agrees_source source target _ _ _ Hdis (under_trans target item_name) Hfr2)
    as [Hs2 Hl2].
  assert (path_exists (disk w2) target = true) as Hex2.
  { erewrite path_exists_agrees; [|exact Hfr2|].
    - erewrite path_exists_agrees; [done|exact Hfr1|]. apply not_child.
    - intros H. apply (not_under_self target). by eapply under_trans. }
  apply elem_of_cons in Hn as [->|Hn].
  2:{ eapply Hrest; [exact Hrun|done| | | |done].
      - intros q Hq. by rewrite Hs2, Hs1.
      - intros q Hq. by rewrite Hl2, Hl1.
      - apply Hsib.
        apply (agrees_outside_trans (fun q => (target // item_name) `suffix_of` q)
                 (disk w) (disk w1) (disk w2)).
        + revert Hfr1. apply agrees_outside_weaken. by intros q ->.
        + revert Hfr2. apply agrees_outside_weaken. by intros q [? _]. }
  split; [by rewrite Hfile0|]. intros _.
  destruct (Hlater w2 Hex2 Hrun) as [Hls Hlt].
  assert (source `suffix_of` source // item_name) as Hsn by by apply suffix_cons_r.
  eapply mirror_of_later; [| |eapply mirror_of_source; [| | |eapply Hsub; [| | |exact Hrec]]].
  - intros q Hq. apply Hls. by etrans.
  - done.
  - intros q Hq. apply Hs1. by etrans.
  - intros q Hq. apply Hl1. by etrans.
  - intros q [_ Hq]. destruct Hfr1 as [Hfr1 _]. by apply Hfr1.
  - by apply disjoint_paths_child.
  - done.
  - apply source_listings_nodup_child.
    by apply source_listings_nodup_agrees with (disk w).
Qed.

End Items.

Lemma mirror_rec depth source target w w' :
  disjoint_paths source target →
  path_exists (disk w) target = true →
  source_listings_nodup source (disk w) →
  _hardlink_recursive fnmatch self overwrite exclude_patterns depth source target w
    = (Return true, w') →
  mirror_of fnmatch exclude_patterns overwrite source target (disk w) (disk w').
Proof.
  revert source target w w'.
  induction depth as [|depth IH]; intros source target w w' Hdis Hex Hlist Hrun; [done|].
  pose proof (real_hardlink_recursive_frame fnmatch self overwrite exclude_patterns (S depth)
                source target w Hreal Hex) as Hfr.
  eapply wp_elim in Hfr; [|exact Hrun].
  apply hardlink_recursive_true in Hrun as (Hiter & Hwalk).
  pose proof (mirror_items (_hardlink_recursive fnmatch self overwrite exclude_patterns depth)
                (fun s t w0 H => real_hardlink_recursive_frame fnmatch self overwrite
                                   exclude_patterns depth s t w0 Hreal H)
                IH source target _ _ w w' Hdis (Hlist source (reflexivity _)) Hex Hlist Hwalk)
    as Hitems.
  intros s t Hw. inversion Hw as [|? ? n ? ? Hn Hexcl Hdir Hw']; subst.
  - split.
    + erewrite path_exists_agrees; [done|exact Hfr|apply not_under_self].
    + intros n Hn Hexcl Hfile. by apply Hitems.
  - destruct (Hitems n Hn Hexcl) as [_ Hm]. by apply Hm.
Qed.

End Mirror.

Lemma wf_fs_source_listings source fs : wf_fs fs = true → source_listings_nodup source fs.
Proof. intros Hwf p _. apply NoDup_listdir. by apply wf_fs_NoDup. Qed.

Lemma hardlink_directory_mirrors fnmatch self ow pats depth source target w w' :
  dry_run self = false →
  source_listings_nodup source (disk w) →
  disjoint_paths source target →
  hardlink_directory fnmatch self ow pats depth source target w = (Return true, w') →
  mirror_of fnmatch pats ow source target (disk w) (disk w').
Proof.
  intros Hreal Hwf Hdis Hrun.
  unfold hardlink_directory in Hrun. rewrite bind_run in Hrun. unfold query at 1 in Hrun.
  destruct (path_exists (disk w) source); cbn [negb] in Hrun; [|by rewrite bind_run in Hrun].
  rewrite bind_run in Hrun. unfold query at 1 in Hrun.
  destruct (is_dir (disk w) source); cbn [negb] in Hrun; [|by rewrite bind_run in Hrun].
  rewrite bind_run, ensure_dir_run, Hreal in Hrun. unfold try_except in Hrun.
  assert (∀ w1, path_exists (disk w1) target = true →
    agrees_outside (fun q => q `suffix_of` target) (disk w) (disk w1) →
    match _hardlink_recursive fnmatch self ow pats depth source target w1 with
    | (Return a, w2) => (Return a, w2)
    | (Raise e, w2) =>
        (log self ("Error during hardlinking: " +:+ str_exn e) "ERROR" ≫= λ _, mret false) w2
    end = (Return true, w') →
    mirror_of fnmatch pats ow source target (disk w) (disk w')) as Hwalk.
  { intros w1 Hex1 Hfr1 Hrun1.
    destruct (_hardlink_recursive _ _ _ _ _ _ _ w1) as [[ok|e] w2] eqn:Hrec; [|done].
    simplify_eq.
    destruct (same_view_after_mkdir source target _ _ Hdis Hfr1) as (Hs1 & Hl1 & Ht1).
    apply (mirror_of_source _ _ _ _ _ (disk w) (disk w1));
      [intros; symmetry; by apply Hs1|intros; symmetry; by apply Hl1
      |intros; symmetry; by apply Ht1|].
    eapply mirror_rec; [done..| |done].
    intros p Hp. rewrite <-Hl1 by done. by apply Hwf. }
  destruct (path_exists (disk w) target) eqn:Hex.
  { by apply (Hwalk w); [|apply agrees_outside_refl|]. }
  destruct (mkdir_parents (disk w) target) as [fs'|e] eqn:Hmk; [|done].
  apply mkdir_parents_Return in Hmk as [Hd Hfr].
  refine (Hwalk _ _ _ Hrun).
  - world_simpl. unfold is_dir, path_exists in *. by destruct (os_stat fs' target).
  - by world_simpl.
Qed.


(** ** A tree that is mirrored already *)

Lemma untouched_refl w : untouched w w.
Proof. by split_and!. Qed.

Lemma untouched_trans w1 w2 w3 : untouched w1 w2 → untouched w2 w3 → untouched w1 w3.
Proof. unfold untouched. intros (-> & -> & -> & ->) (-> & -> & -> & ->). done. Qed.

Lemma wp_untouched {A} (m : M A) w0 w :
  untouched w0 w →
  wp m (fun _ w' => untouched w w') w →
  wp m (fun _ w' => untouched w0 w') w.
Proof. intros H Hm. eapply wp_mono; [exact Hm|]. simpl. eauto using untouched_trans. Qed.

Lemma mirror_of_weaken fnmatch pats ow ow' source target fs fs' :
  (ow' = true → ow = true) →
  mirror_of fnmatch pats ow source target fs fs' →
  mirror_of fnmatch pats ow' source target fs fs'.
Proof.
  intros Hw Hm s t Hwalk. destruct (Hm s t Hwalk) as [Hex Hfiles]. split; [done|].
  intros n Hn Hexcl Hfile. destruct (Hfiles n Hn Hexcl Hfile) as [? Hs]. split; [done|].
  intros [?|?]; apply Hs; auto.
Qed.

(** The mirror that a run has left is a mirror of the tree as it is now. *)
Lemma mirror_of_settled fnmatch pats ow source target fs fs' :
  (∀ q, source `suffix_of` q → os_stat fs' q = os_stat fs q) →
  (∀ p, source `suffix_of` p → listdir fs' p = listdir fs p) →
  mirror_of fnmatch pats ow source target fs fs' →
  mirror_of fnmatch pats ow source target fs' fs'.
Proof.
  intros Hs Hl Hm s t Hw.
  assert (walked fnmatch pats fs source target s t) as Hw0.
  { apply walked_agree with fs'; [| |done].
    - intros q Hq. symmetry. by apply Hs.
    - intros p Hp. symmetry. by apply Hl. }
  destruct (walked_below _ _ _ _ _ _ _ Hw) as [Hbs _].
  destruct (Hm s t Hw0) as [Hex Hfiles]. split; [done|].
  intros n Hn Hexcl Hfile.
  destruct (Hfiles n) as [Hext Hsame]; [by rewrite <-Hl|done| |].
  { rewrite <-(is_file_agree fs fs'); [done|]. apply Hs. by apply suffix_cons_r. }
  split; [done|]. rewrite Hext. simpl. intros [?|?]; [|done]. apply Hsame. by left.
Qed.

Lemma mirror_of_down fnmatch pats ow source target n fs fs' :
  n ∈ listdir fs source →
  _should_exclude fnmatch (source // n) pats = false →
  is_dir fs (source // n) = true →
  mirror_of fnmatch pats ow source target fs fs' →
  mirror_of fnmatch pats ow (source // n) (target // n) fs fs'.
Proof. intros Hn Hex Hd Hm s t Hw. apply Hm. by eapply walked_down. Qed.

Section AlreadyMirrored.

Context (fnmatch : string → string → bool) (self : DirectoryHardlinker).
Context (overwrite : bool) (exclude_patterns : option (list string)).

Lemma mirrored_file_untouched fresh src tgt w :
  mirrored overwrite fresh (disk w) src tgt →
  wp (_hardlink_file self src tgt overwrite) (fun _ w' => untouched w w') w.
Proof.
  intros [Hex Hsame]. apply wp_intro. intros o w' Hrun.
  destruct (hardlink_file_step self src tgt overwrite w) as (w1 & Hrun1 & Hd & Hs).
  pose proof (hardlink_file_calls self src tgt overwrite w) as Hc.
  eapply wp_elim in Hc; [|exact Hrun]. rewrite Hrun in Hrun1. simplify_eq.
  assert (file_step (dry_run self) (disk w) src tgt overwrite = (FileSkipped, disk w)) as Hstep.
  { unfold file_step. rewrite Hex. destruct overwrite; [|done]. by rewrite Hsame by by left. }
  assert (file_calls (dry_run self) (disk w) src tgt overwrite = []) as Hcalls.
  { unfold file_calls. rewrite Hex. destruct (dry_run self); [done|].
    destruct overwrite; [|done]. by rewrite Hsame by by left. }
  rewrite Hstep in Hd, Hs. rewrite Hcalls, app_nil_r in Hc. simpl in *.
  unfold untouched. rewrite Hs. done.
Qed.

Lemma walk_items_untouched recurse source target items success w :
  (∀ s t w0, mirror_of fnmatch exclude_patterns overwrite s t (disk w0) (disk w0) →
     wp (recurse s t) (fun _ w' => untouched w0 w') w0) →
  mirror_of fnmatch exclude_patterns overwrite source target (disk w) (disk w) →
  (∀ n, n ∈ items → n ∈ listdir (disk w) source) →
  wp (walk_items fnmatch self overwrite exclude_patterns recurse source target items success)
     (fun _ w' => untouched w w') w.
Proof.
  intros Hrec. revert success w.
  induction items as [|item_name rest IH]; intros success w Hm Hitems; cbn [walk_items].
  { apply wp_ret, untouched_refl. }
  assert (∀ b w1, untouched w w1 →
            wp (walk_items fnmatch self overwrite exclude_patterns recurse source target
                  rest b) (fun _ w' => untouched w w') w1) as Hnext.
  { intros b w1 Hu. apply wp_untouched; [done|]. destruct Hu as (Hd & _).
    apply IH; rewrite Hd; [done|]. intros n Hn. apply Hitems. by right. }
  assert (item_name ∈ listdir (disk w) source) as Hin by (apply Hitems; by left).
  destruct (_should_exclude _ _ _) eqn:Hex.
  { wp_auto. apply Hnext. unfold untouched. by world_simpl. }
  apply wp_bind, wp_query. destruct (is_file _ _) eqn:Hfile.
  { apply wp_bind. eapply wp_mono.
    - eapply mirrored_file_untouched.
      destruct (Hm source target (walked_here _ _ _ _ _)) as [_ Hfiles]. by apply Hfiles.
    - intros [ok|e] w1 Hw1; [by apply Hnext|done]. }
  apply wp_bind, wp_query. destruct (is_dir _ _) eqn:Hdir.
  2:{ wp_auto. apply Hnext. unfold untouched. by world_simpl. }
  pose proof (mirror_of_down _ _ _ _ _ _ _ _ Hin Hex Hdir Hm) as Hsub.
  destruct (Hsub _ _ (walked_here _ _ _ _ _)) as [Hext _].
  apply wp_bind. unfold wp at 1. rewrite ensure_dir_run. simpl name. rewrite Hext. simpl.
  apply wp_bind. eapply wp_mono; [by apply Hrec|].
  intros [ok|e] w2 Hw2; [by apply Hnext|done].
Qed.

Lemma hardlink_recursive_untouched depth source target w :
  mirror_of fnmatch exclude_patterns overwrite source target (disk w) (disk w) →
  wp (_hardlink_recursive fnmatch self overwrite exclude_patterns depth source target)
     (fun _ w' => untouched w w') w.
Proof.
  revert source target w.
  induction depth as [|depth IH]; intros source target w Hm; cbn [_hardlink_recursive].
  - apply wp_raise, untouched_refl.
  - apply wp_try_except, wp_bind, wp_call. unfold os_iterdir.
    destruct (os_stat (disk w) source) as [d|];
      [|wp_auto; unfold untouched; by world_simpl].
    destruct (negb (bool_decide _)); [wp_auto; unfold untouched; by world_simpl|].
    destruct (negb (st_readable d)); [wp_auto; unfold untouched; by world_simpl|].
    eapply wp_mono; [by apply walk_items_untouched|].
    intros [ok|e] w1 Hw1; [done|]. wp_auto; revert Hw1; unfold untouched; by world_simpl.
Qed.

Lemma hardlink_directory_untouched depth source target w :
  mirror_of fnmatch exclude_patterns overwrite source target (disk w) (disk w) →
  wp (hardlink_directory fnmatch self overwrite exclude_patterns depth source target)
     (fun _ w' => untouched w w') w.
Proof.
  intros Hm. unfold hardlink_directory.
  apply wp_bind, wp_query.
  destruct (path_exists _ _); simpl; [|wp_auto; unfold untouched; by world_simpl].
  apply wp_bind, wp_query.
  destruct (is_dir _ _); simpl; [|wp_auto; unfold untouched; by world_simpl].
  destruct (Hm _ _ (walked_here _ _ _ _ _)) as [Hext _].
  apply wp_bind. unfold wp at 1. rewrite ensure_dir_run, Hext. simpl.
  apply wp_try_except. eapply wp_mono; [by apply hardlink_recursive_untouched|].
  intros [ok|e] w1 Hw1; [done|]. wp_auto; revert Hw1; unfold untouched; by world_simpl.
Qed.

End AlreadyMirrored.

(** X11: a tree that is mirrored already is left alone.  When every
    directory a walk would enter has its target and every file to link is in
    place (there, and with [overwrite] the same file as its source), the run
    makes no call, changes nothing in the file system, links no file and
    creates no directory. *)
Theorem mirrored_tree_is_left_alone fnmatch self ow pats depth source target w :
  (∀ s t, walked fnmatch pats (disk w) source target s t →
     path_exists (disk w) t = true ∧
     ∀ n, n ∈ listdir (disk w) s →
          _should_exclude fnmatch (s // n) pats = false →
          is_file (disk w) (s // n) = true →
          path_exists (disk w) (t // n) = true ∧
          (ow = true → os_samefile (disk w) (s // n) (t // n) = Return true)) →
  let w' := (hardlink_directory fnmatch self ow pats depth source target w).2 in
  disk w' = disk w ∧ calls w' = calls w
  ∧ files_linked (stats w') = files_linked (stats w)
  ∧ dirs_created (stats w') = dirs_created (stats w).
Proof.
  intros Hm. apply (hardlink_directory_untouched fnmatch self ow pats depth source target w).
  intros s t Hw. destruct (Hm s t Hw) as [Hex Hfiles]. split; [done|].
  intros n Hn Hexcl Hfile. destruct (Hfiles n Hn Hexcl Hfile) as [Hext Hsame].
  split; [done|]. rewrite Hext. simpl. intros [?|?]; [auto|done].
Qed.

Lemma walked_self fnmatch pats fs a b s t :
  walked fnmatch pats fs a b s t → a = b → is_dir fs a = true → t = s ∧ is_dir fs s = true.
Proof.
  induction 1 as [|a b n s t Hn Hex Hd Hw IH]; intros Hab Hdir; [done|].
  subst b. by apply IH.
Qed.

Lemma mirror_of_self fnmatch pats ow source fs :
  is_dir fs source = true → mirror_of fnmatch pats ow source source fs fs.
Proof.
  intros Hdir s t Hw. destruct (walked_self _ _ _ _ _ _ _ Hw eq_refl Hdir) as [-> Hs].
  split.
  - unfold is_dir, path_exists in *. by destruct (os_stat fs s).
  - intros n Hn Hex Hfile. unfold mirrored, os_samefile, is_file, path_exists in *.
    destruct (os_stat fs (s // n)); [|done]. split; [done|]. intros _.
    by rewrite !bool_decide_eq_true_2.
Qed.

(** X12: a directory mirrored onto itself: with the target equal to the
    source the run makes no call and changes nothing, whatever the flags. *)
Theorem mirroring_onto_itself_changes_nothing fnmatch self ow pats depth source w :
  let w' := (hardlink_directory fnmatch self ow pats depth source source w).2 in
  disk w' = disk w ∧ calls w' = calls w
  ∧ files_linked (stats w') = files_linked (stats w)
  ∧ dirs_created (stats w') = dirs_created (stats w).
Proof.
  destruct (is_dir (disk w) source) eqn:Hdir.
  { apply (hardlink_directory_untouched fnmatch self ow pats depth source source w).
    by apply mirror_of_self. }
  change (wp (hardlink_directory fnmatch self ow pats depth source source)
            (fun _ w' => untouched w w') w).
  unfold hardlink_directory.
  apply wp_bind, wp_query.
  destruct (path_exists _ _); simpl; [|wp_auto; unfold untouched; by world_simpl].
  apply wp_bind, wp_query. rewrite Hdir. simpl. wp_auto; unfold untouched; by world_simpl.
Qed.


(** ** Directories without subdirectories *)

Lemma flat_items fnmatch self ow pats recurse source target items success w :
  source ≠ target →
  (∀ n, n ∈ items → is_dir (disk w) (source // n) = true →
        _should_exclude fnmatch (source // n) pats = true) →
  ∃ ok w',
    walk_items fnmatch self ow pats recurse source target items success w = (Return ok, w')
    ∧ files_linked (stats w') + skipped (stats w') + errors (stats w')
      = files_linked (stats w) + skipped (stats w) + errors (stats w) + length items
    ∧ dirs_created (stats w') = dirs_created (stats w).
Proof.
  intros Hne. revert success w.
  induction items as [|item_name rest IH]; intros success w Hflat.
  { eexists _, _. split; [reflexivity|]. simpl. lia. }
  destruct (_should_exclude fnmatch (source // item_name) pats) eqn:Hex.
  { rewrite walk_items_excluded by done.
    edestruct IH as (ok & w' & -> & Hsum & Hdirs).
    { intros n Hn. world_simpl. apply Hflat. by right. }
    eexists _, _. split; [reflexivity|]. revert Hsum Hdirs. world_simpl. lia. }
  destruct (is_file (disk w) (source // item_name)) eqn:Hfile.
  { destruct (hardlink_file_counted self (source // item_name) (target // item_name) ow w)
      as (ok & w1 & Hrun & Hc).
    rewrite (walk_items_file _ _ _ _ _ _ _ _ _ _ _ _ _ Hex Hfile Hrun).
    pose proof (hardlink_file_frame self (source // item_name) (target // item_name) ow w)
      as Hfr.
    eapply wp_elim in Hfr; [|exact Hrun]. destruct Hfr as [Hfr _].
    edestruct IH as (ok' & w' & -> & Hsum & Hdirs).
    { intros n Hn. unfold is_dir. rewrite Hfr.
      - apply Hflat. by right.
      - unfold joinpath. intros [= _ ?]. done. }
    eexists _, _. split; [reflexivity|]. unfold counted in Hc. simpl. lia. }
  destruct (is_dir (disk w) (source // item_name)) eqn:Hdir.
  { rewrite Hflat in Hex; [done|by left|done]. }
  rewrite walk_items_skip by done.
  edestruct IH as (ok & w' & -> & Hsum & Hdirs).
  { intros n Hn. world_simpl. apply Hflat. by right. }
  eexists _, _. split; [reflexivity|]. revert Hsum Hdirs. world_simpl. lia.
Qed.


(** ** Two mirrors of one source *)

Lemma os_samefile_trans fs x y z :
  os_samefile fs x y = Return true → os_samefile fs x z = Return true →
  os_samefile fs y z = Return true.
Proof.
  unfold os_samefile.
  destruct (os_stat fs x) as [sx|]; [|done].
  destruct (os_stat fs y) as [sy|]; [|done].
  destruct (os_stat fs z) as [sz|]; [|done].
  intros [= [H1 H2]%andb_true_iff] [= [H3 H4]%andb_true_iff].
  apply bool_decide_eq_true in H1, H2, H3, H4.
  f_equal. apply andb_true_iff. split; apply bool_decide_eq_true; congruence.
Qed.


(** ** What a dry run prints *)

Lemma stdout_log_world self m l w :
  stdout (log_world self m l w) = stdout w ++ logged self [(m, l)].
Proof. unfold log_world, logged. destruct (verbose self); simpl; [done|by rewrite app_nil_r]. Qed.

Lemma logged_app self l1 l2 : logged self (l1 ++ l2) = logged self l1 ++ logged self l2.
Proof. unfold logged. destruct (verbose self); [by rewrite fmap_app|done]. Qed.

Lemma hardlink_file_output self src tgt ow w :
  wp (_hardlink_file self src tgt ow)
     (fun _ w' =>
        event_ok (file_step (dry_run self) (disk w) src tgt ow).1 = true →
        stdout w' = stdout w ++ logged self (success_lines (disk w) src tgt ow)) w.
Proof.
  unfold _hardlink_file, hardlink_file_body, create_hardlink.
  remember (file_step (dry_run self) (disk w) src tgt ow) as r eqn:Hr.
  remember (success_lines (disk w) src tgt ow) as ls eqn:Hls.
  destruct ow, (dry_run self); simpl.
  all: wp_auto.
  all: subst r ls; unfold file_step, success_lines.
  all: repeat match goal with
       | H : context [disk (log_world _ _ _ _)] |- _ => rewrite disk_log_world in H; simpl in H
       end.
  all: repeat match goal with
       | H : _ = _ |- _ => rewrite H; clear H
       end; simpl.
  all: try (intros; discriminate).
  all: intros _; rewrite ?stdout_log_world; simpl; rewrite ?stdout_log_world;
       rewrite <-?app_assoc, <-?logged_app; simpl; try done.
Qed.

Lemma same_output_refl w1 w2 : same_output w1 w1 w2 w2.
Proof. exists []. by rewrite !app_nil_r. Qed.

Lemma same_output_trans w1 w1' w1'' w2 w2' w2'' :
  same_output w1 w1' w2 w2' → same_output w1' w1'' w2' w2'' → same_output w1 w1'' w2 w2''.
Proof.
  intros (l1 & H1 & H2) (l2 & H3 & H4). exists (l1 ++ l2).
  rewrite H3, H4, H1, H2. by rewrite !app_assoc.
Qed.

Lemma success_lines_agree fs fs' src tgt ow :
  os_stat fs' src = os_stat fs src → os_stat fs' tgt = os_stat fs tgt →
  success_lines fs' src tgt ow = success_lines fs src tgt ow.
Proof.
  intros Hs Ht. unfold success_lines.
  by rewrite (os_samefile_ext fs fs'), (path_exists_agree fs fs').
Qed.

Section Preview.

Context (fnmatch : string → string → bool) (real dry : DirectoryHardlinker).
Context (overwrite : bool) (exclude_patterns : option (list string)).
Hypothesis Hreal : dry_run real = false.
Hypothesis Hdry : dry_run dry = true.
Hypothesis Hverbose : verbose dry = verbose real.

Lemma logged_dry lines : logged dry lines = logged real lines.
Proof. unfold logged. by rewrite Hverbose. Qed.

Lemma same_output_log (w_r w_r' w_d w_d' : World) m l :
  stdout w_r' = stdout w_r ++ logged real [(m, l)] →
  stdout w_d' = stdout w_d ++ logged dry [(m, l)] →
  same_output w_r w_r' w_d w_d'.
Proof.
  intros H1 H2. exists (logged real [(m, l)]). by rewrite H1, H2, logged_dry.
Qed.

Ltac output_finish := simpl; rewrite ?stdout_log_world; simpl; done.

Lemma ensure_dir_preview created n target w_r w1 w_d wd1 :
  os_stat (disk w_d) (target // n) = os_stat (disk w_r) (target // n) →
  ensure_dir real created (target // n) w_r = (Return (), w1) →
  ensure_dir dry created (target // n) w_d = (Return (), wd1) →
  same_output w_r w1 w_d wd1.
Proof.
  intros Hst. rewrite !ensure_dir_run. unfold path_exists. rewrite Hst, Hdry, Hreal.
  destruct (os_stat (disk w_r) (target // n)).
  - intros [= <-] [= <-]. apply same_output_refl.
  - destruct (mkdir_parents (disk w_r) (target // n)); [|done].
    intros [= <-] [= <-]. eapply same_output_log; output_finish.
Qed.

Section Items.

Context (recurse_r recurse_d : path → path → M bool).
Hypothesis Hframe : ∀ s t w0,
  path_exists (disk w0) t = true →
  wp (recurse_r s t) (fun _ w' => agrees_outside (under t) (disk w0) (disk w')) w0.
Hypothesis Hkeep : ∀ s t, leaves_alone (recurse_d s t).
Hypothesis Hsim : ∀ s t w_r w_r' w_d,
  disjoint_paths s t →
  path_exists (disk w_r) t = true →
  (∀ p, NoDup (listdir (disk w_d) p)) →
  same_view s t (disk w_r) (disk w_d) →
  recurse_r s t w_r = (Return true, w_r') →
  ∃ w_d', recurse_d s t w_d = (Return true, w_d') ∧ same_output w_r w_r' w_d w_d'.

Lemma preview_items source target items success w_r w_r' w_d :
  disjoint_paths source target →
  NoDup items →
  path_exists (disk w_r) target = true →
  (∀ p, NoDup (listdir (disk w_d) p)) →
  same_view_items source target items (disk w_r) (disk w_d) →
  walk_items fnmatch real overwrite exclude_patterns recurse_r source target items success w_r
    = (Return true, w_r') →
  ∃ w_d',
    walk_items fnmatch dry overwrite exclude_patterns recurse_d source target items success w_d
      = (Return true, w_d')
    ∧ same_output w_r w_r' w_d w_d'.
Proof.
  intros Hdis. revert success w_r w_d.
  induction items as [|n rest IH]; intros success w_r w_d Hnd Hex Hls Hview Hrun.
  { cbn [walk_items] in *. injection Hrun as -> ->.
    eexists. split; [reflexivity|apply same_output_refl]. }
  apply NoDup_cons in Hnd as [Hn Hnd].
  pose proof Hview as (Ha & Hl & Hb).
  assert (∀ w1 wd1 s,
    agrees_outside (fun q => (target // n) `suffix_of` q) (disk w_r) (disk w1) →
    disk wd1 = disk w_d →
    same_output w_r w1 w_d wd1 →
    walk_items fnmatch real overwrite exclude_patterns recurse_r source target rest s w1
      = (Return true, w_r') →
    ∃ w_d',
      walk_items fnmatch dry overwrite exclude_patterns recurse_d source target rest s wd1
        = (Return true, w_d')
      ∧ same_output w_r w_r' w_d w_d') as Hnext.
  { intros w1 wd1 s Hfr Hd1 Hc1 Hrun1.
    edestruct (IH s w1 wd1) as (w_d' & Hrun_d & Hc); [done| |by rewrite Hd1| |done|].
    - erewrite path_exists_agrees; [done..|]. apply suffix_cons_not.
    - rewrite Hd1. by eapply same_view_items_next.
    - eauto using same_output_trans. }
  destruct (_should_exclude fnmatch (source // n) exclude_patterns) eqn:Hexcl.
  { rewrite walk_items_excluded in Hrun |- * by done.
    eapply Hnext; [| |  |exact Hrun].
    - world_simpl. apply agrees_outside_refl.
    - by world_simpl.
    - eapply same_output_log; output_finish. }
  assert (is_file (disk w_d) (source // n) = is_file (disk w_r) (source // n)) as Hf.
  { unfold is_file. rewrite Ha; [done|]. by apply suffix_cons_r. }
  assert (is_dir (disk w_d) (source // n) = is_dir (disk w_r) (source // n)) as Hd.
  { unfold is_dir. rewrite Ha; [done|]. by apply suffix_cons_r. }
  destruct (is_file (disk w_r) (source // n)) eqn:Hfile.
  { destruct (hardlink_file_step real (source // n) (target // n) overwrite w_r)
      as (w1 & Hrun1 & Hdisk1 & Hstats1).
    destruct (hardlink_file_step dry (source // n) (target // n) overwrite w_d)
      as (wd1 & Hrund1 & Hdiskd1 & Hstatsd1).
    pose proof (hardlink_file_output real (source // n) (target // n) overwrite w_r) as Ho1.
    eapply wp_elim in Ho1; [|exact Hrun1].
    pose proof (hardlink_file_output dry (source // n) (target // n) overwrite w_d) as Hod1.
    eapply wp_elim in Hod1; [|exact Hrund1].
    rewrite Hreal in *. rewrite Hdry in *.
    erewrite walk_items_file in Hrun by done.
    pose proof (walk_items_success _ _ _ _ _ _ _ _ _ _ _ Hrun) as Hok.
    apply andb_true_iff in Hok as [-> Hok].
    rewrite file_step_dry_disk in Hdiskd1.
    assert (os_stat (disk w_d) (source // n) = os_stat (disk w_r) (source // n)) as Hsrc.
    { apply Ha. by apply suffix_cons_r. }
    assert (os_stat (disk w_d) (target // n) = os_stat (disk w_r) (target // n)) as Htgt.
    { by apply (Hb n); [left|]. }
    assert ((file_step true (disk w_d) (source // n) (target // n) overwrite).1
            = (file_step false (disk w_r) (source // n) (target // n) overwrite).1) as Hev.
    { by apply file_step_dry_real. }
    rewrite Hev in Hrund1, Hstatsd1, Hod1.
    erewrite walk_items_file by done.
    eapply Hnext; [|done| |exact Hrun].
    - rewrite Hdisk1. eapply agrees_outside_weaken; [|apply file_step_frame].
      by intros ? ->.
    - eexists. split; [by apply Ho1|]. rewrite Hod1 by done.
      by rewrite logged_dry, (success_lines_agree (disk w_r)). }
  destruct (is_dir (disk w_r) (source // n)) eqn:Hdir.
  - cbn [walk_items] in Hrun. rewrite Hexcl, bind_run in Hrun.
    unfold query at 1 in Hrun. rewrite Hfile, bind_run in Hrun.
    unfold query at 1 in Hrun. rewrite Hdir, bind_run in Hrun. simpl name in Hrun.
    destruct (ensure_dir real _ _ w_r) as [[[]|e] w1] eqn:Hens; [|done].
    rewrite bind_run in Hrun.
    destruct (recurse_r _ _ w1) as [[ok|e] w2] eqn:Hrec; [|done].
    pose proof (walk_items_success _ _ _ _ _ _ _ _ _ _ _ Hrun) as Hok.
    apply andb_true_iff in Hok as [-> ->].
    destruct (ensure_dir_dry_real real dry Hreal Hdry "Created directory: " n target
                w_r w1 w_d Hex) as
      (wd1 & Hensd & Hdiskd1 & _ & Hfr1 & Hex1); [apply (Hb n); [by left|done]|done|].
    assert (same_output w_r w1 w_d wd1) as Hc1.
    { eapply ensure_dir_preview; [|done..]. apply (Hb n); [by left|done]. }
    edestruct (Hsim (source // n) (target // n) w1 w2 wd1) as (wd2 & Hrecd & Hc2);
      [by apply disjoint_paths_child|done|by rewrite Hdiskd1| |done|].
    { rewrite Hdiskd1. by eapply same_view_items_enter. }
    pose proof (Hframe (source // n) (target // n) w1 Hex1) as Hfr2. eapply wp_elim in Hfr2; [|exact Hrec].
    pose proof (Hkeep (source // n) (target // n) wd1) as Hk.
    eapply wp_elim in Hk; [|exact Hrecd]. simpl in Hk. destruct Hk as [Hk _].
    erewrite walk_items_dir; [|done|congruence|congruence|done..].
    eapply Hnext; [|congruence| |exact Hrun].
    + eapply agrees_outside_trans.
      * eapply agrees_outside_weaken; [|exact Hfr1]. by intros ? ->.
      * eapply agrees_outside_weaken; [|exact Hfr2]. by intros ? [? _].
    + eauto using same_output_trans.
  - rewrite walk_items_skip in Hrun by done.
    rewrite walk_items_skip by congruence.
    eapply Hnext; [| |  |exact Hrun].
    + world_simpl. apply agrees_outside_refl.
    + by world_simpl.
    + eapply same_output_log; output_finish.
Qed.

End Items.

Lemma preview_rec depth source target w_r w_r' w_d :
  disjoint_paths source target →
  path_exists (disk w_r) target = true →
  (∀ p, NoDup (listdir (disk w_d) p)) →
  same_view source target (disk w_r) (disk w_d) →
  _hardlink_recursive fnmatch real overwrite exclude_patterns depth source target w_r
    = (Return true, w_r') →
  ∃ w_d',
    _hardlink_recursive fnmatch dry overwrite exclude_patterns depth source target w_d
      = (Return true, w_d')
    ∧ same_output w_r w_r' w_d w_d'.
Proof.
  revert source target w_r w_r' w_d.
  induction depth as [|depth IH]; intros source target w_r w_r' w_d Hdis Hex Hls Hview Hrun;
    cbn [_hardlink_recursive] in *; [done|].
  unfold try_except in *. rewrite bind_run in *. unfold call at 1 in Hrun. unfold call at 1.
  rewrite (os_iterdir_same_view _ _ _ _ Hview).
  destruct (os_iterdir (disk w_r) source) as [items|e] eqn:Hit;
    [|by destruct (is_PermissionError e)].
  destruct (walk_items fnmatch real _ _ _ _ _ items true w_r) as [[ok|e] w1] eqn:Hwalk;
    [|by destruct (is_PermissionError e)].
  simplify_eq.
  edestruct (preview_items
               (_hardlink_recursive fnmatch real overwrite exclude_patterns depth)
               (_hardlink_recursive fnmatch dry overwrite exclude_patterns depth))
    as (w_d' & Hrun_d & Hc); [..|exact Hwalk|].
  - intros. by apply real_hardlink_recursive_frame.
  - intros. by apply dry_hardlink_recursive_leaves_alone.
  - intros. by eapply IH.
  - done.
  - unfold os_iterdir in Hit. repeat case_match; simplify_eq.
    destruct Hview as (_ & Hl & _). rewrite <-Hl by done. apply Hls.
  - done.
  - done.
  - by apply same_view_to_items.
  - rewrite Hrun_d. eauto.
Qed.

End Preview.

(** X16: the dry run shows what the real run will print.  On a well-formed
    file system, with source and target not containing one another and the
    same verbosity, when the real run returns [True] the dry run from the same
    file system prints the very lines the real run prints. *)
Theorem dry_run_previews_the_output fnmatch real dry ow pats depth source target fs w_r :
  dry_run real = false →
  dry_run dry = true →
  verbose dry = verbose real →
  wf_fs fs = true →
  disjoint_paths source target →
  hardlink_directory fnmatch real ow pats depth source target (init fs) = (Return true, w_r) →
  stdout (hardlink_directory fnmatch dry ow pats depth source target (init fs)).2 = stdout w_r.
Proof.
  intros Hreal Hdry Hverbose Hwf Hdis Hrun.
  cut (∃ w_d,
    hardlink_directory fnmatch dry ow pats depth source target (init fs) = (Return true, w_d)
    ∧ same_output (init fs) w_r (init fs) w_d).
  { intros (w_d & -> & lines & H1 & H2). simpl in *. congruence. }
  unfold hardlink_directory in *. rewrite bind_run in *.
  unfold query at 1 in Hrun. unfold query at 1.
  destruct (path_exists (disk (init fs)) source); cbn [negb] in *;
    [|by rewrite bind_run in Hrun].
  rewrite bind_run in *. unfold query at 1 in Hrun. unfold query at 1.
  destruct (is_dir (disk (init fs)) source); cbn [negb] in *;
    [|by rewrite bind_run in Hrun].
  rewrite bind_run in *. rewrite ensure_dir_run in *. rewrite Hreal in Hrun. rewrite Hdry.
  unfold try_except in *.
  assert (∀ w1 wd1,
    disk wd1 = fs →
    path_exists (disk w1) target = true →
    same_view source target (disk w1) fs →
    same_output (init fs) w1 (init fs) wd1 →
    match _hardlink_recursive fnmatch real ow pats depth source target w1 with
    | (Return a, w') => (Return a, w')
    | (Raise e, w') =>
        (log real ("Error during hardlinking: " +:+ str_exn e) "ERROR" ≫= λ _, mret false) w'
    end = (Return true, w_r) →
    ∃ w_d,
      match _hardlink_recursive fnmatch dry ow pats depth source target wd1 with
      | (Return a, w') => (Return a, w')
      | (Raise e, w') =>
          (log dry ("Error during hardlinking: " +:+ str_exn e) "ERROR" ≫= λ _, mret false) w'
      end = (Return true, w_d)
      ∧ same_output (init fs) w_r (init fs) w_d) as Hwalk.
  { intros w1 wd1 Hd1 Hex1 Hview Hc1 Hrun1.
    destruct (_hardlink_recursive fnmatch real _ _ _ _ _ w1) as [[ok|e] w2] eqn:Hrec; [|done].
    simplify_eq.
    edestruct (preview_rec fnmatch real dry ow pats Hreal Hdry Hverbose depth source target
                 w1 w_r wd1) as (w_d & Hrec_d & Hc2); [done..| | |done|].
    - intros p. apply NoDup_listdir. by apply wf_fs_NoDup.
    - done.
    - exists w_d. rewrite Hrec_d. eauto using same_output_trans. }
  simpl disk in *.
  destruct (path_exists fs target) eqn:Hex.
  { refine (Hwalk _ _ _ _ _ _ Hrun);
      [reflexivity|exact Hex|apply same_view_refl|apply same_output_refl]. }
  destruct (mkdir_parents fs target) as [fs'|e] eqn:Hmk; [|by cbn beta iota in Hrun].
  apply mkdir_parents_Return in Hmk as [Hd Hfr].
  refine (Hwalk _ _ _ _ _ _ Hrun).
  - by world_simpl.
  - world_simpl. unfold is_dir, path_exists in *. by destruct (os_stat fs' target).
  - world_simpl. by apply same_view_after_mkdir.
  - eapply (same_output_log real dry Hverbose); simpl; rewrite ?stdout_log_world; simpl; done.
Qed.

(** ** The summary *)

(** X17: [print_stats] returns, changes nothing but the output, and what it
    prints tells the four counters apart: two hardlinkers whose summaries
    read the same have the same statistics. *)
Theorem print_stats_shows_the_counters w1 w2 :
  (print_stats w1).1 = Return ()
  ∧ stats (print_stats w1).2 = stats w1
  ∧ disk (print_stats w1).2 = disk w1
  ∧ calls (print_stats w1).2 = calls w1
  ∧ (stdout w1 = stdout w2 →
     stdout (print_stats w1).2 = stdout (print_stats w2).2 →
     stats w1 = stats w2).
Proof.
  split_and!; [done..|]. unfold print_stats. simpl. intros -> H.
  repeat apply app_inj_tail in H as [H ?]. simplify_eq/=.
  by apply stats_eq.
Qed.

(** ** The command line *)

Lemma P_bind_run {A B} (m : P A) (f : A → P B) p :
  (m ≫= f) p = match m p with
               | (Return a, p') => f a p'
               | (Raise e, p') => (Raise e, p')
               end.
Proof. done. Qed.

Lemma lift_call {A} (f : FS → outcome A) p : lift (call f) p = (f (disk (world p)), p).
Proof. unfold lift, call. destruct p as [w err]. simpl. by destruct (f (disk w)). Qed.

Lemma lift_query {A} (f : FS → A) p : lift (query f) p = (Return (f (disk (world p))), p).
Proof. by destruct p. Qed.

Lemma check_filesystem_compatibility_run source target p :
  check_filesystem_compatibility source target p
  = (Return (),
     MkProcess (world p)
       (stderr p ++ if devices_differ (disk (world p)) source target
                    then different_filesystems_warning else [])).
Proof.
  unfold check_filesystem_compatibility, catch, devices_differ, compared_directory.
  rewrite P_bind_run, lift_call. unfold path_stat at 1.
  destruct p as [w err]. simpl.
  destruct (os_stat (disk w) source) as [s|]; simpl; [|by rewrite app_nil_r].
  rewrite P_bind_run, lift_query. simpl.
  destruct (path_exists (disk w) target) eqn:Hex; simpl.
  - rewrite P_bind_run, lift_call. unfold path_stat. simpl.
    destruct (os_stat (disk w) target) as [d|]; simpl; [|by rewrite app_nil_r].
    destruct (bool_decide (st_dev s = st_dev d)); simpl; [by rewrite app_nil_r|].
    by rewrite <-app_assoc.
  - rewrite P_bind_run, lift_call. unfold path_stat. simpl.
    destruct (os_stat (disk w) (parent target)) as [d|]; simpl; [|by rewrite app_nil_r].
    destruct (bool_decide (st_dev s = st_dev d)); simpl; [by rewrite app_nil_r|].
    by rewrite <-app_assoc.
Qed.

Lemma validate_arguments_run args w :
  let fs := disk w in
  ∃ r, validate_arguments args w = (Return r, w) ∧
    match r with
    | None =>
        is_dir fs (Namespace.source args) = true ∧
        (path_exists fs (Namespace.target args) = false ∨
         is_dir fs (Namespace.target args) = true)
    | Some message =>
        (is_dir fs (Namespace.source args) = false ∨
         path_exists fs (Namespace.target args) = true ∧
         is_dir fs (Namespace.target args) = false)
        ∧ ∃ c rest, message = String c rest
    end.
Proof.
  intros fs. unfold validate_arguments. rewrite bind_run. unfold query at 1. fold fs.
  destruct (path_exists fs (Namespace.source args)) eqn:Hex; cbn [negb].
  2:{ eexists. split; [reflexivity|]. split; [|by eexists _, _]. left.
      unfold is_dir, path_exists in *. by destruct (os_stat _ _). }
  rewrite bind_run. unfold query at 1. fold fs.
  destruct (is_dir fs (Namespace.source args)) eqn:Hdir; cbn [negb].
  2:{ eexists. split; [reflexivity|]. split; [by left|by eexists _, _]. }
  rewrite bind_run. unfold query at 1. fold fs.
  destruct (path_exists fs (Namespace.target args)) eqn:Hext.
  2:{ eexists. split; [reflexivity|]. split; [done|by left]. }
  rewrite bind_run. unfold query at 1. fold fs.
  destruct (is_dir fs (Namespace.target args)) eqn:Hdirt; cbn [negb].
  - eexists. split; [reflexivity|]. split; [done|by right].
  - eexists. split; [reflexivity|]. split; [by right|by eexists _, _].
Qed.

Lemma lift_run {A} (m : M A) p :
  lift m p = ((m (world p)).1, MkProcess (m (world p)).2 (stderr p)).
Proof. done. Qed.

Lemma main_invalid fnmatch depth args p :
  let fs := disk (world p) in
  is_dir fs (Namespace.source args) = false ∨
  path_exists fs (Namespace.target args) = true ∧ is_dir fs (Namespace.target args) = false →
  ∃ message,
    main fnmatch depth args p
    = (Return 1%Z, MkProcess (world p) (stderr p ++ ["Error: " +:+ message])).
Proof.
  intros fs Hbad. unfold main. rewrite P_bind_run, lift_run.
  destruct (validate_arguments_run args (world p)) as (r & -> & Hr). simpl.
  destruct r as [message|].
  - destruct Hr as (_ & c & rest & ->). exists (String c rest). by destruct p.
  - destruct Hr as [Hd Ht]. fold fs in Hd, Ht.
    destruct Hbad as [?|[? ?]]; [congruence|]. destruct Ht; congruence.
Qed.

Lemma print_stats_run w :
  ∃ w', print_stats w = (Return (), w') ∧ stats w' = stats w ∧ disk w' = disk w
        ∧ calls w' = calls w.
Proof. eexists. split; [reflexivity|]. done. Qed.

Lemma main_run fnmatch depth args p :
  let fs := disk (world p) in
  is_dir fs (Namespace.source args) = true →
  path_exists fs (Namespace.target args) = false ∨ is_dir fs (Namespace.target args) = true →
  let hardlinker := Hardlinker (Namespace.verbose args) (Namespace.dry_run args) in
  let w0 := set_stats (fun _ => stats0) (world p) in
  let w1 := if Namespace.dry_run args
            then print ("DRY RUN MODE - No actual changes will be made" +:+ newline) w0
            else w0 in
  let err1 := stderr p ++ if devices_differ fs (Namespace.source args) (Namespace.target args)
                          then different_filesystems_warning else [] in
  match hardlink_directory fnmatch hardlinker (Namespace.overwrite args)
          (Namespace.exclude args) depth (Namespace.source args) (Namespace.target args) w1 with
  | (Raise e, w2) => main fnmatch depth args p = (Raise e, MkProcess w2 err1)
  | (Return ok, w2) =>
      let w3 := if Namespace.stats args || Namespace.verbose args
                then (print_stats w2).2 else w2 in
      if ok then
        errors (stats w2) = 0 ∧
        main fnmatch depth args p
        = (Return 0%Z,
           MkProcess (if Namespace.dry_run args then w3
                      else print "Directory hardlinking completed successfully!" w3) err1)
      else
        main fnmatch depth args p
        = (Return 1%Z, MkProcess w3 (err1 ++ ["Operation completed with errors."]))
  end.
Proof.
  intros fs Hsrc Htgt hardlinker w0 w1 err1. subst fs.
  assert (main fnmatch depth args p
    = (lift (hardlink_directory fnmatch hardlinker (Namespace.overwrite args)
               (Namespace.exclude args) depth (Namespace.source args)
               (Namespace.target args))
       ≫= λ success : bool,
            (if Namespace.stats args || Namespace.verbose args
             then lift print_stats else mret ())
            ≫= λ _ : (),
                 if negb success
                 then eprint "Operation completed with errors." ≫= λ _ : (), mret 1%Z
                 else
                   lift get_stats
                   ≫= λ s : Stats,
                        if bool_decide (0 < errors s)
                        then eprint "Operation completed but some errors occurred."
                             ≫= λ _ : (), mret 1%Z
                        else
                          (if negb (Namespace.dry_run args)
                           then lift (print_line
                                        "Directory hardlinking completed successfully!")
                           else mret ())
                          ≫= λ _ : (), mret 0%Z) (MkProcess w1 err1)) as ->.
  { unfold main. rewrite P_bind_run, lift_run.
    destruct (validate_arguments_run args (world p)) as (r & -> & Hr). simpl.
    destruct r as [message|];
      [destruct Hr as ([?|[? ?]] & _); destruct Htgt; congruence|].
    rewrite P_bind_run, check_filesystem_compatibility_run. fold err1.
    rewrite P_bind_run, lift_run. unfold __init__. simpl. fold w0 err1 hardlinker.
    rewrite P_bind_run.
    assert ((if Namespace.dry_run args
             then lift (print_line ("DRY RUN MODE - No actual changes will be made"
                                    +:+ newline))
             else mret ()) (MkProcess w0 err1) = (Return (), MkProcess w1 err1)) as ->
      by (subst w1; by destruct (Namespace.dry_run args)).
    done. }
  rewrite P_bind_run, lift_run. cbn [world stderr].
  destruct (hardlink_directory _ _ _ _ _ _ _ w1) as [[ok|e] w2] eqn:Hrun; [|done].
  cbn [fst snd].
  set (w3 := if Namespace.stats args || Namespace.verbose args
             then (print_stats w2).2 else w2).
  assert (stats w3 = stats w2) as Hs3
    by (subst w3; by destruct (Namespace.stats args || Namespace.verbose args)).
  rewrite P_bind_run.
  assert ((if Namespace.stats args || Namespace.verbose args
           then lift print_stats else mret ()) (MkProcess w2 err1)
          = (Return (), MkProcess w3 err1)) as ->
    by (subst w3; by destruct (Namespace.stats args || Namespace.verbose args)).
  clearbody w3.
  destruct ok; simpl; [|done].
  apply hardlink_directory_true in Hrun.
  assert (errors (stats w2) = 0) as He.
  { rewrite Hrun. subst w1 w0. by destruct (Namespace.dry_run args). }
  split; [done|].
  rewrite P_bind_run, lift_run. simpl. rewrite Hs3, He. simpl.
  by destruct (Namespace.dry_run args).
Qed.


Lemma arguments_valid_or_not fs args :
  (is_dir fs (Namespace.source args) = true ∧
   (path_exists fs (Namespace.target args) = false ∨ is_dir fs (Namespace.target args) = true))
  ∨ (is_dir fs (Namespace.source args) = false ∨
     path_exists fs (Namespace.target args) = true ∧ is_dir fs (Namespace.target args) = false).
Proof.
  destruct (is_dir fs (Namespace.source args)); [|by right; left].
  destruct (path_exists fs (Namespace.target args)); [|by left; split; [|left]].
  destruct (is_dir fs (Namespace.target args)); [by left; split; [|right]|by right; right].
Qed.

(** X19: the exit code of [main] and what it writes to the standard error
    stream.  When [main] returns, the stream has at most the filesystem
    warning and then at most one line.  Exit code 0 comes with no such line
    and with no error counted; exit code 1 comes with
    [Operation completed with errors.], or with the [Error: ] line of
    refused arguments.  The line
    [Operation completed but some errors occurred.] is never written: a run
    that returns [True] has counted no error. *)
Theorem main_exit_code fnmatch depth args p code p' :
  main fnmatch depth args p = (Return code, p') →
  ∃ warning final,
    stderr p' = stderr p ++ warning ++ final
    ∧ (warning = [] ∨ warning = different_filesystems_warning)
    ∧ ("Operation completed but some errors occurred." ∉ final)
    ∧ (code = 0%Z ∧ final = [] ∧ errors (stats (world p')) = 0
       ∨ code = 1%Z ∧ final = ["Operation completed with errors."]
       ∨ code = 1%Z ∧ warning = [] ∧ world p' = world p
         ∧ ∃ message, final = ["Error: " +:+ message]).
Proof.
  intros Hmain.
  destruct (arguments_valid_or_not (disk (world p)) args) as [[Hsrc Htgt]|Hbad].
  2:{ destruct (main_invalid fnmatch depth args p Hbad) as (message & Hrun).
      rewrite Hrun in Hmain. simplify_eq. exists [], ["Error: " +:+ message]. simpl.
      split_and!; [done|by left| |right; right; by eauto].
      intros [H|H]%elem_of_cons; [done|by apply elem_of_nil in H]. }
  pose proof (main_run fnmatch depth args p Hsrc Htgt) as Hrun. simpl in Hrun.
  destruct (hardlink_directory _ _ _ _ _ _ _ _) as [[ok|e] w2]; [|congruence].
  set (warning := if devices_differ (disk (world p)) (Namespace.source args)
                       (Namespace.target args)
                  then different_filesystems_warning else []) in *.
  assert (warning = [] ∨ warning = different_filesystems_warning) as Hw.
  { subst warning. destruct (devices_differ _ _ _); auto. }
  destruct ok.
  - destruct Hrun as [He Hrun]. rewrite Hrun in Hmain. simplify_eq.
    exists warning, []. rewrite app_nil_r. simpl.
    split_and!; [done|done|by intros ?%elem_of_nil|left].
    split_and!; [done..|].
    by destruct (Namespace.dry_run args), (Namespace.stats args || Namespace.verbose args).
  - rewrite Hrun in Hmain. simplify_eq.
    exists warning, ["Operation completed with errors."]. simpl.
    split_and!; [by rewrite app_assoc|done| |by right; left].
    intros [H|H]%elem_of_cons; [done|by apply elem_of_nil in H].
Qed.



Lemma devices_differ_true fs source target :
  devices_differ fs source target = true ↔
  ∃ s d, os_stat fs source = Some s
         ∧ os_stat fs (if path_exists fs target then target else parent target) = Some d
         ∧ st_dev s ≠ st_dev d.
Proof.
  unfold devices_differ, compared_directory. split.
  - destruct (os_stat fs source) as [s|]; [|done].
    destruct (os_stat fs _) as [d|]; [|done].
    intros H%negb_true_iff%bool_decide_eq_false. by exists s, d.
  - intros (s & d & -> & -> & H). by apply negb_true_iff, bool_decide_eq_false.
Qed.


(** ** The further properties at concrete inputs *)



(** With [overwrite] the directory [/t] stays. *)
Lemma directories_are_never_removed_witness :
  os_stat (disk (hardlink_directory glob_match real_run true None 10 ["s"] ["t"]
                   (init fs_conflict)).2) ["t"]
  = os_stat (disk (init fs_conflict)) ["t"].
Proof.
  apply (directories_are_never_removed glob_match real_run true None 10 ["s"] ["t"]
           (init fs_conflict) ["t"]).
  reflexivity.
Defined.

(** A quiet run of a whole tree. *)
Lemma quiet_run_prints_nothing_witness :
  stdout (hardlink_directory glob_match quiet_run false None 10 ["s"] ["t"] (init fs_tree)).2
  = stdout (init fs_tree).
Proof.
  apply (quiet_run_prints_nothing glob_match quiet_run false None 10 ["s"] ["t"] (init fs_tree)).
  reflexivity.
Defined.

(** Three files linked by three calls, two directories made by two. *)
Lemma statistics_match_calls_witness :
  files_linked (stats tree_mirrored) ≤ count_calls is_link tree_mirrored
  ∧ count_calls is_link tree_mirrored
    ≤ files_linked (stats tree_mirrored) + errors (stats tree_mirrored)
  ∧ dirs_created (stats tree_mirrored) ≤ count_calls is_mkdir tree_mirrored
  ∧ count_calls is_mkdir tree_mirrored
    ≤ dirs_created (stats tree_mirrored) + errors (stats tree_mirrored)
  ∧ count_calls is_unlink tree_mirrored
    ≤ files_linked (stats tree_mirrored) + errors (stats tree_mirrored)
  ∧ (true = true →
     count_calls is_link tree_mirrored = files_linked (stats tree_mirrored)
     ∧ count_calls is_mkdir tree_mirrored = dirs_created (stats tree_mirrored)).
Proof.
  apply (statistics_match_calls glob_match real_run false None 10 ["s"] ["t"] fs_tree
           true tree_mirrored).
  - reflexivity.
  - vm_compute; reflexivity.
Defined.




(** [/t/a] is [/s/a] already. *)
Lemma mirrored_tree_is_left_alone_witness :
  disk (hardlink_directory glob_match real_run true None 10 ["s"] ["t"] (init fs_linked)).2
  = disk (init fs_linked)
  ∧ calls (hardlink_directory glob_match real_run true None 10 ["s"] ["t"] (init fs_linked)).2
    = calls (init fs_linked)
  ∧ files_linked
      (stats (hardlink_directory glob_match real_run true None 10 ["s"] ["t"]
                (init fs_linked)).2)
    = files_linked (stats (init fs_linked))
  ∧ dirs_created
      (stats (hardlink_directory glob_match real_run true None 10 ["s"] ["t"]
                (init fs_linked)).2)
    = dirs_created (stats (init fs_linked)).
Proof.
  apply (mirrored_tree_is_left_alone glob_match real_run true None 10 ["s"] ["t"]
           (init fs_linked)).
  intros s t Hw. inversion Hw as [|? ? n ? ? Hn Hex Hd Hw']; subst.
  - split; [reflexivity|]. intros n Hn _ _.
    apply list_elem_of_singleton in Hn as ->. split; [reflexivity|]. intros _. reflexivity.
  - apply list_elem_of_singleton in Hn as ->. discriminate Hd.
Defined.



(** Two fresh hardlinkers print the same summary. *)
Lemma print_stats_shows_the_counters_witness :
  stats (init fs_tree) = stats (init fs_conflict).
Proof.
  destruct (print_stats_shows_the_counters (init fs_tree) (init fs_conflict))
    as (_ & _ & _ & _ & H).
  apply H; reflexivity.
Defined.


(** A run that succeeds leaves with exit code 0. *)
Lemma main_exit_code_witness :
  ∃ warning final,
    stderr (main glob_match 10 args_tree (MkProcess (init fs_tree) [])).2
    = stderr (MkProcess (init fs_tree) []) ++ warning ++ final
    ∧ (warning = [] ∨ warning = different_filesystems_warning)
    ∧ ("Operation completed but some errors occurred." ∉ final)
    ∧ (0%Z = 0%Z ∧ final = []
       ∧ errors (stats (world (main glob_match 10 args_tree
                                 (MkProcess (init fs_tree) [])).2)) = 0
       ∨ 0%Z = 1%Z ∧ final = ["Operation completed with errors."]
       ∨ 0%Z = 1%Z ∧ warning = []
         ∧ world (main glob_match 10 args_tree (MkProcess (init fs_tree) [])).2
           = world (MkProcess (init fs_tree) [])
         ∧ ∃ message, final = ["Error: " +:+ message]).
Proof.
  apply (main_exit_code glob_match 10 args_tree (MkProcess (init fs_tree) []) 0%Z
           (main glob_match 10 args_tree (MkProcess (init fs_tree) [])).2).
  vm_compute; reflexivity.
Defined.





(** The dry run of [fs_tree] prints the six lines of the real run. *)
Lemma dry_run_previews_the_output_witness :
  stdout (hardlink_directory glob_match dry_run_only false None 10 ["s"] ["t"]
            (init fs_tree)).2
  = stdout tree_mirrored.
Proof.
  apply (dry_run_previews_the_output glob_match real_run dry_run_only false None 10
           ["s"] ["t"] fs_tree tree_mirrored).
  - reflexivity.
  - reflexivity.
  - reflexivity.
  - vm_compute; reflexivity.
  - apply (bool_decide_unpack _). vm_compute. exact I.
  - vm_compute; reflexivity.
Defined.
